(** * DEFLATE_QPL codec: hardware job pool and hardware/software dispatch

    A shallow embedding of [Compression/CompressionCodecDeflateQpl.cpp]:
    the process-wide pool of accelerator job slots
    ([DeflateQplJobHWPool]), the hardware codec with its map of
    asynchronous decompression jobs ([HardwareCodecDeflateQpl]), the
    software codec ([SoftwareCodecDeflateQpl]) and the dispatching codec
    ([CompressionCodecDeflateQpl]).

    The C++ code is imperative: it is embedded in a state-and-exception
    monad [M] over a [World] that holds the pool statics, the codec
    members, the buffers the jobs read and write, and a log of the calls
    made.  The accelerator library (QPL) is external: its answers are the
    fields of the [Accelerator] class. *)

From Stdlib Require Import ZArith List Lia QArith Qround Sorted.
From stdpp Require Import base list gmap.

Local Open Scope Z_scope.

(** ** Machine integers *)

(** [uint32_t] and [int32_t] values are integers in [Z]; the conversions
    write the wrap-around out. *)
Definition to_uint32 (z : Z) : Z := z mod 2 ^ 32.

Definition to_int32 (z : Z) : Z := (z + 2 ^ 31) mod 2 ^ 32 - 2 ^ 31.

Definition is_uint32 (z : Z) : Prop := 0 <= z < 2 ^ 32.

(** ** The declarations of the header *)

(** Modelled from the spec: the header [CompressionCodecDeflateQpl.h] that
    declares [DeflateQplJobHWPool::MAX_HW_JOB_NUMBER] and
    [HardwareCodecDeflateQpl::RET_ERROR] is missing.  The spec gives the
    number of slots as a static knob [N] (1024 by default) and leaves the
    value of the [ERROR] sentinel open, saying only that it is no external
    job id; both are parameters here.  [RET_ERROR] is an [int32_t] (the
    dispatch code stores it in one). *)
Class Header := {
  MAX_HW_JOB_NUMBER : Z;
  RET_ERROR : Z;
  MAX_HW_JOB_NUMBER_range : 0 < MAX_HW_JOB_NUMBER < 2 ^ 31;
  RET_ERROR_range : - 2 ^ 31 <= RET_ERROR <= 0
}.

(** ** The accelerator library *)

Inductive qpl_path := qpl_path_hardware | qpl_path_software.

Inductive qpl_operation := qpl_op_compress | qpl_op_decompress.

Inductive qpl_compression_levels := qpl_default_level | qpl_other_level.

Inductive qpl_flag :=
| QPL_FLAG_FIRST
| QPL_FLAG_LAST
| QPL_FLAG_DYNAMIC_HUFFMAN
| QPL_FLAG_OMIT_VERIFY.

(** The statuses the code tells apart are [QPL_STS_OK] and
    [QPL_STS_BEING_PROCESSED]; [QPL_STS_JOB_NOT_SUBMITTED] is what polling
    a job block with no submission answers; every other status carries its
    code. *)
Inductive qpl_status :=
| QPL_STS_OK
| QPL_STS_BEING_PROCESSED
| QPL_STS_JOB_NOT_SUBMITTED
| QPL_STS_ERR (code : Z).

(** How a job that ran to completion ended; as a status, [QPL_STS_OK] or
    an error, never [QPL_STS_BEING_PROCESSED]. *)
Inductive qpl_terminal :=
| qpl_completed
| qpl_failed (code : Z).

Definition terminal_status (t : qpl_terminal) : qpl_status :=
  match t with
  | qpl_completed => QPL_STS_OK
  | qpl_failed code => QPL_STS_ERR code
  end.

Definition status_is_ok (s : qpl_status) : bool :=
  match s with QPL_STS_OK => true | _ => false end.

Definition status_is_being_processed (s : qpl_status) : bool :=
  match s with QPL_STS_BEING_PROCESSED => true | _ => false end.

(** Buffers are named by an address; a buffer holds bytes. *)
Abbreviation addr := nat (only parsing).

Abbreviation bytes := (list Byte.byte) (only parsing).

(** The driver-side part of a job block: idle, or submitted and polled
    [polls] times since. *)
Inductive qpl_job_state :=
| job_idle
| job_submitted (polls : nat).

(** The fields of [qpl_job] the codec reads and writes. *)
Record qpl_job := mk_qpl_job {
  op : qpl_operation;
  next_in_ptr : addr;
  next_out_ptr : addr;
  available_in : Z;
  available_out : Z;
  level : qpl_compression_levels;
  flags : list qpl_flag;
  total_out : Z;
  job_state : qpl_job_state
}.

(** A zero-filled job block ([std::make_unique<uint8_t[]>] value-initialises
    the buffer). *)
Definition zero_job : qpl_job :=
  {| op := qpl_op_compress; next_in_ptr := 0%nat; next_out_ptr := 0%nat;
     available_in := 0; available_out := 0; level := qpl_other_level;
     flags := []; total_out := 0; job_state := job_idle |}.

(** Modelled from the spec: the accelerator interface of section 4.A.  The
    library is an external collaborator; what it answers is a parameter.
    - [qpl_init_status path i]: the status of [qpl_init_job] on the [i]-th
      block of that path;
    - [qpl_run path job input]: how the job ends when it runs to
      completion, and the bytes it writes to its output buffer ([job] is
      the request: the block as the caller filled it);
    - [qpl_submit_status ptr job]: the status of [qpl_submit_job];
    - [qpl_busy ptr k]: whether the [k]-th poll of the job submitted on
      block [ptr] still answers [QPL_STS_BEING_PROCESSED];
    - [random_engine_output k]: the [k]-th output of the pool's random
      engine. *)
Class Accelerator := {
  qpl_init_status : qpl_path -> nat -> qpl_status;
  qpl_run : qpl_path -> qpl_job -> list Byte.byte -> qpl_terminal * list Byte.byte;
  qpl_submit_status : nat -> qpl_job -> qpl_status;
  qpl_busy : nat -> nat -> bool;
  random_engine_output : nat -> Z
}.

(** ** Events *)

Inductive LogMessage :=
| msg_pool_init_failed
| msg_pool_ready
| msg_unreleased_job
| msg_compress_acquire_failed
| msg_compress_execute_failed (status : qpl_status)
| msg_decompress_acquire_failed
| msg_decompress_submit_failed (status : qpl_status).

(** The calls a run makes, newest first: lock operations, calls of
    [releaseJob], calls into the library and log lines. *)
Inductive Event :=
| EvTryLock (index : Z) (locked : bool)
| EvUnlock (index : Z)
| EvReleaseJob (job_id : Z)
| EvInit (path : qpl_path)
| EvFini (path : qpl_path)
| EvExecute (path : qpl_path)
| EvSubmit (ptr : nat)
| EvCheck (ptr : nat)
| EvPause
| EvWarning (msg : LogMessage)
| EvDebug (msg : LogMessage).

(** ** Error codes and codec modes *)

Inductive ErrorCode := CANNOT_COMPRESS | CANNOT_DECOMPRESS.

Inductive CodecMode := Synchronous | Asynchronous | SoftwareFallback.

(** ** The world *)

(** [std::map<uint32_t, qpl_job *>]: the entries in ascending key order,
    no key twice.  A job pointer is the index of its block in
    [hw_jobs_buffer]. *)
Abbreviation job_map := (list (Z * nat)) (only parsing).

Record World := mk_World {
  (* statics of DeflateQplJobHWPool *)
  hw_job_ptr_pool : list (option nat);
  hw_job_ptr_locks : list bool;
  job_pool_ready : bool;
  hw_jobs_buffer : list qpl_job;
  random_engine : nat;
  (* HardwareCodecDeflateQpl *)
  decomp_async_job_map : list (Z * nat);
  (* SoftwareCodecDeflateQpl *)
  sw_job : option qpl_job;
  (* ICompressionCodec *)
  decompress_mode : CodecMode;
  (* the buffers and the log *)
  mem : gmap nat (list Byte.byte);
  trace : list Event
}.

Definition set_hw_job_ptr_pool (v : list (option nat)) (w : World) : World :=
  mk_World v (hw_job_ptr_locks w) (job_pool_ready w) (hw_jobs_buffer w)
    (random_engine w) (decomp_async_job_map w) (sw_job w) (decompress_mode w)
    (mem w) (trace w).

Definition set_hw_job_ptr_locks (v : list bool) (w : World) : World :=
  mk_World (hw_job_ptr_pool w) v (job_pool_ready w) (hw_jobs_buffer w)
    (random_engine w) (decomp_async_job_map w) (sw_job w) (decompress_mode w)
    (mem w) (trace w).

Definition set_job_pool_ready (v : bool) (w : World) : World :=
  mk_World (hw_job_ptr_pool w) (hw_job_ptr_locks w) v (hw_jobs_buffer w)
    (random_engine w) (decomp_async_job_map w) (sw_job w) (decompress_mode w)
    (mem w) (trace w).

Definition set_hw_jobs_buffer (v : list qpl_job) (w : World) : World :=
  mk_World (hw_job_ptr_pool w) (hw_job_ptr_locks w) (job_pool_ready w) v
    (random_engine w) (decomp_async_job_map w) (sw_job w) (decompress_mode w)
    (mem w) (trace w).

Definition set_random_engine (v : nat) (w : World) : World :=
  mk_World (hw_job_ptr_pool w) (hw_job_ptr_locks w) (job_pool_ready w)
    (hw_jobs_buffer w) v (decomp_async_job_map w) (sw_job w)
    (decompress_mode w) (mem w) (trace w).

Definition set_decomp_async_job_map (v : list (Z * nat)) (w : World) : World :=
  mk_World (hw_job_ptr_pool w) (hw_job_ptr_locks w) (job_pool_ready w)
    (hw_jobs_buffer w) (random_engine w) v (sw_job w) (decompress_mode w)
    (mem w) (trace w).

Definition set_sw_job (v : option qpl_job) (w : World) : World :=
  mk_World (hw_job_ptr_pool w) (hw_job_ptr_locks w) (job_pool_ready w)
    (hw_jobs_buffer w) (random_engine w) (decomp_async_job_map w) v
    (decompress_mode w) (mem w) (trace w).

Definition set_decompress_mode (v : CodecMode) (w : World) : World :=
  mk_World (hw_job_ptr_pool w) (hw_job_ptr_locks w) (job_pool_ready w)
    (hw_jobs_buffer w) (random_engine w) (decomp_async_job_map w) (sw_job w)
    v (mem w) (trace w).

Definition set_mem (v : gmap nat (list Byte.byte)) (w : World) : World :=
  mk_World (hw_job_ptr_pool w) (hw_job_ptr_locks w) (job_pool_ready w)
    (hw_jobs_buffer w) (random_engine w) (decomp_async_job_map w) (sw_job w)
    (decompress_mode w) v (trace w).

Definition set_trace (v : list Event) (w : World) : World :=
  mk_World (hw_job_ptr_pool w) (hw_job_ptr_locks w) (job_pool_ready w)
    (hw_jobs_buffer w) (random_engine w) (decomp_async_job_map w) (sw_job w)
    (decompress_mode w) (mem w) v.

(** ** The monad *)

(** A call returns a value, throws a [DB::Exception], runs into undefined
    behaviour (a failed [assert], an index out of its array, a null or
    dangling pointer dereferenced), or is cut off when its loop runs out
    of fuel.  A thrown exception keeps the state reached. *)
Inductive Outcome (A : Type) : Type :=
| Ret (a : A) (w : World)
| Throw (code : ErrorCode) (w : World)
| Undefined
| OutOfFuel.

Arguments Ret {A} a w.
Arguments Throw {A} code w.
Arguments Undefined {A}.
Arguments OutOfFuel {A}.

Definition M (A : Type) : Type := World -> Outcome A.

Definition ret {A} (a : A) : M A := fun w => Ret a w.

Definition bind {A B} (m : M A) (k : A -> M B) : M B :=
  fun w =>
    match m w with
    | Ret a w' => k a w'
    | Throw code w' => Throw code w'
    | Undefined => Undefined
    | OutOfFuel => OutOfFuel
    end.

Definition get : M World := fun w => Ret w w.

Definition modify (f : World -> World) : M unit := fun w => Ret tt (f w).

Definition throw {A} (code : ErrorCode) : M A := fun w => Throw code w.

Definition undefined {A} : M A := fun _ => Undefined.

Definition out_of_fuel {A} : M A := fun _ => OutOfFuel.

Definition log (e : Event) : M unit :=
  modify (fun w => set_trace (e :: trace w) w).

(** [assert(c)]: a failed assertion is outside the defined behaviour. *)
Definition assert (c : bool) : M unit := if c then ret tt else undefined.

Declare Scope m_scope.
Delimit Scope m_scope with M.
Notation "x <- c1 ;; c2" := (bind c1 (fun x => c2))
  (at level 100, c1 at next level, right associativity) : m_scope.
Notation "c1 ;; c2" := (bind c1 (fun _ => c2))
  (at level 100, right associativity) : m_scope.
Local Open Scope m_scope.

(** The world an outcome ends in, when it has one. *)
Definition final_world {A} (o : Outcome A) : option World :=
  match o with
  | Ret _ w | Throw _ w => Some w
  | _ => None
  end.

(** ** CompressionCodecDeflateQpl::getMaxCompressedDataSize *)

(** [uncompressed_size] is a [uint32_t]; the sum is computed in 32-bit
    unsigned arithmetic. *)
Definition getMaxCompressedDataSize (uncompressed_size : Z) : Z :=
  to_uint32 (uncompressed_size + Z.shiftr uncompressed_size 12
             + Z.shiftr uncompressed_size 14 + Z.shiftr uncompressed_size 25
             + 13).

(** The bound as the spec words it: the ceiling of the sum with exact
    rational quotients. *)
Definition spec_max_compressed_size (n : Z) : Z :=
  Qceiling (inject_Z n + inject_Z n / inject_Z 4096
            + inject_Z n / inject_Z 16384 + inject_Z n / inject_Z 33554432
            + inject_Z 13)%Q.

(** ** std::map<uint32_t, qpl_job *> *)

Module StdMap.

(** [insert]: keeps the keys ascending and leaves the map alone when the
    key is already there. *)
Fixpoint insert (k : Z) (v : nat) (m : list (Z * nat)) : list (Z * nat) :=
  match m with
  | [] => [(k, v)]
  | (k', v') :: rest =>
      if k <? k' then (k, v) :: m
      else if k =? k' then m
      else (k', v') :: insert k v rest
  end.

Definition keys (m : list (Z * nat)) : list Z := map fst m.

(** The class invariant of [std::map]: strictly ascending keys. *)
Definition ok (m : list (Z * nat)) : Prop := StronglySorted Z.lt (keys m).

End StdMap.

(** ** The library calls, on the world *)

Module Qpl.
Section Qpl.
Context {hdr : Header} {acc : Accelerator}.

(** What a job writes goes to the front of its output buffer. *)
Definition write_prefix (out old : list Byte.byte) : list Byte.byte :=
  out ++ drop (length out) old.

Definition buffer_at (w : World) (a : nat) : list Byte.byte :=
  default [] (mem w !! a).

(** The bytes a job reads: [available_in] bytes at [next_in_ptr]. *)
Definition job_input (w : World) (job : qpl_job) : list Byte.byte :=
  take (Z.to_nat (available_in job)) (buffer_at w (next_in_ptr job)).

(** What the caller asked for: the job block without what the library
    keeps in it ([total_out] and the driver-side state). *)
Definition job_request (job : qpl_job) : qpl_job :=
  mk_qpl_job (op job) (next_in_ptr job) (next_out_ptr job)
    (available_in job) (available_out job) (level job) (flags job) 0 job_idle.

(** The terminal status of a job and the bytes it writes; they depend on
    the request and on the input. *)
Definition job_result (path : qpl_path) (job : qpl_job) (w : World)
    : qpl_status * list Byte.byte :=
  (terminal_status (fst (qpl_run path (job_request job) (job_input w job))),
   snd (qpl_run path (job_request job) (job_input w job))).

(** The job block once the job has finished: [total_out] holds the count
    of bytes written and the block is idle. *)
Definition completed_job (job : qpl_job) (out : list Byte.byte) : qpl_job :=
  mk_qpl_job (op job) (next_in_ptr job) (next_out_ptr job)
    (available_in job) (available_out job) (level job) (flags job)
    (to_uint32 (Z.of_nat (length out))) job_idle.

(** The buffers once the job has written its output at [next_out_ptr]. *)
Definition mem_after (job : qpl_job) (out : list Byte.byte) (w : World)
    : gmap nat (list Byte.byte) :=
  <[next_out_ptr job := write_prefix out (buffer_at w (next_out_ptr job))]> (mem w).

(** The job runs to completion. *)
Definition complete_job (path : qpl_path) (job : qpl_job) : M (qpl_status * qpl_job) :=
  w <- get ;;
  let result := job_result path job w in
  modify (set_mem (mem_after job (snd result) w)) ;;
  ret (fst result, completed_job job (snd result)).

(** The job block with its driver-side state replaced. *)
Definition with_job_state (job : qpl_job) (st : qpl_job_state) : qpl_job :=
  mk_qpl_job (op job) (next_in_ptr job) (next_out_ptr job)
    (available_in job) (available_out job) (level job) (flags job)
    (total_out job) st.

(** [*job_ptr] for a pointer into [hw_jobs_buffer]. *)
Definition read_hw_job (ptr : nat) : M qpl_job :=
  w <- get ;;
  match hw_jobs_buffer w !! ptr with
  | Some job => ret job
  | None => undefined
  end.

Definition write_hw_job (ptr : nat) (job : qpl_job) : M unit :=
  modify (fun w => set_hw_jobs_buffer (<[ptr := job]> (hw_jobs_buffer w)) w).

(** [qpl_init_job(qpl_path_hardware, job_ptr)] on block [ptr]. *)
Definition qpl_init_job_hw (ptr : nat) : M qpl_status :=
  _ <- read_hw_job ptr ;;
  log (EvInit qpl_path_hardware) ;;
  write_hw_job ptr zero_job ;;
  ret (qpl_init_status qpl_path_hardware ptr).

(** [qpl_execute_job(job_ptr)], blocking. *)
Definition qpl_execute_job_hw (ptr : nat) : M qpl_status :=
  job <- read_hw_job ptr ;;
  log (EvExecute qpl_path_hardware) ;;
  r <- complete_job qpl_path_hardware job ;;
  write_hw_job ptr (snd r) ;;
  ret (fst r).

(** [qpl_submit_job(job_ptr)]: an accepted job is in flight. *)
Definition qpl_submit_job (ptr : nat) : M qpl_status :=
  job <- read_hw_job ptr ;;
  log (EvSubmit ptr) ;;
  let status := qpl_submit_status ptr job in
  (if status_is_ok status
   then write_hw_job ptr (with_job_state job (job_submitted 0))
   else ret tt) ;;
  ret status.

(** [qpl_check_job(job_ptr)]: [QPL_STS_BEING_PROCESSED] while the job is
    busy; the poll that finds it finished completes it and answers its
    terminal status. *)
Definition qpl_check_job (ptr : nat) : M qpl_status :=
  job <- read_hw_job ptr ;;
  log (EvCheck ptr) ;;
  match job_state job with
  | job_idle => ret QPL_STS_JOB_NOT_SUBMITTED
  | job_submitted polls =>
      if qpl_busy ptr polls
      then write_hw_job ptr (with_job_state job (job_submitted (S polls))) ;;
           ret QPL_STS_BEING_PROCESSED
      else r <- complete_job qpl_path_hardware job ;;
           write_hw_job ptr (snd r) ;;
           ret (fst r)
  end.

(** The software job block is the codec's own. *)
Definition qpl_execute_job_sw : M qpl_status :=
  w <- get ;;
  match sw_job w with
  | None => undefined
  | Some job =>
      log (EvExecute qpl_path_software) ;;
      r <- complete_job qpl_path_software job ;;
      modify (set_sw_job (Some (snd r))) ;;
      ret (fst r)
  end.

End Qpl.
End Qpl.

(** ** DeflateQplJobHWPool *)

Module DeflateQplJobHWPool.
Section DeflateQplJobHWPool.
Context {hdr : Header} {acc : Accelerator}.

(** [isJobPoolReady()].  Modelled from the spec: the accessor is declared
    in the missing header; the spec has it read the [ready] flag that the
    constructor sets. *)
Definition isJobPoolReady : M bool := w <- get ;; ret (job_pool_ready w).

(** [distribution(random_engine)] with
    [std::uniform_int_distribution<int> distribution(0, MAX_HW_JOB_NUMBER-1)]:
    the engine advances and the sample lies in the range. *)
Definition distribution : M Z :=
  w <- get ;;
  modify (set_random_engine (S (random_engine w))) ;;
  ret (random_engine_output (random_engine w) mod MAX_HW_JOB_NUMBER).

Definition index_in_range (index : Z) : bool :=
  (0 <=? index) && (index <? MAX_HW_JOB_NUMBER).

(** [hw_job_ptr_locks[index].compare_exchange_strong(expected, true)] with
    [expected = false]. *)
Definition tryLockJob (index : Z) : M bool :=
  assert (index_in_range index) ;;
  w <- get ;;
  match hw_job_ptr_locks w !! Z.to_nat index with
  | None => undefined
  | Some false =>
      modify (set_hw_job_ptr_locks (<[Z.to_nat index := true]> (hw_job_ptr_locks w))) ;;
      log (EvTryLock index true) ;;
      ret true
  | Some true =>
      log (EvTryLock index false) ;;
      ret false
  end.

(** Modelled from the spec: [unLockJob] is declared in the missing header;
    release stores [false] into the lock, with no compare-and-swap. *)
Definition unLockJob (index : Z) : M unit :=
  w <- get ;;
  if (0 <=? index) && bool_decide (Z.to_nat index < length (hw_job_ptr_locks w))%nat
  then modify (set_hw_job_ptr_locks (<[Z.to_nat index := false]> (hw_job_ptr_locks w))) ;;
       log (EvUnlock index)
  else undefined.

(** [hw_job_ptr_pool[index]]. *)
Definition job_ptr_at (index : Z) : M (option nat) :=
  w <- get ;;
  if 0 <=? index
  then match hw_job_ptr_pool w !! Z.to_nat index with
       | Some p => ret p
       | None => undefined
       end
  else undefined.

Definition set_job_ptr_at (index : Z) (p : option nat) : M unit :=
  w <- get ;;
  if (0 <=? index) && bool_decide (Z.to_nat index < length (hw_job_ptr_pool w))%nat
  then modify (set_hw_job_ptr_pool (<[Z.to_nat index := p]> (hw_job_ptr_pool w)))
  else undefined.

(** The constructor's loop over the slots; [false] when it returned early
    on a failed [qpl_init_job]. *)
Fixpoint init_jobs (indices : list nat) : M bool :=
  match indices with
  | [] => ret true
  | index :: rest =>
      status <- Qpl.qpl_init_job_hw index ;;
      if status_is_ok status
      then set_job_ptr_at (Z.of_nat index) (Some index) ;;
           unLockJob (Z.of_nat index) ;;
           init_jobs rest
      else modify (set_job_pool_ready false) ;;
           log (EvWarning msg_pool_init_failed) ;;
           ret false
  end.

(** The statics before the constructor runs: zero-initialised arrays and
    flag. *)
Definition statics_zero (w : World) : World :=
  set_hw_job_ptr_pool (replicate (Z.to_nat MAX_HW_JOB_NUMBER) None)
    (set_hw_job_ptr_locks (replicate (Z.to_nat MAX_HW_JOB_NUMBER) false)
       (set_job_pool_ready false (set_hw_jobs_buffer [] w))).

(** [DeflateQplJobHWPool::DeflateQplJobHWPool()]. *)
Definition constructor : M unit :=
  modify (set_hw_jobs_buffer (replicate (Z.to_nat MAX_HW_JOB_NUMBER) zero_job)) ;;
  completed <- init_jobs (seq 0 (Z.to_nat MAX_HW_JOB_NUMBER)) ;;
  if completed
  then modify (set_job_pool_ready true) ;;
       log (EvDebug msg_pool_ready)
  else ret tt.

(** The destructor's loop.  [while (!tryLockJob(i));] spins: with no other
    thread to release the lock, a first failed attempt never ends. *)
Fixpoint fini_jobs (indices : list nat) : M unit :=
  match indices with
  | [] => ret tt
  | i :: rest =>
      p <- job_ptr_at (Z.of_nat i) ;;
      match p with
      | Some _ =>
          locked <- tryLockJob (Z.of_nat i) ;;
          if locked
          then log (EvFini qpl_path_hardware) ;;
               unLockJob (Z.of_nat i) ;;
               set_job_ptr_at (Z.of_nat i) None ;;
               fini_jobs rest
          else out_of_fuel
      | None => fini_jobs rest
      end
  end.

(** [DeflateQplJobHWPool::~DeflateQplJobHWPool()]. *)
Definition destructor : M unit :=
  fini_jobs (seq 0 (Z.to_nat MAX_HW_JOB_NUMBER)) ;;
  modify (set_job_pool_ready false).

(** The external job id of a slot, and back. *)
Definition job_id_of_index (index : Z) : Z := to_uint32 (MAX_HW_JOB_NUMBER - index).

Definition index_of_job_id (job_id : Z) : Z := to_uint32 (MAX_HW_JOB_NUMBER - job_id).

(** The [while (!tryLockJob(index))] loop of [acquireJob]: [Some index]
    when the lock was taken, [None] when it gave up.  The body runs at most
    [fuel] times. *)
Fixpoint acquire_loop (fuel : nat) (index retry : Z) : M (option Z) :=
  locked <- tryLockJob index ;;
  if locked then ret (Some index)
  else match fuel with
       | O => out_of_fuel
       | S fuel' =>
           index' <- distribution ;;
           let retry' := to_uint32 (retry + 1) in
           if retry' >? MAX_HW_JOB_NUMBER then ret None
           else acquire_loop fuel' index' retry'
       end.

(** [acquireJob(uint32_t * job_id)]: the job pointer (null as [None]) and
    the value [*job_id] holds afterwards. *)
Definition acquireJob (job_id : Z) : M (option nat * Z) :=
  ready <- isJobPoolReady ;;
  if ready
  then index <- distribution ;;
       got <- acquire_loop (S (Z.to_nat MAX_HW_JOB_NUMBER)) index 0 ;;
       match got with
       | None => ret (None, job_id)
       | Some index =>
           assert (index <? MAX_HW_JOB_NUMBER) ;;
           p <- job_ptr_at index ;;
           ret (p, job_id_of_index index)
       end
  else ret (None, job_id).

(** [releaseJob(uint32_t job_id)].  Modelled from the spec:
    [ReleaseJobObjectGuard] is declared in the missing header; it stores
    [false] into the lock when the scope ends. *)
Definition releaseJob (job_id : Z) : M (option nat) :=
  log (EvReleaseJob job_id) ;;
  ready <- isJobPoolReady ;;
  if ready
  then let index := index_of_job_id job_id in
       assert (index <? MAX_HW_JOB_NUMBER) ;;
       p <- job_ptr_at index ;;
       unLockJob index ;;
       ret p
  else ret None.

End DeflateQplJobHWPool.
End DeflateQplJobHWPool.

(** ** HardwareCodecDeflateQpl *)

Module HardwareCodecDeflateQpl.
Section HardwareCodecDeflateQpl.
Context {hdr : Header} {acc : Accelerator}.

(** The assignments to the job block before a compression. *)
Definition compress_job (job : qpl_job) (source : nat) (source_size : Z)
    (dest : nat) (dest_size : Z) : qpl_job :=
  {| op := qpl_op_compress;
     next_in_ptr := source;
     next_out_ptr := dest;
     available_in := source_size;
     level := qpl_default_level;
     available_out := dest_size;
     flags := [QPL_FLAG_FIRST; QPL_FLAG_DYNAMIC_HUFFMAN; QPL_FLAG_LAST;
               QPL_FLAG_OMIT_VERIFY];
     total_out := total_out job;
     job_state := job_state job |}.

(** The assignments to the job block before a decompression. *)
Definition decompress_job (job : qpl_job) (source : nat) (source_size : Z)
    (dest : nat) (uncompressed_size : Z) : qpl_job :=
  {| op := qpl_op_decompress;
     next_in_ptr := source;
     next_out_ptr := dest;
     available_in := source_size;
     available_out := uncompressed_size;
     level := level job;
     flags := [QPL_FLAG_FIRST; QPL_FLAG_LAST];
     total_out := total_out job;
     job_state := job_state job |}.

(** [~HardwareCodecDeflateQpl()]: the loop of the release build. *)
Fixpoint release_all (entries : list (Z * nat)) : M unit :=
  match entries with
  | [] => ret tt
  | it :: rest =>
      DeflateQplJobHWPool.releaseJob (fst it) ;;
      release_all rest
  end.

(** [~HardwareCodecDeflateQpl()]; [ndebug] tells the release build (with
    [NDEBUG]) from the debug build. *)
Definition destructor (ndebug : bool) : M unit :=
  w <- get ;;
  if ndebug
  then match decomp_async_job_map w with
       | [] => ret tt
       | _ :: _ =>
           log (EvWarning msg_unreleased_job) ;;
           release_all (decomp_async_job_map w) ;;
           modify (set_decomp_async_job_map [])
       end
  else assert (bool_decide (decomp_async_job_map w = [])).

(** [doCompressData(source, source_size, dest, dest_size)], an [int32_t]. *)
Definition doCompressData (source : nat) (source_size : Z) (dest : nat)
    (dest_size : Z) : M Z :=
  acquired <- DeflateQplJobHWPool.acquireJob 0 ;;
  let job_id := snd acquired in
  match fst acquired with
  | None =>
      log (EvWarning msg_compress_acquire_failed) ;;
      ret RET_ERROR
  | Some job_ptr =>
      job <- Qpl.read_hw_job job_ptr ;;
      Qpl.write_hw_job job_ptr (compress_job job source source_size dest dest_size) ;;
      status <- Qpl.qpl_execute_job_hw job_ptr ;;
      compressed_size <-
        (if status_is_ok status
         then job' <- Qpl.read_hw_job job_ptr ;; ret (total_out job')
         else log (EvWarning (msg_compress_execute_failed status)) ;; ret 0) ;;
      DeflateQplJobHWPool.releaseJob job_id ;;
      ret (to_int32 compressed_size)
  end.

(** [doDecompressDataAsynchronous(source, source_size, dest,
    uncompressed_size)], an [int32_t]. *)
Definition doDecompressDataAsynchronous (source : nat) (source_size : Z)
    (dest : nat) (uncompressed_size : Z) : M Z :=
  acquired <- DeflateQplJobHWPool.acquireJob 0 ;;
  let job_id := snd acquired in
  match fst acquired with
  | None =>
      log (EvWarning msg_decompress_acquire_failed) ;;
      ret RET_ERROR
  | Some job_ptr =>
      job <- Qpl.read_hw_job job_ptr ;;
      Qpl.write_hw_job job_ptr
        (decompress_job job source source_size dest uncompressed_size) ;;
      status <- Qpl.qpl_submit_job job_ptr ;;
      if status_is_ok status
      then modify (fun w => set_decomp_async_job_map
                              (StdMap.insert job_id job_ptr (decomp_async_job_map w)) w) ;;
           ret (to_int32 job_id)
      else DeflateQplJobHWPool.releaseJob job_id ;;
           log (EvWarning (msg_decompress_submit_failed status)) ;;
           ret RET_ERROR
  end.

(** [if (it == decomp_async_job_map.end())]: back to [begin()] after a
    pause.  An iterator is a position in the ascending entries. *)
Definition wrap_iterator (it : nat) : M nat :=
  w <- get ;;
  if (it =? length (decomp_async_job_map w))%nat
  then log EvPause ;; ret 0%nat
  else ret it.

(** The [while (n_jobs_processing)] loop of
    [flushAsynchronousDecompressRequests]; the body runs at most [fuel]
    times. *)
Fixpoint flush_loop (fuel : nat) (n_jobs_processing : Z) (it : nat) : M unit :=
  if n_jobs_processing =? 0 then ret tt
  else match fuel with
       | O => out_of_fuel
       | S fuel' =>
           w <- get ;;
           match decomp_async_job_map w !! it with
           | None => undefined
           | Some (job_id, job_ptr) =>
               status <- Qpl.qpl_check_job job_ptr ;;
               if status_is_being_processed status
               then it' <- wrap_iterator (S it) ;;
                    flush_loop fuel' n_jobs_processing it'
               else DeflateQplJobHWPool.releaseJob job_id ;;
                    modify (fun w => set_decomp_async_job_map
                                       (delete it (decomp_async_job_map w)) w) ;;
                    let n_jobs_processing' := to_uint32 (n_jobs_processing - 1) in
                    if n_jobs_processing' <=? 0 then ret tt
                    else it' <- wrap_iterator it ;;
                         flush_loop fuel' n_jobs_processing' it'
           end
       end.

(** [flushAsynchronousDecompressRequests()]. *)
Definition flushAsynchronousDecompressRequests (fuel : nat) : M unit :=
  w <- get ;;
  flush_loop fuel (to_uint32 (Z.of_nat (length (decomp_async_job_map w)))) 0%nat.

End HardwareCodecDeflateQpl.
End HardwareCodecDeflateQpl.

(** ** SoftwareCodecDeflateQpl *)

Module SoftwareCodecDeflateQpl.
Section SoftwareCodecDeflateQpl.
Context {hdr : Header} {acc : Accelerator}.

(** [getJobCodecPtr()]: [sw_job] is set before [qpl_init_job] is called, so
    it stays set when the initialisation throws. *)
Definition getJobCodecPtr : M unit :=
  w <- get ;;
  match sw_job w with
  | None =>
      modify (set_sw_job (Some zero_job)) ;;
      log (EvInit qpl_path_software) ;;
      if status_is_ok (qpl_init_status qpl_path_software 0)
      then ret tt
      else throw CANNOT_COMPRESS
  | Some _ => ret tt
  end.

(** [job_ptr->field = ...] on the software job. *)
Definition update_sw_job (f : qpl_job -> qpl_job) : M unit :=
  w <- get ;;
  match sw_job w with
  | None => undefined
  | Some job => modify (set_sw_job (Some (f job)))
  end.

Definition read_sw_job : M qpl_job :=
  w <- get ;;
  match sw_job w with
  | None => undefined
  | Some job => ret job
  end.

(** [doCompressData(source, source_size, dest, dest_size)], a [uint32_t]. *)
Definition doCompressData (source : nat) (source_size : Z) (dest : nat)
    (dest_size : Z) : M Z :=
  getJobCodecPtr ;;
  update_sw_job (fun job =>
    HardwareCodecDeflateQpl.compress_job job source source_size dest dest_size) ;;
  status <- Qpl.qpl_execute_job_sw ;;
  if status_is_ok status
  then job <- read_sw_job ;; ret (total_out job)
  else throw CANNOT_COMPRESS.

(** [doDecompressData(source, source_size, dest, uncompressed_size)]. *)
Definition doDecompressData (source : nat) (source_size : Z) (dest : nat)
    (uncompressed_size : Z) : M unit :=
  getJobCodecPtr ;;
  update_sw_job (fun job =>
    HardwareCodecDeflateQpl.decompress_job job source source_size dest
      uncompressed_size) ;;
  status <- Qpl.qpl_execute_job_sw ;;
  if status_is_ok status
  then ret tt
  else throw CANNOT_DECOMPRESS.

(** [~SoftwareCodecDeflateQpl()]. *)
Definition destructor : M unit :=
  w <- get ;;
  match sw_job w with
  | Some _ => log (EvFini qpl_path_software)
  | None => ret tt
  end.

End SoftwareCodecDeflateQpl.
End SoftwareCodecDeflateQpl.

(** ** CompressionCodecDeflateQpl *)

Module CompressionCodecDeflateQpl.
Section CompressionCodecDeflateQpl.
Context {hdr : Header} {acc : Accelerator}.

(** [getDecompressMode()] and [setDecompressMode(mode)].  Modelled from the
    spec: both are declared in the missing header; the spec has them read
    and write the decompression mode of the codec. *)
Definition getDecompressMode : M CodecMode := w <- get ;; ret (decompress_mode w).

Definition setDecompressMode (mode : CodecMode) : M unit :=
  modify (set_decompress_mode mode).

(** [doCompressData(source, source_size, dest)], a [uint32_t]; [res] is an
    [int32_t]. *)
Definition doCompressData (source : nat) (source_size : Z) (dest : nat) : M Z :=
  ready <- DeflateQplJobHWPool.isJobPoolReady ;;
  res <- (if ready
          then HardwareCodecDeflateQpl.doCompressData source source_size dest
                 (getMaxCompressedDataSize source_size)
          else ret RET_ERROR) ;;
  res' <- (if res =? RET_ERROR
           then r <- SoftwareCodecDeflateQpl.doCompressData source source_size dest
                       (getMaxCompressedDataSize source_size) ;;
                ret (to_int32 r)
           else ret res) ;;
  ret (to_uint32 res').

(** [doDecompressData(source, source_size, dest, uncompressed_size)];
    [fuel] bounds the drain loop. *)
Definition doDecompressData (fuel : nat) (source : nat) (source_size : Z)
    (dest : nat) (uncompressed_size : Z) : M unit :=
  mode <- getDecompressMode ;;
  match mode with
  | Synchronous =>
      ready <- DeflateQplJobHWPool.isJobPoolReady ;;
      if ready
      then res <- HardwareCodecDeflateQpl.doDecompressDataAsynchronous source
                    source_size dest uncompressed_size ;;
           if negb (res =? RET_ERROR)
           then HardwareCodecDeflateQpl.flushAsynchronousDecompressRequests fuel
           else SoftwareCodecDeflateQpl.doDecompressData source source_size dest
                  uncompressed_size
      else SoftwareCodecDeflateQpl.doDecompressData source source_size dest
             uncompressed_size
  | Asynchronous =>
      ready <- DeflateQplJobHWPool.isJobPoolReady ;;
      res <- (if ready
              then HardwareCodecDeflateQpl.doDecompressDataAsynchronous source
                     source_size dest uncompressed_size
              else ret RET_ERROR) ;;
      if res =? RET_ERROR
      then SoftwareCodecDeflateQpl.doDecompressData source source_size dest
             uncompressed_size
      else ret tt
  | SoftwareFallback =>
      SoftwareCodecDeflateQpl.doDecompressData source source_size dest
        uncompressed_size
  end.

(** [flushAsynchronousDecompressRequests()]. *)
Definition flushAsynchronousDecompressRequests (fuel : nat) : M unit :=
  ready <- DeflateQplJobHWPool.isJobPoolReady ;;
  (if ready
   then HardwareCodecDeflateQpl.flushAsynchronousDecompressRequests fuel
   else ret tt) ;;
  setDecompressMode Synchronous.

End CompressionCodecDeflateQpl.
End CompressionCodecDeflateQpl.

(** ** Reading the log *)

(** The events of a trace that are calls of [releaseJob], as job ids. *)
Fixpoint released_ids (events : list Event) : list Z :=
  match events with
  | [] => []
  | EvReleaseJob job_id :: rest => job_id :: released_ids rest
  | _ :: rest => released_ids rest
  end.

(** The number of failed lock attempts in a trace. *)
Fixpoint failed_attempts (events : list Event) : nat :=
  match events with
  | [] => 0
  | EvTryLock _ false :: rest => S (failed_attempts rest)
  | _ :: rest => failed_attempts rest
  end.

(** The events of a trace that are calls into the library on a path. *)
Definition on_path (path : qpl_path) (e : Event) : bool :=
  match e with
  | EvInit p | EvFini p | EvExecute p =>
      match p, path with
      | qpl_path_hardware, qpl_path_hardware
      | qpl_path_software, qpl_path_software => true
      | _, _ => false
      end
  | EvSubmit _ | EvCheck _ =>
      match path with qpl_path_hardware => true | _ => false end
  | _ => false
  end.

(** The calls of [qpl_init_job] and of [qpl_fini_job] on a path, and the
    polls. *)
Definition same_path (p q : qpl_path) : bool :=
  match p, q with
  | qpl_path_hardware, qpl_path_hardware
  | qpl_path_software, qpl_path_software => true
  | _, _ => false
  end.

Definition is_init (path : qpl_path) (e : Event) : bool :=
  match e with EvInit p => same_path p path | _ => false end.

Definition is_fini (path : qpl_path) (e : Event) : bool :=
  match e with EvFini p => same_path p path | _ => false end.

Definition is_check (e : Event) : bool :=
  match e with EvCheck _ => true | _ => false end.

(** How many events of a trace [f] recognises. *)
Fixpoint count_events (f : Event -> bool) (events : list Event) : nat :=
  match events with
  | [] => 0
  | e :: rest => if f e then S (count_events f rest) else count_events f rest
  end.

(** ** What the software codec does, in closed form *)

(** The job block [getJobCodecPtr] hands out: the one there is, or a fresh
    one. *)
Definition sw_job_block (w : World) : qpl_job := default zero_job (sw_job w).

(** [getJobCodecPtr] returns: there is a job block already, or the
    initialisation of the fresh one succeeds. *)
Definition sw_job_available {acc : Accelerator} (w : World) : bool :=
  match sw_job w with
  | Some _ => true
  | None => status_is_ok (qpl_init_status qpl_path_software 0)
  end.

(** The world after [getJobCodecPtr]. *)
Definition after_getJobCodecPtr (w : World) : World :=
  match sw_job w with
  | Some _ => w
  | None => set_trace (EvInit qpl_path_software :: trace w)
              (set_sw_job (Some zero_job) w)
  end.

(** The world after the software job [job] has been configured and
    executed. *)
Definition after_sw_execute {acc : Accelerator} (job : qpl_job) (w : World) : World :=
  set_sw_job
    (Some (Qpl.completed_job job (snd (Qpl.job_result qpl_path_software job w))))
    (set_mem (Qpl.mem_after job (snd (Qpl.job_result qpl_path_software job w)) w)
       (set_trace (EvExecute qpl_path_software :: trace w) w)).

(** ** Predicates of the statements *)

(** The pool arrays have their [MAX_HW_JOB_NUMBER] entries and, when the
    pool is ready, every slot points to its own job block: the state the
    constructor leaves. *)
Definition pool_wf {hdr : Header} (w : World) : Prop :=
  length (hw_job_ptr_locks w) = Z.to_nat MAX_HW_JOB_NUMBER /\
  length (hw_job_ptr_pool w) = Z.to_nat MAX_HW_JOB_NUMBER /\
  length (hw_jobs_buffer w) = Z.to_nat MAX_HW_JOB_NUMBER /\
  (job_pool_ready w = true ->
   forall i : nat, (i < Z.to_nat MAX_HW_JOB_NUMBER)%nat ->
     hw_job_ptr_pool w !! i = Some (Some i)).

(** Everything but the locks, the random engine and the trace is the
    same in both worlds. *)
Definition pool_frame (w w' : World) : Prop :=
  hw_job_ptr_pool w' = hw_job_ptr_pool w /\
  job_pool_ready w' = job_pool_ready w /\
  hw_jobs_buffer w' = hw_jobs_buffer w /\
  decomp_async_job_map w' = decomp_async_job_map w /\
  sw_job w' = sw_job w /\
  decompress_mode w' = decompress_mode w /\
  mem w' = mem w.

(** The shape of the pool is the same in both worlds: the job pointers,
    the readiness flag and the sizes of the arrays. *)
Definition pool_shape (w w' : World) : Prop :=
  hw_job_ptr_pool w' = hw_job_ptr_pool w /\
  job_pool_ready w' = job_pool_ready w /\
  length (hw_job_ptr_locks w') = length (hw_job_ptr_locks w) /\
  length (hw_jobs_buffer w') = length (hw_jobs_buffer w).

(** Invariant I3 on the in-flight map: its keys are ascending, and every
    entry names a slot of the pool by its external id, a slot whose lock is
    held. *)
Definition in_flight_held {hdr : Header} (w : World) : Prop :=
  StdMap.ok (decomp_async_job_map w) /\
  forall id ptr, (id, ptr) ∈ decomp_async_job_map w ->
    1 <= id <= MAX_HW_JOB_NUMBER /\
    hw_job_ptr_locks w !! Z.to_nat (MAX_HW_JOB_NUMBER - id) = Some true.

(** Every entry of the in-flight map names a slot of the pool by its
    external id and points into the buffer of job blocks. *)
Definition in_flight_valid {hdr : Header} (w : World) : Prop :=
  forall id ptr, (id, ptr) ∈ decomp_async_job_map w ->
    1 <= id <= MAX_HW_JOB_NUMBER /\ (ptr < length (hw_jobs_buffer w))%nat.

(** The job on block [ptr], if one is submitted, answers a status other
    than [QPL_STS_BEING_PROCESSED] at the latest [b] polls from now. *)
Definition reports_within {acc : Accelerator} (w : World) (ptr b : nat) : Prop :=
  forall job polls,
    hw_jobs_buffer w !! ptr = Some job ->
    job_state job = job_submitted polls ->
    qpl_busy ptr (polls + b) = false.

(** The job on block [ptr] eventually reports a status other than
    [QPL_STS_BEING_PROCESSED] when polled. *)
Definition eventually_reports {acc : Accelerator} (w : World) (ptr : nat) : Prop :=
  exists b, reports_within w ptr b.

(** A bound on the polls a drain makes: one more than the bound [B ptr] on
    the busy polls of each entry's job. *)
Definition drain_measure (B : nat -> nat) (m : list (Z * nat)) : nat :=
  sum_list (map (fun e => S (B (snd e))) m).

(** What a drain that started in [w] and released the ids [ids] has done
    when it ends in [w']: the map is empty; the calls of [releaseJob] it
    made are [ids]; the pool keeps its shape and the other members are
    untouched; the locks of the slots it did not release are as they were;
    and, on a ready pool, the locks of the slots it released are free. *)
Definition drained {hdr : Header} (w w' : World) (ids : list Z) : Prop :=
  decomp_async_job_map w' = [] /\
  released_ids (trace w') = ids ++ released_ids (trace w) /\
  pool_shape w w' /\
  sw_job w' = sw_job w /\
  decompress_mode w' = decompress_mode w /\
  (forall j : nat,
     (forall id, id ∈ ids -> Z.to_nat (MAX_HW_JOB_NUMBER - id) <> j) ->
     hw_job_ptr_locks w' !! j = hw_job_ptr_locks w !! j) /\
  (job_pool_ready w = true ->
   forall id, id ∈ ids ->
     hw_job_ptr_locks w' !! Z.to_nat (MAX_HW_JOB_NUMBER - id) = Some false).

(** The lock of slot [index]. *)
Definition lock_at (w : World) (index : Z) : option bool :=
  if 0 <=? index then hw_job_ptr_locks w !! Z.to_nat index else None.

(** The slot the [k]-th next sample of the random engine names. *)
Definition drawn_index {hdr : Header} {acc : Accelerator} (w : World) (k : nat) : Z :=
  random_engine_output (random_engine w + k)%nat mod MAX_HW_JOB_NUMBER.

(** ** Synchronous execution, as the spec words it *)

Module Spec.
Section Spec.
Context {hdr : Header} {acc : Accelerator}.




End Spec.
End Spec.




(** The software job has been initialised: there is a job block, and the
    [qpl_init_job] made on it when it was allocated, the one place where
    [sw_job] is set, answered OK. *)
Definition sw_job_initialised {acc : Accelerator} (w : World) : Prop :=
  sw_job w <> None /\
  status_is_ok (qpl_init_status qpl_path_software 0) = true.

(** ** The operations *)

(** The operations of the four classes on a pool that has been
    constructed: the public methods and the destructors.  (The constructor
    of the pool runs once, before any of them.) *)
Inductive Operation :=
| op_acquireJob (job_id : Z)
| op_releaseJob (job_id : Z)
| op_pool_destructor
| op_hw_doCompressData (source : nat) (source_size : Z) (dest : nat) (dest_size : Z)
| op_hw_doDecompressDataAsynchronous (source : nat) (source_size : Z) (dest : nat)
    (uncompressed_size : Z)
| op_hw_flushAsynchronousDecompressRequests (fuel : nat)
| op_hw_destructor (ndebug : bool)
| op_sw_doCompressData (source : nat) (source_size : Z) (dest : nat) (dest_size : Z)
| op_sw_doDecompressData (source : nat) (source_size : Z) (dest : nat)
    (uncompressed_size : Z)
| op_doCompressData (source : nat) (source_size : Z) (dest : nat)
| op_doDecompressData (fuel : nat) (source : nat) (source_size : Z) (dest : nat)
    (uncompressed_size : Z)
| op_flushAsynchronousDecompressRequests (fuel : nat)
| op_setDecompressMode (mode : CodecMode).

Section Operations.
Context {hdr : Header} {acc : Accelerator}.

(** An operation run for its effect on the world. *)
Definition run_operation (o : Operation) : M unit :=
  match o with
  | op_acquireJob job_id =>
      DeflateQplJobHWPool.acquireJob job_id ;; ret tt
  | op_releaseJob job_id =>
      DeflateQplJobHWPool.releaseJob job_id ;; ret tt
  | op_pool_destructor => DeflateQplJobHWPool.destructor
  | op_hw_doCompressData source source_size dest dest_size =>
      HardwareCodecDeflateQpl.doCompressData source source_size dest dest_size ;;
      ret tt
  | op_hw_doDecompressDataAsynchronous source source_size dest uncompressed_size =>
      HardwareCodecDeflateQpl.doDecompressDataAsynchronous source source_size dest
        uncompressed_size ;;
      ret tt
  | op_hw_flushAsynchronousDecompressRequests fuel =>
      HardwareCodecDeflateQpl.flushAsynchronousDecompressRequests fuel
  | op_hw_destructor ndebug => HardwareCodecDeflateQpl.destructor ndebug
  | op_sw_doCompressData source source_size dest dest_size =>
      SoftwareCodecDeflateQpl.doCompressData source source_size dest dest_size ;;
      ret tt
  | op_sw_doDecompressData source source_size dest uncompressed_size =>
      SoftwareCodecDeflateQpl.doDecompressData source source_size dest
        uncompressed_size
  | op_doCompressData source source_size dest =>
      CompressionCodecDeflateQpl.doCompressData source source_size dest ;; ret tt
  | op_doDecompressData fuel source source_size dest uncompressed_size =>
      CompressionCodecDeflateQpl.doDecompressData fuel source source_size dest
        uncompressed_size
  | op_flushAsynchronousDecompressRequests fuel =>
      CompressionCodecDeflateQpl.flushAsynchronousDecompressRequests fuel
  | op_setDecompressMode mode => CompressionCodecDeflateQpl.setDecompressMode mode
  end.

(** The caller of [releaseJob] passes a [uint32_t], and not the id of a
    job that is still in the in-flight map: the map's own entries are
    released by the drain and by the destructor of the codec. *)
Definition releases_own_slot (o : Operation) (w : World) : Prop :=
  match o with
  | op_releaseJob job_id =>
      is_uint32 job_id /\ forall ptr, (job_id, ptr) ∉ decomp_async_job_map w
  | _ => True
  end.

End Operations.

(** A call keeps the property [I] of the world. *)
Definition preserves {A} (I : World -> Prop) (m : M A) : Prop :=
  forall w, I w ->
    match m w with
    | Ret _ w' | Throw _ w' => I w'
    | _ => True
    end.

(** The pool is not ready. *)
Definition not_ready (w : World) : Prop := job_pool_ready w = false.

(** From [w] to [w'] a held lock stays held unless [releaseJob] was called
    with the id of its slot: [ids] are the calls made in between. *)
Definition locks_kept {hdr : Header} (w w' : World) : Prop :=
  exists ids,
    released_ids (trace w') = ids ++ released_ids (trace w) /\
    forall j : nat,
      hw_job_ptr_locks w !! j = Some true ->
      hw_job_ptr_locks w' !! j = Some true \/
      exists id, id ∈ ids /\ Z.to_nat (DeflateQplJobHWPool.index_of_job_id id) = j.

(** A call is safe: from a well-formed pool on which invariant I3 holds it
    ends in such a pool again, and it clears no lock but by [releaseJob]. *)
Definition safe {hdr : Header} {A} (m : M A) : Prop :=
  forall w, pool_wf w -> in_flight_held w ->
    match m w with
    | Ret _ w' | Throw _ w' => pool_wf w' /\ in_flight_held w' /\ locks_kept w w'
    | _ => True
    end.

(** Every held lock belongs to a job in flight: the converse of
    invariant I3. *)
Definition slots_accounted {hdr : Header} (w : World) : Prop :=
  forall j : nat,
    hw_job_ptr_locks w !! j = Some true ->
    exists id ptr,
      (id, ptr) ∈ decomp_async_job_map w /\ Z.to_nat (MAX_HW_JOB_NUMBER - id) = j.

(** Between the calls of a codec the held locks are those of the jobs in
    flight, no more and no less. *)
Definition codec_invariant {hdr : Header} (w : World) : Prop :=
  pool_wf w /\ in_flight_held w /\ slots_accounted w.

(** The operations of the dispatching codec, [CompressionCodecDeflateQpl]. *)
Definition dispatch_operation (o : Operation) : bool :=
  match o with
  | op_doCompressData _ _ _
  | op_doDecompressData _ _ _ _ _
  | op_flushAsynchronousDecompressRequests _
  | op_setDecompressMode _ => true
  | _ => false
  end.

(** ** Concrete instances *)

(** The default configuration: 1024 slots; [-1] for the sentinel. *)
Definition default_header : Header :=
  {| MAX_HW_JOB_NUMBER := 1024;
     RET_ERROR := -1;
     MAX_HW_JOB_NUMBER_range := ltac:(lia);
     RET_ERROR_range := ltac:(lia) |}.

(** The same pool with [0] for the sentinel. *)
Definition zero_sentinel_header : Header :=
  {| MAX_HW_JOB_NUMBER := 1024;
     RET_ERROR := 0;
     MAX_HW_JOB_NUMBER_range := ltac:(lia);
     RET_ERROR_range := ltac:(lia) |}.

(** An accelerator that copies its input, accepts every submission, keeps
    a submitted job busy for two polls and draws slot 0 every time. *)
Definition copy_accelerator : Accelerator :=
  {| qpl_init_status := fun _ _ => QPL_STS_OK;
     qpl_run := fun _ _ input => (qpl_completed, input);
     qpl_submit_status := fun _ _ => QPL_STS_OK;
     qpl_busy := fun _ k => (k <? 2)%nat;
     random_engine_output := fun _ => 0 |}.

(** The same, with a hardware path whose jobs end in error 221 and whose
    submissions are refused, and a software path that works. *)
Definition failing_hw_accelerator : Accelerator :=
  {| qpl_init_status := fun _ _ => QPL_STS_OK;
     qpl_run := fun path _ input =>
       match path with
       | qpl_path_hardware => (qpl_failed 221, [])
       | qpl_path_software => (qpl_completed, input)
       end;
     qpl_submit_status := fun _ _ => QPL_STS_ERR 221;
     qpl_busy := fun _ k => (k <? 2)%nat;
     random_engine_output := fun _ => 0 |}.

(** An accelerator whose initialisation fails: on hardware at slot 3, on
    software always; jobs run on the software path end in error 7. *)
Definition failing_init_accelerator : Accelerator :=
  {| qpl_init_status := fun path i =>
       match path with
       | qpl_path_hardware => if (i =? 3)%nat then QPL_STS_ERR 5 else QPL_STS_OK
       | qpl_path_software => QPL_STS_ERR 5
       end;
     qpl_run := fun _ _ input => (qpl_failed 7, []);
     qpl_submit_status := fun _ _ => QPL_STS_OK;
     qpl_busy := fun _ k => (k <? 2)%nat;
     random_engine_output := fun _ => 0 |}.

(** A random engine that draws slot 1 for its first 1024 samples and slot 0
    afterwards. *)
Definition late_hit_accelerator : Accelerator :=
  {| qpl_init_status := fun _ _ => QPL_STS_OK;
     qpl_run := fun _ _ input => (qpl_completed, input);
     qpl_submit_status := fun _ _ => QPL_STS_OK;
     qpl_busy := fun _ k => (k <? 2)%nat;
     random_engine_output := fun k => if (k <? 1024)%nat then 1 else 0 |}.

(** A world with a ready pool of 1024 free slots, no job in flight, three
    bytes in buffer 0 and an empty buffer 1. *)
Definition ready_world : World :=
  {| hw_job_ptr_pool := map Some (seq 0 1024);
     hw_job_ptr_locks := replicate 1024 false;
     job_pool_ready := true;
     hw_jobs_buffer := replicate 1024 zero_job;
     random_engine := 0;
     decomp_async_job_map := [];
     sw_job := None;
     decompress_mode := Synchronous;
     mem := {[ 0%nat := [Byte.x41; Byte.x42; Byte.x43]; 1%nat := [] ]};
     trace := [] |}.

(** The same pool with every slot held except slot 0. *)
Definition crowded_world : World :=
  set_hw_job_ptr_locks (false :: replicate 1023 true) ready_world.

(** The same pool with every slot held. *)
Definition exhausted_world : World :=
  set_hw_job_ptr_locks (replicate 1024 true) ready_world.

(** The pool after a failed construction. *)
Definition unready_world : World := set_job_pool_ready false ready_world.

(** A world with the jobs of slots 1023 and 1021 (ids 1 and 3) in flight. *)
Definition in_flight_world : World :=
  set_hw_jobs_buffer
    (<[1023%nat := mk_qpl_job qpl_op_decompress 0 1 3 3 qpl_other_level
                     [QPL_FLAG_FIRST; QPL_FLAG_LAST] 0 (job_submitted 0)]>
       (<[1021%nat := mk_qpl_job qpl_op_decompress 0 1 3 3 qpl_other_level
                        [QPL_FLAG_FIRST; QPL_FLAG_LAST] 0 (job_submitted 1)]>
          (replicate 1024 zero_job)))
    (set_hw_job_ptr_locks
       (<[1023%nat := true]> (<[1021%nat := true]> (replicate 1024 false)))
       (set_decomp_async_job_map [(1, 1023%nat); (3, 1021%nat)] ready_world)).

(** A random engine that draws the slots one after the other. *)
Definition round_robin_accelerator : Accelerator :=
  {| qpl_init_status := fun _ _ => QPL_STS_OK;
     qpl_run := fun _ _ input => (qpl_completed, input);
     qpl_submit_status := fun _ _ => QPL_STS_OK;
     qpl_busy := fun _ k => (k <? 2)%nat;
     random_engine_output := fun k => Z.of_nat k |}.

(** The ready pool with the codec in the [Asynchronous] mode. *)
Definition asynchronous_world : World :=
  set_decompress_mode Asynchronous ready_world.


(** * Properties *)

(** ** The size bound *)

Lemma to_uint32_small z : 0 <= z < 2 ^ 32 -> to_uint32 z = z.
Proof. intros Hz. unfold to_uint32. apply Z.mod_small. exact Hz. Qed.

Lemma to_int32_small z : - 2 ^ 31 <= z < 2 ^ 31 -> to_int32 z = z.
Proof. intros Hz. unfold to_int32. rewrite Z.mod_small; lia. Qed.

Lemma to_uint32_to_int32 z : to_uint32 (to_int32 z) = to_uint32 z.
Proof.
  unfold to_uint32, to_int32.
  rewrite <- Zminus_mod_idemp_l, Z.mod_mod by lia.
  rewrite Zminus_mod_idemp_l. f_equal. lia.
Qed.

(** C3, as the code has it: the quotients are right shifts, which round
    down, and the sum is a 32-bit unsigned one. *)
Theorem getMaxCompressedDataSize_floor (n : Z) :
  0 <= n < 2 ^ 32 ->
  getMaxCompressedDataSize n
  = (n + n / 4096 + n / 16384 + n / 33554432 + 13) mod 2 ^ 32.
Proof.
  intros _. unfold getMaxCompressedDataSize, to_uint32.
  rewrite !Z.shiftr_div_pow2 by lia. reflexivity.
Qed.

Lemma getMaxCompressedDataSize_floor_witness :
  0 <= 1 < 2 ^ 32 /\
  getMaxCompressedDataSize 1
  = (1 + 1 / 4096 + 1 / 16384 + 1 / 33554432 + 13) mod 2 ^ 32.
Proof. split; [lia | apply (getMaxCompressedDataSize_floor 1); lia]. Defined.

(** C3 as stated fails at [n = 1]: the code answers 14, the ceiling of the
    exact sum is 15. *)
Lemma getMaxCompressedDataSize_not_ceiling :
  ~ (forall n : Z, 0 <= n < 2 ^ 32 ->
       getMaxCompressedDataSize n = spec_max_compressed_size n).
Proof.
  intros Hall. specialize (Hall 1 ltac:(lia)).
  vm_compute in Hall. discriminate Hall.
Qed.

(** ** The monad *)

Ltac unfold_m :=
  cbv beta iota delta
    [bind ret get modify log assert throw undefined out_of_fuel] in *.

Ltac msimpl :=
  cbn [bind ret get modify log assert throw undefined out_of_fuel
       hw_job_ptr_pool hw_job_ptr_locks job_pool_ready hw_jobs_buffer
       random_engine decomp_async_job_map sw_job decompress_mode mem trace
       set_hw_job_ptr_pool set_hw_job_ptr_locks set_job_pool_ready
       set_hw_jobs_buffer set_random_engine set_decomp_async_job_map
       set_sw_job set_decompress_mode set_mem set_trace fst snd].

Tactic Notation "msimpl" "in" hyp(H) :=
  cbn [bind ret get modify log assert throw undefined out_of_fuel
       hw_job_ptr_pool hw_job_ptr_locks job_pool_ready hw_jobs_buffer
       random_engine decomp_async_job_map sw_job decompress_mode mem trace
       set_hw_job_ptr_pool set_hw_job_ptr_locks set_job_pool_ready
       set_hw_jobs_buffer set_random_engine set_decomp_async_job_map
       set_sw_job set_decompress_mode set_mem set_trace fst snd] in H.

Lemma bind_eq {A B} (m : M A) (k : A -> M B) w :
  bind m k w =
  match m w with
  | Ret a w' => k a w'
  | Throw code w' => Throw code w'
  | Undefined => Undefined
  | OutOfFuel => OutOfFuel
  end.
Proof. reflexivity. Qed.

Ltac mstep := repeat first [rewrite bind_eq | progress msimpl].

(** ** The pool *)

Section Pool.
Context {hdr : Header} {acc : Accelerator}.

Lemma tryLockJob_spec index w :
  DeflateQplJobHWPool.tryLockJob index w =
  if DeflateQplJobHWPool.index_in_range index
  then match hw_job_ptr_locks w !! Z.to_nat index with
       | None => Undefined
       | Some false =>
           Ret true (set_trace (EvTryLock index true :: trace w)
                       (set_hw_job_ptr_locks
                          (<[Z.to_nat index := true]> (hw_job_ptr_locks w)) w))
       | Some true => Ret false (set_trace (EvTryLock index false :: trace w) w)
       end
  else Undefined.
Proof.
  unfold DeflateQplJobHWPool.tryLockJob. unfold_m.
  destruct (DeflateQplJobHWPool.index_in_range index); [|reflexivity].
  destruct (hw_job_ptr_locks w !! Z.to_nat index) as [[|]|]; reflexivity.
Qed.

Lemma index_in_range_true index :
  DeflateQplJobHWPool.index_in_range index = true <-> 0 <= index < MAX_HW_JOB_NUMBER.
Proof. unfold DeflateQplJobHWPool.index_in_range. lia. Qed.

Lemma unLockJob_spec index w :
  0 <= index -> (Z.to_nat index < length (hw_job_ptr_locks w))%nat ->
  DeflateQplJobHWPool.unLockJob index w =
  Ret tt (set_trace (EvUnlock index :: trace w)
            (set_hw_job_ptr_locks
               (<[Z.to_nat index := false]> (hw_job_ptr_locks w)) w)).
Proof.
  intros H0 Hlen. unfold DeflateQplJobHWPool.unLockJob. unfold_m.
  rewrite (proj2 (Z.leb_le 0 index) H0), bool_decide_eq_true_2 by exact Hlen.
  reflexivity.
Qed.

Lemma job_ptr_at_spec index w p :
  0 <= index -> hw_job_ptr_pool w !! Z.to_nat index = Some p ->
  DeflateQplJobHWPool.job_ptr_at index w = Ret p w.
Proof.
  intros H0 Hp. unfold DeflateQplJobHWPool.job_ptr_at. unfold_m.
  rewrite (proj2 (Z.leb_le 0 index) H0), Hp. reflexivity.
Qed.

Lemma distribution_spec w :
  DeflateQplJobHWPool.distribution w =
  Ret (drawn_index w 0) (set_random_engine (S (random_engine w)) w).
Proof.
  unfold DeflateQplJobHWPool.distribution, drawn_index. unfold_m.
  rewrite Nat.add_0_r. reflexivity.
Qed.

Lemma drawn_index_range w k : 0 <= drawn_index w k < MAX_HW_JOB_NUMBER.
Proof.
  unfold drawn_index. apply Z.mod_pos_bound. apply MAX_HW_JOB_NUMBER_range.
Qed.

Lemma lookup_lock_in_range (w : World) index :
  length (hw_job_ptr_locks w) = Z.to_nat MAX_HW_JOB_NUMBER ->
  0 <= index < MAX_HW_JOB_NUMBER ->
  exists b, hw_job_ptr_locks w !! Z.to_nat index = Some b.
Proof.
  intros Hlen Hidx.
  destruct (hw_job_ptr_locks w !! Z.to_nat index) as [b|] eqn:E; [eauto|].
  apply lookup_ge_None in E. lia.
Qed.

Lemma pool_frame_refl w : pool_frame w w.
Proof. unfold pool_frame. tauto. Qed.

Lemma pool_frame_trans w1 w2 w3 :
  pool_frame w1 w2 -> pool_frame w2 w3 -> pool_frame w1 w3.
Proof. unfold pool_frame. intuition congruence. Qed.

(** What the retry loop does: it either takes a lock that was free, after
    at most [MAX_HW_JOB_NUMBER - retry] failed attempts, or gives up after
    exactly [MAX_HW_JOB_NUMBER + 1 - retry] failed attempts; it never runs
    out of the fuel [acquireJob] gives it. *)
Lemma acquire_loop_outcome fuel : forall index retry w,
  length (hw_job_ptr_locks w) = Z.to_nat MAX_HW_JOB_NUMBER ->
  0 <= index < MAX_HW_JOB_NUMBER ->
  0 <= retry <= MAX_HW_JOB_NUMBER ->
  MAX_HW_JOB_NUMBER + 1 - retry <= Z.of_nat fuel ->
  match DeflateQplJobHWPool.acquire_loop fuel index retry w with
  | Ret (Some i) w' =>
      0 <= i < MAX_HW_JOB_NUMBER /\
      hw_job_ptr_locks w !! Z.to_nat i = Some false /\
      hw_job_ptr_locks w' = <[Z.to_nat i := true]> (hw_job_ptr_locks w) /\
      pool_frame w w' /\
      Z.of_nat (failed_attempts (trace w')) + retry
      <= Z.of_nat (failed_attempts (trace w)) + MAX_HW_JOB_NUMBER /\
      released_ids (trace w') = released_ids (trace w)
  | Ret None w' =>
      hw_job_ptr_locks w' = hw_job_ptr_locks w /\
      pool_frame w w' /\
      Z.of_nat (failed_attempts (trace w'))
      = Z.of_nat (failed_attempts (trace w)) + (MAX_HW_JOB_NUMBER + 1 - retry) /\
      released_ids (trace w') = released_ids (trace w)
  | _ => False
  end.
Proof.
  pose proof MAX_HW_JOB_NUMBER_range as HN.
  induction fuel as [|fuel IH]; intros index retry w Hlen Hidx Hretry Hfuel.
  - lia.
  - cbn [DeflateQplJobHWPool.acquire_loop].
    rewrite bind_eq, tryLockJob_spec.
    rewrite (proj2 (index_in_range_true index) Hidx).
    destruct (lookup_lock_in_range w index Hlen Hidx) as [[|] Hb]; rewrite Hb.
    + (* the lock is held *)
      destruct fuel as [|fuel'].
      * assert (retry = MAX_HW_JOB_NUMBER) as -> by lia.
        cbn [DeflateQplJobHWPool.acquire_loop].
        rewrite bind_eq, distribution_spec.
        rewrite to_uint32_small by lia.
        rewrite (proj2 (Z.gtb_gt _ _)) by lia.
        cbn. repeat split; try reflexivity. lia.
      * rewrite bind_eq, distribution_spec.
        rewrite to_uint32_small by lia.
        destruct (retry + 1 >? MAX_HW_JOB_NUMBER) eqn:Hgt.
        -- apply Z.gtb_gt in Hgt. cbn. repeat split; try reflexivity. lia.
        -- assert (retry + 1 <= MAX_HW_JOB_NUMBER) as Hle
             by (destruct (Z.gtb_spec (retry + 1) MAX_HW_JOB_NUMBER); [discriminate|lia]).
           match goal with
           | |- context [DeflateQplJobHWPool.acquire_loop _ ?i ?r ?w1] =>
               specialize (IH i r w1)
           end.
           cbn [hw_job_ptr_locks set_random_engine set_trace] in IH.
           specialize (IH Hlen (drawn_index_range _ _) ltac:(lia) ltac:(lia)).
           destruct (DeflateQplJobHWPool.acquire_loop _ _ _ _) as [[i|] w'| | |];
             try contradiction.
           ++ cbn in IH. destruct IH as (Hi & Hfree & Hlocks & Hframe & Hfail & Hrel).
              repeat split; try assumption; try lia.
              all: try (destruct Hframe as (?&?&?&?&?&?&?); assumption).
           ++ cbn in IH. destruct IH as (Hlocks & Hframe & Hfail & Hrel).
              repeat split; try assumption; try lia.
              all: try (destruct Hframe as (?&?&?&?&?&?&?); assumption).
    + (* the lock is free *)
      cbn. repeat split; try reflexivity; try lia. exact Hb.
Qed.

Lemma job_id_of_index_in_range index :
  0 <= index < MAX_HW_JOB_NUMBER ->
  DeflateQplJobHWPool.job_id_of_index index = MAX_HW_JOB_NUMBER - index.
Proof.
  pose proof MAX_HW_JOB_NUMBER_range as HN. intros Hidx.
  unfold DeflateQplJobHWPool.job_id_of_index. apply to_uint32_small. lia.
Qed.

Lemma index_of_job_id_in_range job_id :
  1 <= job_id <= MAX_HW_JOB_NUMBER ->
  DeflateQplJobHWPool.index_of_job_id job_id = MAX_HW_JOB_NUMBER - job_id.
Proof.
  pose proof MAX_HW_JOB_NUMBER_range as HN. intros Hid.
  unfold DeflateQplJobHWPool.index_of_job_id. apply to_uint32_small. lia.
Qed.

(** [acquireJob] on a well-formed pool always returns: with nothing when
    the pool is not ready or after [MAX_HW_JOB_NUMBER + 1] failed attempts,
    else with the block and the id of a slot whose lock it took. *)
Lemma acquireJob_outcome job_id w :
  pool_wf w ->
  match DeflateQplJobHWPool.acquireJob job_id w with
  | Ret (p, id) w' =>
      pool_frame w w' /\
      released_ids (trace w') = released_ids (trace w) /\
      ((job_pool_ready w = false /\ p = None /\ id = job_id /\
        hw_job_ptr_locks w' = hw_job_ptr_locks w /\ trace w' = trace w)
       \/ (job_pool_ready w = true /\ p = None /\ id = job_id /\
           hw_job_ptr_locks w' = hw_job_ptr_locks w /\
           Z.of_nat (failed_attempts (trace w'))
           = Z.of_nat (failed_attempts (trace w)) + (MAX_HW_JOB_NUMBER + 1))
       \/ (job_pool_ready w = true /\
           exists i, 0 <= i < MAX_HW_JOB_NUMBER /\
             p = Some (Z.to_nat i) /\ id = MAX_HW_JOB_NUMBER - i /\
             hw_job_ptr_locks w !! Z.to_nat i = Some false /\
             hw_job_ptr_locks w' = <[Z.to_nat i := true]> (hw_job_ptr_locks w) /\
             Z.of_nat (failed_attempts (trace w'))
             <= Z.of_nat (failed_attempts (trace w)) + MAX_HW_JOB_NUMBER))
  | _ => False
  end.
Proof.
  pose proof MAX_HW_JOB_NUMBER_range as HN.
  intros (Hlocks & Hpool & Hbuf & Hptrs).
  unfold DeflateQplJobHWPool.acquireJob, DeflateQplJobHWPool.isJobPoolReady.
  rewrite !bind_eq. cbn [get ret].
  destruct (job_pool_ready w) eqn:Hready.
  - rewrite bind_eq, distribution_spec, bind_eq.
    match goal with
    | |- context [DeflateQplJobHWPool.acquire_loop ?f ?i ?r ?w1] =>
        pose proof (acquire_loop_outcome f i r w1) as Hloop
    end.
    cbn [hw_job_ptr_locks set_random_engine] in Hloop.
    specialize (Hloop Hlocks (drawn_index_range _ _) ltac:(lia) ltac:(lia)).
    destruct (DeflateQplJobHWPool.acquire_loop _ _ _ _) as [[i|] w'| | |];
      try contradiction.
    + destruct Hloop as (Hi & Hfree & Hl & Hframe & Hfail & Hrel).
      rewrite bind_eq. unfold assert.
      rewrite (proj2 (Z.ltb_lt i MAX_HW_JOB_NUMBER)) by lia.
      cbn [ret]. rewrite bind_eq.
      assert (hw_job_ptr_pool w' !! Z.to_nat i = Some (Some (Z.to_nat i))) as Hp.
      { destruct Hframe as (-> & _). cbn. apply Hptrs; [reflexivity|lia]. }
      rewrite (job_ptr_at_spec i w' _ ltac:(lia) Hp). cbn [ret].
      rewrite job_id_of_index_in_range by lia.
      cbn in Hframe, Hfail, Hrel.
      repeat split; try apply Hframe; try assumption.
      right. right. split; [reflexivity|]. exists i. repeat split; try assumption; lia.
    + destruct Hloop as (Hl & Hframe & Hfail & Hrel).
      cbn [ret]. cbn in Hframe, Hfail, Hrel.
      repeat split; try apply Hframe; try assumption.
      right. left. repeat split; try assumption. lia.
  - cbn. repeat split. left. repeat split.
Qed.

Lemma releaseJob_ready job_id w :
  pool_wf w -> job_pool_ready w = true -> 1 <= job_id <= MAX_HW_JOB_NUMBER ->
  DeflateQplJobHWPool.releaseJob job_id w =
  Ret (Some (Z.to_nat (MAX_HW_JOB_NUMBER - job_id)))
    (set_trace (EvUnlock (MAX_HW_JOB_NUMBER - job_id) :: EvReleaseJob job_id :: trace w)
       (set_hw_job_ptr_locks
          (<[Z.to_nat (MAX_HW_JOB_NUMBER - job_id) := false]> (hw_job_ptr_locks w)) w)).
Proof.
  pose proof MAX_HW_JOB_NUMBER_range as HN.
  intros (Hlocks & Hpool & Hbuf & Hptrs) Hready Hid.
  unfold DeflateQplJobHWPool.releaseJob, DeflateQplJobHWPool.isJobPoolReady.
  mstep. rewrite Hready, index_of_job_id_in_range by exact Hid.
  mstep. rewrite (proj2 (Z.ltb_lt _ MAX_HW_JOB_NUMBER)) by lia. mstep.
  erewrite job_ptr_at_spec; [| lia | cbn; apply Hptrs; [assumption | lia]].
  mstep. rewrite unLockJob_spec by (cbn; lia).
  reflexivity.
Qed.

Lemma releaseJob_not_ready job_id w :
  job_pool_ready w = false ->
  DeflateQplJobHWPool.releaseJob job_id w =
  Ret None (set_trace (EvReleaseJob job_id :: trace w) w).
Proof.
  intros Hready.
  unfold DeflateQplJobHWPool.releaseJob, DeflateQplJobHWPool.isJobPoolReady.
  msimpl. rewrite Hready. reflexivity.
Qed.

Lemma pool_wf_frame w w' :
  pool_frame w w' ->
  length (hw_job_ptr_locks w') = length (hw_job_ptr_locks w) ->
  pool_wf w -> pool_wf w'.
Proof.
  intros (Hp & Hr & Hb & _) Hlen (Hlocks & Hpool & Hbuf & Hptrs).
  unfold pool_wf. rewrite Hp, Hr, Hb, Hlen. auto.
Qed.

(** When the slot of every one of its attempts is held, the loop gives
    up. *)
Lemma acquire_loop_all_held fuel : forall index retry w,
  length (hw_job_ptr_locks w) = Z.to_nat MAX_HW_JOB_NUMBER ->
  0 <= index < MAX_HW_JOB_NUMBER ->
  0 <= retry <= MAX_HW_JOB_NUMBER ->
  MAX_HW_JOB_NUMBER + 1 - retry <= Z.of_nat fuel ->
  hw_job_ptr_locks w !! Z.to_nat index = Some true ->
  (forall k : nat, Z.of_nat k < MAX_HW_JOB_NUMBER - retry ->
     hw_job_ptr_locks w !! Z.to_nat (drawn_index w k) = Some true) ->
  exists w', DeflateQplJobHWPool.acquire_loop fuel index retry w = Ret None w'.
Proof.
  pose proof MAX_HW_JOB_NUMBER_range as HN.
  induction fuel as [|fuel IH]; intros index retry w Hlen Hidx Hretry Hfuel Hheld Hall.
  - lia.
  - cbn [DeflateQplJobHWPool.acquire_loop].
    rewrite bind_eq, tryLockJob_spec.
    rewrite (proj2 (index_in_range_true index) Hidx), Hheld.
    rewrite bind_eq, distribution_spec, to_uint32_small by lia.
    destruct (retry + 1 >? MAX_HW_JOB_NUMBER) eqn:Hgt.
    + eexists. reflexivity.
    + assert (retry + 1 <= MAX_HW_JOB_NUMBER) as Hle
        by (destruct (Z.gtb_spec (retry + 1) MAX_HW_JOB_NUMBER); [discriminate|lia]).
      apply IH; msimpl; try assumption; try lia.
      * apply drawn_index_range.
      * apply (Hall 0%nat). lia.
      * intros k Hk. specialize (Hall (S k) ltac:(lia)).
        unfold drawn_index in *. msimpl.
        replace (S (random_engine w) + k)%nat with (random_engine w + S k)%nat by lia.
        exact Hall.
Qed.

(** C2, as the code has it: the loop counts the retries and compares with
    [retry > MAX_HW_JOB_NUMBER], so [acquireJob] gives up after
    [MAX_HW_JOB_NUMBER + 1] failed attempts (the first one and
    [MAX_HW_JOB_NUMBER] retries).  On a ready pool it always returns, never
    with more than [MAX_HW_JOB_NUMBER + 1] failed attempts; it returns null
    exactly when it made [MAX_HW_JOB_NUMBER + 1] of them; and it does so
    whenever the slots of its first [MAX_HW_JOB_NUMBER + 1] samples are all
    held, leaving [*job_id] and the locks as they were. *)
Theorem acquireJob_gives_up_after_max_plus_one job_id w :
  pool_wf w -> job_pool_ready w = true ->
  exists p id w',
    DeflateQplJobHWPool.acquireJob job_id w = Ret (p, id) w' /\
    Z.of_nat (failed_attempts (trace w'))
    <= Z.of_nat (failed_attempts (trace w)) + (MAX_HW_JOB_NUMBER + 1) /\
    (p = None <->
     Z.of_nat (failed_attempts (trace w'))
     = Z.of_nat (failed_attempts (trace w)) + (MAX_HW_JOB_NUMBER + 1)) /\
    ((forall k : nat, Z.of_nat k <= MAX_HW_JOB_NUMBER ->
        lock_at w (drawn_index w k) = Some true) ->
     p = None /\ id = job_id /\ hw_job_ptr_locks w' = hw_job_ptr_locks w).
Proof.
  pose proof MAX_HW_JOB_NUMBER_range as HN.
  intros Hwf Hready.
  pose proof (acquireJob_outcome job_id w Hwf) as Hout.
  destruct (DeflateQplJobHWPool.acquireJob job_id w) as [[p id] w'| | |] eqn:Hacq;
    try contradiction.
  exists p, id, w'. split; [reflexivity|].
  destruct Hout as (Hframe & Hrel & [Hnr | [Hgave | Hgot]]).
  - destruct Hnr as (Hnr & _). congruence.
  - destruct Hgave as (_ & -> & -> & Hlocks & Hfail).
    repeat split; auto; lia.
  - destruct Hgot as (_ & i & Hi & -> & -> & Hfree & Hlocks & Hfail).
    split; [lia|]. split; [split; [discriminate | lia]|].
    intros Hall. exfalso.
    (* the loop gives up when all the sampled slots are held *)
    revert Hacq.
    unfold DeflateQplJobHWPool.acquireJob, DeflateQplJobHWPool.isJobPoolReady.
    mstep. rewrite Hready. rewrite bind_eq, distribution_spec, bind_eq.
    destruct Hwf as (Hlen & _).
    match goal with
    | |- context [DeflateQplJobHWPool.acquire_loop ?f ?ix ?r ?w1] =>
        destruct (acquire_loop_all_held f ix r w1) as [w1' Hloop]
    end; msimpl; try assumption; try lia.
    + apply drawn_index_range.
    + specialize (Hall 0%nat ltac:(lia)). unfold lock_at in Hall.
      destruct (drawn_index_range w 0) as [H0 _].
      rewrite (proj2 (Z.leb_le _ _) H0) in Hall. exact Hall.
    + intros k Hk. specialize (Hall (S k) ltac:(lia)). unfold lock_at in Hall.
      destruct (drawn_index_range w (S k)) as [H0 _].
      rewrite (proj2 (Z.leb_le _ _) H0) in Hall.
      unfold drawn_index in *. msimpl.
      replace (S (random_engine w) + k)%nat with (random_engine w + S k)%nat by lia.
      exact Hall.
    + rewrite Hloop. mstep. discriminate.
Qed.

(** C7: the external job id.  [index -> MAX_HW_JOB_NUMBER - index] maps the
    slots [0 .. MAX_HW_JOB_NUMBER - 1] one-to-one onto the ids
    [1 .. MAX_HW_JOB_NUMBER], with [releaseJob]'s
    [id -> MAX_HW_JOB_NUMBER - id] as its inverse.  A successful
    [acquireJob] took the lock of a free slot [index] and emits that id,
    which is neither 0 nor [RET_ERROR]; [releaseJob] of the id computes
    [index] again, returns the same job block and clears that lock and no
    other, so the locks are back as before the acquisition. *)
Theorem job_id_encoding_inverts job_id0 w ptr job_id w' :
  pool_wf w ->
  DeflateQplJobHWPool.acquireJob job_id0 w = Ret (Some ptr, job_id) w' ->
  (forall i, 0 <= i < MAX_HW_JOB_NUMBER ->
     1 <= DeflateQplJobHWPool.job_id_of_index i <= MAX_HW_JOB_NUMBER /\
     DeflateQplJobHWPool.index_of_job_id (DeflateQplJobHWPool.job_id_of_index i) = i) /\
  (forall id, 1 <= id <= MAX_HW_JOB_NUMBER ->
     0 <= DeflateQplJobHWPool.index_of_job_id id < MAX_HW_JOB_NUMBER /\
     DeflateQplJobHWPool.job_id_of_index (DeflateQplJobHWPool.index_of_job_id id) = id) /\
  exists index,
    0 <= index < MAX_HW_JOB_NUMBER /\
    hw_job_ptr_locks w !! Z.to_nat index = Some false /\
    hw_job_ptr_locks w' = <[Z.to_nat index := true]> (hw_job_ptr_locks w) /\
    job_id = DeflateQplJobHWPool.job_id_of_index index /\
    job_id = MAX_HW_JOB_NUMBER - index /\
    1 <= job_id <= MAX_HW_JOB_NUMBER /\ job_id <> 0 /\ job_id <> RET_ERROR /\
    DeflateQplJobHWPool.index_of_job_id job_id = index /\
    exists w'',
      DeflateQplJobHWPool.releaseJob job_id w' = Ret (Some ptr) w'' /\
      hw_job_ptr_locks w'' = <[Z.to_nat index := false]> (hw_job_ptr_locks w') /\
      hw_job_ptr_locks w'' = hw_job_ptr_locks w.
Proof.
  pose proof MAX_HW_JOB_NUMBER_range as HN.
  pose proof RET_ERROR_range as HE.
  intros Hwf Hacq.
  split; [|split].
  - intros i Hi. rewrite job_id_of_index_in_range by lia.
    rewrite index_of_job_id_in_range by lia. lia.
  - intros id Hid. rewrite index_of_job_id_in_range by lia.
    rewrite job_id_of_index_in_range by lia. lia.
  - pose proof (acquireJob_outcome job_id0 w Hwf) as Hout.
    rewrite Hacq in Hout.
    destruct Hout as (Hframe & Hrel & [Hnr | [Hgave | Hgot]]).
    + destruct Hnr as (_ & Hp & _). discriminate.
    + destruct Hgave as (_ & Hp & _). discriminate.
    + destruct Hgot as (Hready & i & Hi & Hp & -> & Hfree & Hlocks & Hfail).
      injection Hp as ->.
      exists i.
      assert (pool_wf w') as Hwf'.
      { apply (pool_wf_frame w w' Hframe); [|exact Hwf].
        rewrite Hlocks. apply length_insert. }
      assert (job_pool_ready w' = true) as Hready'
        by (destruct Hframe as (_ & -> & _); exact Hready).
      rewrite job_id_of_index_in_range, index_of_job_id_in_range by lia.
      repeat split; try assumption; try lia.
      rewrite (releaseJob_ready _ w' Hwf' Hready') by lia.
      replace (MAX_HW_JOB_NUMBER - (MAX_HW_JOB_NUMBER - i)) with i by lia.
      eexists. split; [reflexivity|]. msimpl. split; [reflexivity|].
      rewrite Hlocks, list_insert_insert_eq. apply list_insert_id. exact Hfree.
Qed.

End Pool.

(** ** The library calls *)

Section Library.
Context {acc : Accelerator}.

Lemma read_hw_job_spec ptr job w :
  hw_jobs_buffer w !! ptr = Some job -> Qpl.read_hw_job ptr w = Ret job w.
Proof. intros Hjob. unfold Qpl.read_hw_job. mstep. rewrite Hjob. reflexivity. Qed.

Lemma write_hw_job_spec ptr job w :
  Qpl.write_hw_job ptr job w
  = Ret tt (set_hw_jobs_buffer (<[ptr := job]> (hw_jobs_buffer w)) w).
Proof. reflexivity. Qed.

Lemma complete_job_spec path job w :
  Qpl.complete_job path job w
  = Ret (fst (Qpl.job_result path job w),
         Qpl.completed_job job (snd (Qpl.job_result path job w)))
      (set_mem (Qpl.mem_after job (snd (Qpl.job_result path job w)) w) w).
Proof. reflexivity. Qed.

Lemma qpl_execute_job_hw_spec ptr job w :
  hw_jobs_buffer w !! ptr = Some job ->
  Qpl.qpl_execute_job_hw ptr w
  = Ret (fst (Qpl.job_result qpl_path_hardware job w))
      (set_hw_jobs_buffer
         (<[ptr := Qpl.completed_job job (snd (Qpl.job_result qpl_path_hardware job w))]>
            (hw_jobs_buffer w))
         (set_mem (Qpl.mem_after job (snd (Qpl.job_result qpl_path_hardware job w)) w)
            (set_trace (EvExecute qpl_path_hardware :: trace w) w))).
Proof.
  intros Hjob. unfold Qpl.qpl_execute_job_hw.
  rewrite bind_eq, (read_hw_job_spec _ _ _ Hjob). reflexivity.
Qed.

Lemma qpl_submit_job_spec ptr job w :
  hw_jobs_buffer w !! ptr = Some job ->
  Qpl.qpl_submit_job ptr w
  = Ret (qpl_submit_status ptr job)
      (if status_is_ok (qpl_submit_status ptr job)
       then set_hw_jobs_buffer
              (<[ptr := Qpl.with_job_state job (job_submitted 0)]> (hw_jobs_buffer w))
              (set_trace (EvSubmit ptr :: trace w) w)
       else set_trace (EvSubmit ptr :: trace w) w).
Proof.
  intros Hjob. unfold Qpl.qpl_submit_job.
  rewrite bind_eq, (read_hw_job_spec _ _ _ Hjob). mstep.
  destruct (status_is_ok (qpl_submit_status ptr job)); reflexivity.
Qed.

Lemma qpl_check_job_spec ptr job w :
  hw_jobs_buffer w !! ptr = Some job ->
  Qpl.qpl_check_job ptr w
  = match job_state job with
    | job_idle =>
        Ret QPL_STS_JOB_NOT_SUBMITTED (set_trace (EvCheck ptr :: trace w) w)
    | job_submitted polls =>
        if qpl_busy ptr polls
        then Ret QPL_STS_BEING_PROCESSED
               (set_hw_jobs_buffer
                  (<[ptr := Qpl.with_job_state job (job_submitted (S polls))]>
                     (hw_jobs_buffer w))
                  (set_trace (EvCheck ptr :: trace w) w))
        else Ret (fst (Qpl.job_result qpl_path_hardware job w))
               (set_hw_jobs_buffer
                  (<[ptr := Qpl.completed_job job
                              (snd (Qpl.job_result qpl_path_hardware job w))]>
                     (hw_jobs_buffer w))
                  (set_mem
                     (Qpl.mem_after job (snd (Qpl.job_result qpl_path_hardware job w)) w)
                     (set_trace (EvCheck ptr :: trace w) w)))
    end.
Proof.
  intros Hjob. unfold Qpl.qpl_check_job.
  rewrite bind_eq, (read_hw_job_spec _ _ _ Hjob). mstep.
  destruct (job_state job) as [|polls]; [reflexivity|].
  destruct (qpl_busy ptr polls); reflexivity.
Qed.

Lemma qpl_execute_job_sw_spec job w :
  sw_job w = Some job ->
  Qpl.qpl_execute_job_sw w
  = Ret (fst (Qpl.job_result qpl_path_software job w))
      (set_sw_job
         (Some (Qpl.completed_job job (snd (Qpl.job_result qpl_path_software job w))))
         (set_mem (Qpl.mem_after job (snd (Qpl.job_result qpl_path_software job w)) w)
            (set_trace (EvExecute qpl_path_software :: trace w) w))).
Proof.
  intros Hjob. unfold Qpl.qpl_execute_job_sw. mstep. rewrite Hjob. reflexivity.
Qed.

End Library.

(** ** The software codec *)

Section Software.
Context {acc : Accelerator}.

(** The world [getJobCodecPtr] leaves when it returns. *)
Lemma getJobCodecPtr_spec w :
  SoftwareCodecDeflateQpl.getJobCodecPtr w
  = match sw_job w with
    | Some _ => Ret tt w
    | None =>
        if status_is_ok (qpl_init_status qpl_path_software 0)
        then Ret tt (set_trace (EvInit qpl_path_software :: trace w)
                       (set_sw_job (Some zero_job) w))
        else Throw CANNOT_COMPRESS
               (set_trace (EvInit qpl_path_software :: trace w)
                  (set_sw_job (Some zero_job) w))
    end.
Proof.
  unfold SoftwareCodecDeflateQpl.getJobCodecPtr. mstep.
  destruct (sw_job w); [reflexivity|].
  mstep. destruct (status_is_ok _); reflexivity.
Qed.

Lemma job_result_mem path job w w' :
  mem w' = mem w -> Qpl.job_result path job w' = Qpl.job_result path job w.
Proof.
  intros Hmem. unfold Qpl.job_result, Qpl.job_input, Qpl.buffer_at.
  rewrite Hmem. reflexivity.
Qed.

Lemma mem_after_mem job out w w' :
  mem w' = mem w -> Qpl.mem_after job out w' = Qpl.mem_after job out w.
Proof.
  intros Hmem. unfold Qpl.mem_after, Qpl.buffer_at. rewrite Hmem. reflexivity.
Qed.

Lemma after_getJobCodecPtr_sw_job w :
  sw_job (after_getJobCodecPtr w) = Some (sw_job_block w).
Proof.
  unfold after_getJobCodecPtr, sw_job_block. destruct (sw_job w) eqn:E; cbn.
  - exact E.
  - reflexivity.
Qed.

Lemma after_getJobCodecPtr_mem w : mem (after_getJobCodecPtr w) = mem w.
Proof. unfold after_getJobCodecPtr. destruct (sw_job w); reflexivity. Qed.

Lemma getJobCodecPtr_outcome w :
  SoftwareCodecDeflateQpl.getJobCodecPtr w
  = if sw_job_available w
    then Ret tt (after_getJobCodecPtr w)
    else Throw CANNOT_COMPRESS (after_getJobCodecPtr w).
Proof.
  rewrite getJobCodecPtr_spec. unfold sw_job_available, after_getJobCodecPtr.
  destruct (sw_job w); [reflexivity|]. destruct (status_is_ok _); reflexivity.
Qed.

(** The software job is configured by [configure] and executed. *)
Lemma sw_execute_configured {A} (configure : qpl_job -> qpl_job)
    (k : qpl_status -> M A) w :
  (SoftwareCodecDeflateQpl.update_sw_job configure ;;
   status <- Qpl.qpl_execute_job_sw ;; k status)
    (after_getJobCodecPtr w)
  = k (fst (Qpl.job_result qpl_path_software (configure (sw_job_block w)) w))
      (after_sw_execute (configure (sw_job_block w))
         (set_sw_job (Some (configure (sw_job_block w))) (after_getJobCodecPtr w))).
Proof.
  unfold SoftwareCodecDeflateQpl.update_sw_job. mstep.
  rewrite after_getJobCodecPtr_sw_job. mstep.
  erewrite qpl_execute_job_sw_spec by reflexivity.
  unfold after_sw_execute.
  rewrite !(job_result_mem _ _ w
              (set_sw_job _ (after_getJobCodecPtr w)))
    by (cbn; apply after_getJobCodecPtr_mem).
  reflexivity.
Qed.

Lemma sw_doDecompressData_outcome source source_size dest uncompressed_size w :
  let job := HardwareCodecDeflateQpl.decompress_job (sw_job_block w) source
               source_size dest uncompressed_size in
  let w' := after_sw_execute job (set_sw_job (Some job) (after_getJobCodecPtr w)) in
  SoftwareCodecDeflateQpl.doDecompressData source source_size dest uncompressed_size w
  = if sw_job_available w
    then if status_is_ok (fst (Qpl.job_result qpl_path_software job w))
         then Ret tt w'
         else Throw CANNOT_DECOMPRESS w'
    else Throw CANNOT_COMPRESS (after_getJobCodecPtr w).
Proof.
  intros job w'. unfold SoftwareCodecDeflateQpl.doDecompressData.
  rewrite bind_eq, getJobCodecPtr_outcome.
  destruct (sw_job_available w); [|reflexivity].
  rewrite sw_execute_configured. fold job. fold w'.
  destruct (status_is_ok _); reflexivity.
Qed.

Lemma sw_doCompressData_outcome source source_size dest dest_size w :
  let job := HardwareCodecDeflateQpl.compress_job (sw_job_block w) source
               source_size dest dest_size in
  let w' := after_sw_execute job (set_sw_job (Some job) (after_getJobCodecPtr w)) in
  SoftwareCodecDeflateQpl.doCompressData source source_size dest dest_size w
  = if sw_job_available w
    then if status_is_ok (fst (Qpl.job_result qpl_path_software job w))
         then Ret (to_uint32 (Z.of_nat (length (snd (Qpl.job_result
                     qpl_path_software job w))))) w'
         else Throw CANNOT_COMPRESS w'
    else Throw CANNOT_COMPRESS (after_getJobCodecPtr w).
Proof.
  intros job w'. unfold SoftwareCodecDeflateQpl.doCompressData.
  rewrite bind_eq, getJobCodecPtr_outcome.
  destruct (sw_job_available w); [|reflexivity].
  rewrite sw_execute_configured. fold job. fold w'.
  destruct (status_is_ok _); [|reflexivity].
  unfold SoftwareCodecDeflateQpl.read_sw_job. subst w'.
  unfold after_sw_execute. mstep.
  rewrite !(job_result_mem _ _ w (set_sw_job _ (after_getJobCodecPtr w)))
    by (cbn; apply after_getJobCodecPtr_mem).
  reflexivity.

Qed.

(** C10, as the code has it: the two failures of the software codec.
    When the lazily initialised job fails to initialise ([sw_job] is null
    and [qpl_init_job] answers a status other than OK), compression and
    decompression both throw [CANNOT_COMPRESS], before any job is executed.
    Compression never throws [CANNOT_DECOMPRESS].  Decompression throws
    [CANNOT_COMPRESS] only in that case, and throws [CANNOT_DECOMPRESS]
    exactly when [getJobCodecPtr] hands out a job block (one that was there
    on entry, or a fresh one whose initialisation succeeds) and the execute
    step of the decompression answers a status other than OK.  The block
    that was there on entry need not be an initialised one: a block whose
    [qpl_init_job] failed is not initialised again, and a failure of its
    execute step is a [CANNOT_DECOMPRESS] all the same. *)
Theorem software_failure_kinds source source_size dest size w :
  (sw_job w = None ->
   status_is_ok (qpl_init_status qpl_path_software 0) = false ->
   (exists w',
      SoftwareCodecDeflateQpl.doCompressData source source_size dest size w
      = Throw CANNOT_COMPRESS w' /\
      trace w' = EvInit qpl_path_software :: trace w) /\
   (exists w',
      SoftwareCodecDeflateQpl.doDecompressData source source_size dest size w
      = Throw CANNOT_COMPRESS w' /\
      trace w' = EvInit qpl_path_software :: trace w)) /\
  (forall code w',
     SoftwareCodecDeflateQpl.doCompressData source source_size dest size w
     = Throw code w' -> code = CANNOT_COMPRESS) /\
  (forall w',
     SoftwareCodecDeflateQpl.doDecompressData source source_size dest size w
     = Throw CANNOT_COMPRESS w' ->
     sw_job w = None /\
     status_is_ok (qpl_init_status qpl_path_software 0) = false) /\
  ((exists w',
      SoftwareCodecDeflateQpl.doDecompressData source source_size dest size w
      = Throw CANNOT_DECOMPRESS w') <->
   (sw_job w <> None \/
    status_is_ok (qpl_init_status qpl_path_software 0) = true) /\
   status_is_ok
     (fst (Qpl.job_result qpl_path_software
             (HardwareCodecDeflateQpl.decompress_job (sw_job_block w) source
                source_size dest size) w)) = false) /\
  (sw_job w <> None ->
   status_is_ok (qpl_init_status qpl_path_software 0) = false ->
   ~ sw_job_initialised w /\
   (status_is_ok
      (fst (Qpl.job_result qpl_path_software
              (HardwareCodecDeflateQpl.decompress_job (sw_job_block w) source
                 source_size dest size) w)) = false ->
    exists w',
      SoftwareCodecDeflateQpl.doDecompressData source source_size dest size w
      = Throw CANNOT_DECOMPRESS w' /\
      trace w' = EvExecute qpl_path_software :: trace w)).
Proof.
  pose proof (sw_doCompressData_outcome source source_size dest size w) as Hc.
  pose proof (sw_doDecompressData_outcome source source_size dest size w) as Hd.
  cbv zeta in Hc, Hd. rewrite Hc, Hd. clear Hc Hd.
  unfold sw_job_available, after_getJobCodecPtr.
  split; [|split; [|split; [|split]]].
  - intros Hnull Hinit. rewrite Hnull, Hinit.
    split; eexists; split; reflexivity.
  - intros code w' Hthrow.
    destruct (sw_job w); [|destruct (status_is_ok (qpl_init_status _ _))];
      repeat match type of Hthrow with
             | context [if ?c then _ else _] => destruct c
             end; congruence.
  - intros w' Hthrow.
    destruct (sw_job w); [|destruct (status_is_ok (qpl_init_status _ _))];
      repeat match type of Hthrow with
             | context [if ?c then _ else _] => destruct c
             end; try discriminate; auto.
  - split.
    + intros [w' Hthrow].
      destruct (sw_job w); [|destruct (status_is_ok (qpl_init_status _ _))];
        repeat match type of Hthrow with
               | context [if ?c then _ else _] => destruct c eqn:?
               end; try discriminate; split; auto; left; discriminate.
    + intros [Havail Hfail]. rewrite Hfail.
      destruct (sw_job w); [eauto|].
      destruct Havail as [Habs|Hinit]; [contradiction|]. rewrite Hinit. eauto.
  - intros Hjob Hinit. split.
    + intros (_ & Hok). congruence.
    + intros Hfail. rewrite Hfail.
      destruct (sw_job w) as [job|]; [|contradiction].
      eexists. split; [reflexivity|]. unfold after_sw_execute. msimpl. reflexivity.
Qed.

End Software.

(** ** The map of in-flight jobs *)

Section StdMapFacts.

Lemma map_ok_nil : StdMap.ok [].
Proof. constructor. Qed.

Lemma map_ok_inv k v m :
  StdMap.ok ((k, v) :: m) ->
  StdMap.ok m /\ forall k' v', (k', v') ∈ m -> k < k'.
Proof.
  unfold StdMap.ok, StdMap.keys. cbn [map fst]. intros Hs.
  apply StronglySorted_inv in Hs. destruct Hs as [Hs Hall]. split; [exact Hs|].
  intros k' v' Hin. rewrite List.Forall_forall in Hall. apply Hall.
  apply in_map_iff. exists (k', v'). split; [reflexivity|].
  apply list_elem_of_In. exact Hin.
Qed.

Lemma map_ok_cons k v m :
  StdMap.ok m -> (forall k' v', (k', v') ∈ m -> k < k') -> StdMap.ok ((k, v) :: m).
Proof.
  unfold StdMap.ok, StdMap.keys. cbn [map fst]. intros Hs Hlt.
  constructor; [exact Hs|]. rewrite List.Forall_forall. intros k' Hin.
  apply in_map_iff in Hin. destruct Hin as ([k'' v'] & <- & Hin).
  apply (Hlt k'' v'). apply list_elem_of_In. exact Hin.
Qed.

Lemma map_insert_elem_of k v m k' v' :
  (k', v') ∈ StdMap.insert k v m ->
  (k', v') = (k, v) \/ (k', v') ∈ m.
Proof.
  induction m as [|[k0 v0] m IH]; cbn [StdMap.insert].
  - intros Hin. apply list_elem_of_singleton in Hin. auto.
  - destruct (k <? k0).
    + intros Hin. apply elem_of_cons in Hin. exact Hin.
    + destruct (k =? k0); [auto|].
      intros Hin. apply elem_of_cons in Hin. destruct Hin as [->|Hin].
      * right. apply elem_of_cons. auto.
      * destruct (IH Hin) as [Heq|Hin']; [auto|].
        right. apply elem_of_cons. auto.
Qed.

Lemma map_insert_ok k v m : StdMap.ok m -> StdMap.ok (StdMap.insert k v m).
Proof.
  induction m as [|[k0 v0] m IH]; cbn [StdMap.insert]; intros Hok.
  - apply map_ok_cons; [exact map_ok_nil|]. intros k' v' Hin.
    apply elem_of_nil in Hin. contradiction.
  - destruct (Z.ltb_spec k k0) as [Hlt|Hge].
    + apply map_ok_cons; [exact Hok|]. intros k' v' Hin.
      apply elem_of_cons in Hin. destruct Hin as [Heq|Hin].
      * injection Heq as -> ->. exact Hlt.
      * apply map_ok_inv in Hok. destruct Hok as [_ Hall].
        specialize (Hall k' v' Hin). lia.
    + destruct (Z.eqb_spec k k0) as [Heq|Hne]; [exact Hok|].
      apply map_ok_inv in Hok. destruct Hok as [Hok Hall].
      apply map_ok_cons; [apply IH; exact Hok|].
      intros k' v' Hin. apply map_insert_elem_of in Hin.
      destruct Hin as [Heq|Hin].
      * injection Heq as -> ->. lia.
      * apply (Hall k' v' Hin).
Qed.

(** A fresh key is really added: the map gains that entry and no other. *)
Lemma map_insert_fresh k v m :
  (forall v', (k, v') ∉ m) -> StdMap.insert k v m ≡ₚ (k, v) :: m.
Proof.
  induction m as [|[k0 v0] m IH]; cbn [StdMap.insert]; intros Hfresh.
  - reflexivity.
  - destruct (k <? k0); [reflexivity|].
    destruct (Z.eqb_spec k k0) as [->|Hne].
    + exfalso. apply (Hfresh v0). apply elem_of_cons. auto.
    + rewrite IH.
      * apply Permutation_swap.
      * intros v' Hin. apply (Hfresh v'). apply elem_of_cons. auto.
Qed.

Lemma map_ok_lookup_key m :
  StdMap.ok m ->
  forall i j e e', m !! i = Some e -> m !! j = Some e' -> fst e = fst e' -> i = j.
Proof.
  induction m as [|[k v] m IH]; intros Hok i j e e' Hi Hj Hkey.
  - rewrite lookup_nil in Hi. discriminate.
  - apply map_ok_inv in Hok. destruct Hok as [Hok Hall].
    destruct i as [|i], j as [|j]; cbn in Hi, Hj.
    + reflexivity.
    + injection Hi as <-. destruct e' as [k' v'].
      assert ((k', v') ∈ m) as Hin by (apply list_elem_of_lookup; eauto).
      specialize (Hall k' v' Hin). cbn in Hkey. lia.
    + injection Hj as <-. destruct e as [k' v'].
      assert ((k', v') ∈ m) as Hin by (apply list_elem_of_lookup; eauto).
      specialize (Hall k' v' Hin). cbn in Hkey. lia.
    + f_equal. apply (IH Hok i j e e' Hi Hj Hkey).
Qed.

Lemma map_delete_ok (i : nat) m : StdMap.ok m -> StdMap.ok (delete i m).
Proof.
  revert i. induction m as [|[k v] m IH]; intros i Hok.
  - destruct i; exact Hok.
  - apply map_ok_inv in Hok. destruct Hok as [Hok Hall].
    destruct i as [|i].
    + exact Hok.
    + change (delete (S i) ((k, v) :: m)) with ((k, v) :: delete i m).
      apply map_ok_cons; [apply IH; exact Hok|].
      intros k' v' Hin. apply (Hall k' v').
      apply list_elem_of_delete_inv in Hin. exact Hin.
Qed.

Lemma elem_of_delete_inv {A} (i : nat) (l : list A) x :
  x ∈ delete i l -> exists j, j <> i /\ l !! j = Some x.
Proof.
  intros Hin. apply list_elem_of_lookup in Hin. destruct Hin as [j Hj].
  destruct (decide (j < i)%nat).
  - exists j. rewrite list_lookup_delete_lt in Hj by assumption. split; [lia|exact Hj].
  - exists (S j). rewrite list_lookup_delete_ge in Hj by lia. split; [lia|exact Hj].
Qed.

End StdMapFacts.

(** ** The hardware codec *)

Section Hardware.
Context {hdr : Header} {acc : Accelerator}.

Lemma pool_wf_shape w w' : pool_shape w w' -> pool_wf w -> pool_wf w'.
Proof.
  intros (Hp & Hr & Hl & Hb) (Hlocks & Hpool & Hbuf & Hptrs).
  unfold pool_wf. rewrite Hp, Hr, Hl, Hb. auto.
Qed.

Lemma pool_shape_refl w : pool_shape w w.
Proof. unfold pool_shape. tauto. Qed.

Lemma pool_shape_trans w1 w2 w3 :
  pool_shape w1 w2 -> pool_shape w2 w3 -> pool_shape w1 w3.
Proof. unfold pool_shape. intuition congruence. Qed.

Lemma to_int32_job_id i :
  0 <= i < MAX_HW_JOB_NUMBER -> to_int32 (MAX_HW_JOB_NUMBER - i) = MAX_HW_JOB_NUMBER - i.
Proof.
  pose proof MAX_HW_JOB_NUMBER_range as HN. intros Hi.
  apply to_int32_small. lia.
Qed.

Lemma lookup_job_block (w : World) (i : Z) :
  pool_wf w -> 0 <= i < MAX_HW_JOB_NUMBER ->
  exists job, hw_jobs_buffer w !! Z.to_nat i = Some job.
Proof.
  intros (_ & _ & Hbuf & _) Hi.
  destruct (hw_jobs_buffer w !! Z.to_nat i) as [job|] eqn:E; [eauto|].
  apply lookup_ge_None in E. lia.
Qed.

(** [HardwareCodecDeflateQpl::doCompressData], case by case on what
    [acquireJob] answers. *)
Lemma hw_doCompressData_outcome source source_size dest dest_size w :
  pool_wf w ->
  match DeflateQplJobHWPool.acquireJob 0 w with
  | Ret (None, _) w1 =>
      HardwareCodecDeflateQpl.doCompressData source source_size dest dest_size w
      = Ret RET_ERROR (set_trace (EvWarning msg_compress_acquire_failed :: trace w1) w1)
  | Ret (Some job_ptr, job_id) w1 =>
      exists job0 w',
        hw_jobs_buffer w !! job_ptr = Some job0 /\
        let job := HardwareCodecDeflateQpl.compress_job job0 source source_size
                     dest dest_size in
        let result := Qpl.job_result qpl_path_hardware job w in
        HardwareCodecDeflateQpl.doCompressData source source_size dest dest_size w
        = Ret (if status_is_ok (fst result)
               then to_int32 (to_uint32 (Z.of_nat (length (snd result))))
               else 0) w' /\
        trace w'
        = EvUnlock (MAX_HW_JOB_NUMBER - job_id) :: EvReleaseJob job_id
          :: (if status_is_ok (fst result) then []
              else [EvWarning (msg_compress_execute_failed (fst result))])
          ++ EvExecute qpl_path_hardware :: trace w1 /\
        hw_job_ptr_locks w' = hw_job_ptr_locks w /\
        mem w' = Qpl.mem_after job (snd result) w /\
        hw_jobs_buffer w' = <[job_ptr := Qpl.completed_job job (snd result)]> (hw_jobs_buffer w) /\
        decomp_async_job_map w' = decomp_async_job_map w /\
        sw_job w' = sw_job w /\
        decompress_mode w' = decompress_mode w /\
        pool_shape w w'
  | _ => False
  end.
Proof.
  pose proof MAX_HW_JOB_NUMBER_range as HN.
  intros Hwf.
  pose proof (acquireJob_outcome 0 w Hwf) as Hout.
  unfold HardwareCodecDeflateQpl.doCompressData. rewrite bind_eq.
  destruct (DeflateQplJobHWPool.acquireJob 0 w) as [[p id] w1| | |];
    try contradiction.
  destruct Hout as (Hframe & Hrel & [Hnr | [Hgave | Hgot]]).
  - destruct Hnr as (_ & -> & _). reflexivity.
  - destruct Hgave as (_ & -> & _). reflexivity.
  - destruct Hgot as (Hready & i & Hi & -> & -> & Hfree & Hlocks & Hfail).
    destruct (lookup_job_block w i Hwf Hi) as [job0 Hjob0].
    destruct Hframe as (Hp1 & Hr1 & Hb1 & Hm1 & Hs1 & Hd1 & Hmem1).
    assert (pool_wf w1) as Hwf1.
    { apply (pool_wf_shape w); [|exact Hwf].
      unfold pool_shape. rewrite Hp1, Hr1, Hb1, Hlocks, length_insert. tauto. }
    assert (Z.to_nat i < length (hw_jobs_buffer w1))%nat as Hlt
      by (rewrite Hb1; apply lookup_lt_Some in Hjob0; exact Hjob0).
    assert (MAX_HW_JOB_NUMBER - (MAX_HW_JOB_NUMBER - i) = i) as Heq by lia.
    assert (forall b t (m : gmap nat (list Byte.byte)),
              pool_wf (set_trace t (set_hw_jobs_buffer
                         (<[Z.to_nat i := b]> (<[Z.to_nat i :=
                            HardwareCodecDeflateQpl.compress_job job0 source
                              source_size dest dest_size]> (hw_jobs_buffer w1)))
                         (set_mem m
                            (set_trace (EvExecute qpl_path_hardware :: trace w1)
                               (set_hw_jobs_buffer
                                  (<[Z.to_nat i := HardwareCodecDeflateQpl.compress_job
                                       job0 source source_size dest dest_size]>
                                     (hw_jobs_buffer w1)) w1)))))) as Hwf2.
    { intros b t m. apply (pool_wf_shape w1); [|exact Hwf1].
      unfold pool_shape. msimpl. rewrite !length_insert. tauto. }
    destruct (status_is_ok (fst (Qpl.job_result qpl_path_hardware
                (HardwareCodecDeflateQpl.compress_job job0 source source_size
                   dest dest_size) w))) eqn:Hok;
      exists job0; eexists; (split; [exact Hjob0|]); cbv zeta; msimpl;
      rewrite bind_eq, (read_hw_job_spec _ job0) by (rewrite Hb1; exact Hjob0);
      rewrite bind_eq, write_hw_job_spec;
      rewrite bind_eq;
      erewrite qpl_execute_job_hw_spec
        by (msimpl; apply list_lookup_insert_eq; exact Hlt);
      rewrite !(job_result_mem _ _ w) by (msimpl; exact Hmem1);
      rewrite !(mem_after_mem _ _ w) by (msimpl; exact Hmem1);
      rewrite Hok; rewrite bind_eq.
    + rewrite bind_eq.
      erewrite read_hw_job_spec by (msimpl; apply list_lookup_insert_eq;
                                    rewrite length_insert; exact Hlt).
      mstep.
      rewrite releaseJob_ready; msimpl;
        [| apply (Hwf2 _ (EvExecute qpl_path_hardware :: trace w1)) | congruence | lia].
      rewrite Heq.
      split; [reflexivity|]. msimpl.
      rewrite Hlocks, list_insert_insert_eq, (list_insert_id _ _ _ Hfree).
      rewrite Hb1, list_insert_insert_eq.
      unfold pool_shape. msimpl. rewrite length_insert.
      repeat split; assumption.
    + mstep.
      rewrite releaseJob_ready; msimpl; [| apply Hwf2 | congruence | lia].
      rewrite Heq. rewrite (to_int32_small 0) by lia.
      split; [reflexivity|]. msimpl.
      rewrite Hlocks, list_insert_insert_eq, (list_insert_id _ _ _ Hfree).
      rewrite Hb1, list_insert_insert_eq.
      unfold pool_shape. msimpl. rewrite length_insert.
      repeat split; assumption.
Qed.

(** C1, on the code: when the execute step of a hardware compression
    answers a status other than OK, [HardwareCodecDeflateQpl::doCompressData]
    logs the warning and releases the slot, but it returns
    [compressed_size], still 0, and not [RET_ERROR].  The dispatching
    [doCompressData] compares that 0 with [RET_ERROR]: unless the sentinel
    is 0 itself it takes the 0 for a compressed size and returns it without
    calling the software codec. *)
Theorem compress_execute_failure_returns_zero
    source source_size dest w job_ptr job_id w1 job0 :
  pool_wf w -> job_pool_ready w = true ->
  DeflateQplJobHWPool.acquireJob 0 w = Ret (Some job_ptr, job_id) w1 ->
  hw_jobs_buffer w !! job_ptr = Some job0 ->
  status_is_ok
    (fst (Qpl.job_result qpl_path_hardware
            (HardwareCodecDeflateQpl.compress_job job0 source source_size dest
               (getMaxCompressedDataSize source_size)) w)) = false ->
  exists status w',
    HardwareCodecDeflateQpl.doCompressData source source_size dest
      (getMaxCompressedDataSize source_size) w = Ret 0 w' /\
    trace w'
    = EvUnlock (MAX_HW_JOB_NUMBER - job_id) :: EvReleaseJob job_id
      :: EvWarning (msg_compress_execute_failed status)
      :: EvExecute qpl_path_hardware :: trace w1 /\
    hw_job_ptr_locks w' = hw_job_ptr_locks w /\
    (RET_ERROR <> 0 ->
     CompressionCodecDeflateQpl.doCompressData source source_size dest w = Ret 0 w') /\
    (RET_ERROR = 0 ->
     CompressionCodecDeflateQpl.doCompressData source source_size dest w
     = (r <- SoftwareCodecDeflateQpl.doCompressData source source_size dest
               (getMaxCompressedDataSize source_size) ;;
        ret (to_uint32 (to_int32 r))) w').
Proof.
  intros Hwf Hready Hacq Hjob0 Hfail.
  pose proof (hw_doCompressData_outcome source source_size dest
                (getMaxCompressedDataSize source_size) w Hwf) as Hout.
  rewrite Hacq in Hout.
  destruct Hout as (job0' & w' & Hjob0' & Hout).
  rewrite Hjob0 in Hjob0'. injection Hjob0' as <-.
  cbv zeta in Hout. rewrite Hfail in Hout.
  destruct Hout as (Hrun & Htrace & Hlocks & _).
  eexists. exists w'. split; [exact Hrun|]. split; [exact Htrace|].
  split; [exact Hlocks|].
  unfold CompressionCodecDeflateQpl.doCompressData,
    DeflateQplJobHWPool.isJobPoolReady.
  mstep. rewrite Hready, Hrun.
  split.
  - intros Hne.
    rewrite (proj2 (Z.eqb_neq 0 RET_ERROR)) by congruence.
    reflexivity.
  - intros He. rewrite He. cbn [Z.eqb].
    rewrite !bind_eq.
    destruct (SoftwareCodecDeflateQpl.doCompressData _ _ _ _ w'); reflexivity.
Qed.

(** [HardwareCodecDeflateQpl::doDecompressDataAsynchronous], case by case
    on what [acquireJob] and [qpl_submit_job] answer. *)
Lemma hw_doDecompressDataAsynchronous_outcome
    source source_size dest uncompressed_size w :
  pool_wf w ->
  match DeflateQplJobHWPool.acquireJob 0 w with
  | Ret (None, _) w1 =>
      HardwareCodecDeflateQpl.doDecompressDataAsynchronous source source_size
        dest uncompressed_size w
      = Ret RET_ERROR
          (set_trace (EvWarning msg_decompress_acquire_failed :: trace w1) w1)
  | Ret (Some job_ptr, job_id) w1 =>
      exists i job0 w',
        0 <= i < MAX_HW_JOB_NUMBER /\ job_ptr = Z.to_nat i /\
        job_id = MAX_HW_JOB_NUMBER - i /\
        hw_job_ptr_locks w !! Z.to_nat i = Some false /\
        hw_job_ptr_locks w1 = <[Z.to_nat i := true]> (hw_job_ptr_locks w) /\
        hw_jobs_buffer w !! job_ptr = Some job0 /\
        let job := HardwareCodecDeflateQpl.decompress_job job0 source source_size
                     dest uncompressed_size in
        let status := qpl_submit_status job_ptr job in
        (if status_is_ok status
        then HardwareCodecDeflateQpl.doDecompressDataAsynchronous source
               source_size dest uncompressed_size w = Ret job_id w' /\
             decomp_async_job_map w'
             = StdMap.insert job_id job_ptr (decomp_async_job_map w) /\
             hw_job_ptr_locks w' = hw_job_ptr_locks w1 /\
             hw_jobs_buffer w'
             = <[job_ptr := Qpl.with_job_state job (job_submitted 0)]> (hw_jobs_buffer w) /\
             trace w' = EvSubmit job_ptr :: trace w1
        else HardwareCodecDeflateQpl.doDecompressDataAsynchronous source
               source_size dest uncompressed_size w = Ret RET_ERROR w' /\
             decomp_async_job_map w' = decomp_async_job_map w /\
             hw_job_ptr_locks w' = hw_job_ptr_locks w /\
             hw_jobs_buffer w' = <[job_ptr := job]> (hw_jobs_buffer w) /\
             trace w'
             = EvWarning (msg_decompress_submit_failed status)
               :: EvUnlock (MAX_HW_JOB_NUMBER - job_id) :: EvReleaseJob job_id
               :: EvSubmit job_ptr :: trace w1) /\
        mem w' = mem w /\ sw_job w' = sw_job w /\
        decompress_mode w' = decompress_mode w /\ pool_shape w w' /\
        random_engine w' = random_engine w1
  | _ => False
  end.
Proof.
  pose proof MAX_HW_JOB_NUMBER_range as HN.
  intros Hwf.
  pose proof (acquireJob_outcome 0 w Hwf) as Hout.
  unfold HardwareCodecDeflateQpl.doDecompressDataAsynchronous. rewrite bind_eq.
  destruct (DeflateQplJobHWPool.acquireJob 0 w) as [[p id] w1| | |];
    try contradiction.
  destruct Hout as (Hframe & Hrel & [Hnr | [Hgave | Hgot]]).
  - destruct Hnr as (_ & -> & _). reflexivity.
  - destruct Hgave as (_ & -> & _). reflexivity.
  - destruct Hgot as (Hready & i & Hi & -> & -> & Hfree & Hlocks & Hfail).
    destruct (lookup_job_block w i Hwf Hi) as [job0 Hjob0].
    destruct Hframe as (Hp1 & Hr1 & Hb1 & Hm1 & Hs1 & Hd1 & Hmem1).
    assert (pool_wf w1) as Hwf1.
    { apply (pool_wf_shape w); [|exact Hwf].
      unfold pool_shape. rewrite Hp1, Hr1, Hb1, Hlocks, length_insert. tauto. }
    assert (Z.to_nat i < length (hw_jobs_buffer w1))%nat as Hlt
      by (rewrite Hb1; apply lookup_lt_Some in Hjob0; exact Hjob0).
    assert (MAX_HW_JOB_NUMBER - (MAX_HW_JOB_NUMBER - i) = i) as Heq by lia.
    set (job := HardwareCodecDeflateQpl.decompress_job job0 source source_size
                  dest uncompressed_size).
    destruct (status_is_ok (qpl_submit_status (Z.to_nat i) job)) eqn:Hok;
      exists i, job0; eexists;
      (do 5 (split; [first [assumption | reflexivity]|]));
      (split; [exact Hjob0|]); cbv zeta; fold job; rewrite Hok; msimpl;
      rewrite bind_eq, (read_hw_job_spec _ job0) by (rewrite Hb1; exact Hjob0);
      rewrite bind_eq, write_hw_job_spec; rewrite bind_eq; fold job;
      erewrite qpl_submit_job_spec
        by (msimpl; apply list_lookup_insert_eq; exact Hlt);
      rewrite Hok.
    + mstep. rewrite to_int32_job_id by exact Hi.
      split; [split; [reflexivity|]|]; msimpl.
      * rewrite Hm1, Hb1, list_insert_insert_eq. repeat split.
      * unfold pool_shape. msimpl. rewrite Hlocks, !length_insert, Hb1.
        repeat split; assumption.
    + mstep.
      rewrite releaseJob_ready; msimpl; [| | congruence | lia].
      2:{ apply (pool_wf_shape w1); [|exact Hwf1].
          unfold pool_shape. msimpl. rewrite !length_insert. tauto. }
      mstep. rewrite Heq.
      split; [split; [reflexivity|]|]; msimpl.
      * rewrite Hlocks, list_insert_insert_eq, (list_insert_id _ _ _ Hfree).
        rewrite Hb1. repeat split; assumption.
      * unfold pool_shape. msimpl. rewrite !length_insert.
        rewrite Hlocks, length_insert, Hb1.
        repeat split; assumption.
Qed.

Lemma in_flight_held_same w w' :
  decomp_async_job_map w' = decomp_async_job_map w ->
  hw_job_ptr_locks w' = hw_job_ptr_locks w ->
  in_flight_held w -> in_flight_held w'.
Proof. unfold in_flight_held. intros -> ->. tauto. Qed.

(** C5: a submission is all or nothing.  Once a slot is acquired, a
    refused submission releases the slot and returns [RET_ERROR], with the
    in-flight map and the locks exactly as before the call; an accepted one
    returns the job id, which is not [RET_ERROR], keeps the lock, and adds
    to the map the one entry [(job_id, job_ptr)], under a key that was not
    there.  Invariant I3 holds afterwards in both cases. *)
Theorem submit_decompress_atomic
    source source_size dest uncompressed_size w job_ptr job_id w1 job0 :
  pool_wf w -> in_flight_held w ->
  DeflateQplJobHWPool.acquireJob 0 w = Ret (Some job_ptr, job_id) w1 ->
  hw_jobs_buffer w !! job_ptr = Some job0 ->
  exists w',
    if status_is_ok
         (qpl_submit_status job_ptr
            (HardwareCodecDeflateQpl.decompress_job job0 source source_size dest
               uncompressed_size))
    then HardwareCodecDeflateQpl.doDecompressDataAsynchronous source source_size
           dest uncompressed_size w = Ret job_id w' /\
         job_id <> RET_ERROR /\
         decomp_async_job_map w'
         = StdMap.insert job_id job_ptr (decomp_async_job_map w) /\
         (forall ptr, (job_id, ptr) ∉ decomp_async_job_map w) /\
         decomp_async_job_map w' ≡ₚ (job_id, job_ptr) :: decomp_async_job_map w /\
         hw_job_ptr_locks w' !! Z.to_nat (MAX_HW_JOB_NUMBER - job_id) = Some true /\
         released_ids (trace w') = released_ids (trace w) /\
         in_flight_held w'
    else HardwareCodecDeflateQpl.doDecompressDataAsynchronous source source_size
           dest uncompressed_size w = Ret RET_ERROR w' /\
         decomp_async_job_map w' = decomp_async_job_map w /\
         hw_job_ptr_locks w' = hw_job_ptr_locks w /\
         released_ids (trace w') = job_id :: released_ids (trace w) /\
         in_flight_held w'.
Proof.
  pose proof MAX_HW_JOB_NUMBER_range as HN.
  pose proof RET_ERROR_range as HE.
  intros Hwf Hinv Hacq Hjob0.
  pose proof (acquireJob_outcome 0 w Hwf) as Hrel. rewrite Hacq in Hrel.
  destruct Hrel as (_ & Hrel & _).
  pose proof (hw_doDecompressDataAsynchronous_outcome source source_size dest
                uncompressed_size w Hwf) as Hout.
  rewrite Hacq in Hout.
  destruct Hout as (i & job0' & w' & Hi & -> & -> & Hfree & Hlocks & Hjob0' & Hout).
  rewrite Hjob0 in Hjob0'. injection Hjob0' as <-.
  cbv zeta in Hout. destruct Hout as (Hout & _).
  assert (MAX_HW_JOB_NUMBER - (MAX_HW_JOB_NUMBER - i) = i) as Heq by lia.
  assert (forall ptr, (MAX_HW_JOB_NUMBER - i, ptr) ∉ decomp_async_job_map w) as Hnew.
  { intros ptr Hin. destruct Hinv as (_ & Hheld).
    destruct (Hheld _ _ Hin) as (_ & Hlock). rewrite Heq in Hlock. congruence. }
  exists w'.
  destruct (status_is_ok _).
  - destruct Hout as (Hrun & Hmap & Hlocks' & Hbuf & Htrace).
    assert (Z.to_nat i < length (hw_job_ptr_locks w))%nat as Hlt
      by (apply lookup_lt_Some in Hfree; exact Hfree).
    split; [exact Hrun|]. split; [lia|]. split; [exact Hmap|].
    split; [exact Hnew|].
    split; [rewrite Hmap; apply map_insert_fresh; exact Hnew|].
    split; [rewrite Heq, Hlocks', Hlocks; apply list_lookup_insert_eq; exact Hlt|].
    split; [rewrite Htrace; exact Hrel|].
    destruct Hinv as (Hok & Hheld). split.
    + rewrite Hmap. apply map_insert_ok. exact Hok.
    + intros id ptr Hin. rewrite Hmap in Hin.
      apply map_insert_elem_of in Hin. rewrite Hlocks', Hlocks.
      destruct Hin as [Hin|Hin].
      * injection Hin as -> ->. split; [lia|].
        rewrite Heq. apply list_lookup_insert_eq. exact Hlt.
      * destruct (Hheld _ _ Hin) as (Hid & Hlock). split; [exact Hid|].
        destruct (decide (Z.to_nat i = Z.to_nat (MAX_HW_JOB_NUMBER - id))) as [<-|Hne].
        -- apply list_lookup_insert_eq. exact Hlt.
        -- rewrite list_lookup_insert_ne by exact Hne. exact Hlock.
  - destruct Hout as (Hrun & Hmap & Hlocks' & Hbuf & Htrace).
    split; [exact Hrun|]. split; [exact Hmap|]. split; [exact Hlocks'|].
    split; [rewrite Htrace; cbn; rewrite Hrel; reflexivity|].
    apply (in_flight_held_same w); assumption.
Qed.

(** *** The drain *)

Lemma job_result_not_being_processed path job w :
  status_is_being_processed (fst (Qpl.job_result path job w)) = false.
Proof.
  unfold Qpl.job_result. cbn [fst].
  destruct (fst (qpl_run path (Qpl.job_request job) (Qpl.job_input w job)));
    reflexivity.
Qed.

Lemma wrap_iterator_spec it w :
  HardwareCodecDeflateQpl.wrap_iterator it w
  = if (it =? length (decomp_async_job_map w))%nat
    then Ret 0%nat (set_trace (EvPause :: trace w) w)
    else Ret it w.
Proof.
  unfold HardwareCodecDeflateQpl.wrap_iterator. mstep.
  destruct (it =? _)%nat; reflexivity.
Qed.

(** What a poll does to the world. *)
Lemma qpl_check_job_outcome ptr job w :
  hw_jobs_buffer w !! ptr = Some job ->
  exists status w2,
    Qpl.qpl_check_job ptr w = Ret status w2 /\
    decomp_async_job_map w2 = decomp_async_job_map w /\
    hw_job_ptr_locks w2 = hw_job_ptr_locks w /\
    pool_shape w w2 /\ sw_job w2 = sw_job w /\
    decompress_mode w2 = decompress_mode w /\
    released_ids (trace w2) = released_ids (trace w) /\
    (forall p, p <> ptr -> hw_jobs_buffer w2 !! p = hw_jobs_buffer w !! p) /\
    ((status_is_being_processed status = true /\
      exists polls, job_state job = job_submitted polls /\
        qpl_busy ptr polls = true /\
        hw_jobs_buffer w2 !! ptr
        = Some (Qpl.with_job_state job (job_submitted (S polls))))
     \/ (status_is_being_processed status = false /\
         exists job2, hw_jobs_buffer w2 !! ptr = Some job2 /\
           job_state job2 = job_idle)).
Proof.
  intros Hjob. rewrite (qpl_check_job_spec ptr job w Hjob).
  assert (ptr < length (hw_jobs_buffer w))%nat as Hlt
    by (apply lookup_lt_Some in Hjob; exact Hjob).
  destruct (job_state job) as [|polls] eqn:Hstate.
  - eexists. eexists. split; [reflexivity|]. unfold pool_shape. msimpl.
    repeat split. right. split; [reflexivity|]. eauto.
  - destruct (qpl_busy ptr polls) eqn:Hbusy.
    + eexists. eexists. split; [reflexivity|]. unfold pool_shape. msimpl.
      rewrite length_insert. repeat split.
      * intros p Hp. apply list_lookup_insert_ne. congruence.
      * left. split; [reflexivity|]. exists polls.
        split; [reflexivity|]. split; [exact Hbusy|].
        apply list_lookup_insert_eq. exact Hlt.
    + eexists. eexists. split; [reflexivity|]. unfold pool_shape. msimpl.
      rewrite length_insert. repeat split.
      * intros p Hp. apply list_lookup_insert_ne. congruence.
      * right. split; [apply job_result_not_being_processed|].
        eexists. split; [apply list_lookup_insert_eq; exact Hlt|]. reflexivity.
Qed.

(** What [releaseJob] does to the world, whether the pool is ready or
    not. *)
Lemma releaseJob_outcome job_id w :
  pool_wf w -> 1 <= job_id <= MAX_HW_JOB_NUMBER ->
  exists p w',
    DeflateQplJobHWPool.releaseJob job_id w = Ret p w' /\
    released_ids (trace w') = job_id :: released_ids (trace w) /\
    decomp_async_job_map w' = decomp_async_job_map w /\
    hw_jobs_buffer w' = hw_jobs_buffer w /\
    pool_shape w w' /\ sw_job w' = sw_job w /\
    decompress_mode w' = decompress_mode w /\ mem w' = mem w /\
    hw_job_ptr_locks w'
    = (if job_pool_ready w
       then <[Z.to_nat (MAX_HW_JOB_NUMBER - job_id) := false]> (hw_job_ptr_locks w)
       else hw_job_ptr_locks w) /\
    random_engine w' = random_engine w.
Proof.
  intros Hwf Hid. destruct (job_pool_ready w) eqn:Hready.
  - rewrite (releaseJob_ready job_id w Hwf Hready Hid).
    eexists. eexists. split; [reflexivity|]. unfold pool_shape. msimpl.
    rewrite length_insert. repeat split.
  - rewrite (releaseJob_not_ready job_id w Hready).
    eexists. eexists. split; [reflexivity|]. unfold pool_shape. msimpl.
    repeat split.
Qed.

Lemma drain_measure_delete B (m : list (Z * nat)) (it : nat) e :
  m !! it = Some e ->
  (drain_measure B (delete it m) + S (B (snd e)) = drain_measure B m)%nat.
Proof.
  revert it. induction m as [|e0 m IH]; intros it Hit.
  - rewrite lookup_nil in Hit. discriminate.
  - destruct it as [|it].
    + injection Hit as ->. unfold drain_measure. cbn. lia.
    + change (delete (S it) (e0 :: m)) with (e0 :: delete it m).
      specialize (IH it Hit). unfold drain_measure in *. cbn in *. lia.
Qed.

Lemma drain_measure_le B B' (m : list (Z * nat)) :
  (forall p, B' p <= B p)%nat -> (drain_measure B' m <= drain_measure B m)%nat.
Proof.
  intros Hle. induction m as [|e m IH]; unfold drain_measure in *; cbn.
  - lia.
  - specialize (Hle (snd e)). lia.
Qed.

Lemma drain_measure_lt B B' (m : list (Z * nat)) (it : nat) e :
  (forall p, B' p <= B p)%nat -> m !! it = Some e ->
  (B' (snd e) < B (snd e))%nat ->
  (drain_measure B' m < drain_measure B m)%nat.
Proof.
  intros Hle. revert it. induction m as [|e0 m IH]; intros it Hit Hlt.
  - rewrite lookup_nil in Hit. discriminate.
  - destruct it as [|it].
    + injection Hit as ->.
      pose proof (drain_measure_le B B' m Hle).
      unfold drain_measure in *. cbn. lia.
    + specialize (IH it Hit Hlt). specialize (Hle (snd e0)).
      unfold drain_measure in *. cbn. lia.
Qed.

Lemma drain_measure_pos B (m : list (Z * nat)) (it : nat) :
  (it < length m)%nat -> (0 < drain_measure B m)%nat.
Proof.
  destruct m; cbn; [lia|]. intros _. unfold drain_measure. cbn. lia.
Qed.

Lemma drained_transport w w2 w' ids :
  hw_job_ptr_locks w2 = hw_job_ptr_locks w ->
  released_ids (trace w2) = released_ids (trace w) ->
  pool_shape w w2 -> sw_job w2 = sw_job w ->
  decompress_mode w2 = decompress_mode w ->
  drained w2 w' ids -> drained w w' ids.
Proof.
  intros Hlocks Hrel Hshape Hsw Hmode (Hm & Hr & Hs & Hs' & Hd & Hi & Hii).
  unfold drained. rewrite Hr, Hrel, Hs', Hsw, Hd, Hmode.
  repeat split; try reflexivity.
  - exact Hm.
  - destruct (pool_shape_trans _ _ _ Hshape Hs) as (?&?&?&?). assumption.
  - destruct (pool_shape_trans _ _ _ Hshape Hs) as (?&?&?&?). assumption.
  - destruct (pool_shape_trans _ _ _ Hshape Hs) as (?&?&?&?). assumption.
  - destruct (pool_shape_trans _ _ _ Hshape Hs) as (?&?&?&?). assumption.
  - intros j Hj. rewrite <- Hlocks. apply Hi. exact Hj.
  - intros Hready. apply Hii. destruct Hshape as (_ & -> & _). exact Hready.
Qed.

Lemma lookup_lock_of_id (w : World) id :
  pool_wf w -> 1 <= id <= MAX_HW_JOB_NUMBER ->
  (Z.to_nat (MAX_HW_JOB_NUMBER - id) < length (hw_job_ptr_locks w))%nat.
Proof. intros (Hl & _) Hid. lia. Qed.

Lemma in_flight_valid_same w w' :
  decomp_async_job_map w' = decomp_async_job_map w ->
  length (hw_jobs_buffer w') = length (hw_jobs_buffer w) ->
  in_flight_valid w -> in_flight_valid w'.
Proof. unfold in_flight_valid. intros -> ->. tauto. Qed.

(** The drain loop ends once every job has reported, within a number of
    polls bounded by [drain_measure]. *)
Lemma flush_loop_drains n : forall fuel it B w,
  pool_wf w -> in_flight_valid w ->
  Z.of_nat (length (decomp_async_job_map w)) < 2 ^ 32 ->
  (forall id ptr, (id, ptr) ∈ decomp_async_job_map w ->
     reports_within w ptr (B ptr)) ->
  (it < length (decomp_async_job_map w))%nat ->
  (drain_measure B (decomp_async_job_map w) <= n)%nat -> (n <= fuel)%nat ->
  exists w' ids,
    HardwareCodecDeflateQpl.flush_loop fuel
      (Z.of_nat (length (decomp_async_job_map w))) it w = Ret tt w' /\
    ids ≡ₚ StdMap.keys (decomp_async_job_map w) /\
    drained w w' ids.
Proof.
  pose proof MAX_HW_JOB_NUMBER_range as HN.
  induction n as [|n IH]; intros fuel it B w Hwf Hval Hlen Hrep Hit Hmeas Hfuel.
  { pose proof (drain_measure_pos B _ it Hit). lia. }
  destruct fuel as [|fuel]; [lia|].
  destruct (decomp_async_job_map w !! it) as [[id ptr]|] eqn:Hentry;
    [|apply lookup_ge_None in Hentry; lia].
  assert ((id, ptr) ∈ decomp_async_job_map w) as Hin
    by (apply list_elem_of_lookup; eauto).
  destruct (Hval id ptr Hin) as [Hid Hptr].
  destruct (hw_jobs_buffer w !! ptr) as [job|] eqn:Hjob;
    [|apply lookup_ge_None in Hjob; lia].
  destruct (qpl_check_job_outcome ptr job w Hjob)
    as (status & w2 & Hcheck & Hmap2 & Hlocks2 & Hshape2 & Hsw2 & Hmode2 & Hrel2
        & Hbuf2 & Hcase).
  assert (pool_wf w2) as Hwf2 by (apply (pool_wf_shape w); assumption).
  assert (length (hw_jobs_buffer w2) = length (hw_jobs_buffer w)) as Hblen2
    by (destruct Hshape2 as (_ & _ & _ & ->); reflexivity).
  cbn [HardwareCodecDeflateQpl.flush_loop].
  rewrite (proj2 (Z.eqb_neq _ 0)) by lia.
  mstep. rewrite Hentry, bind_eq, Hcheck.
  destruct Hcase as [(Hbp & polls & Hstate & Hbusy & Hjob2)
                    | (Hnbp & job2 & Hjob2 & Hidle)].
  - (* the job is still being processed: move on *)
    rewrite Hbp, bind_eq, wrap_iterator_spec, Hmap2.
    set (B' := fun p => if decide (p = ptr) then pred (B p) else B p).
    assert (B ptr <> 0%nat) as HB.
    { intros HB0. pose proof (Hrep id ptr Hin job polls Hjob Hstate) as Hdone.
      rewrite HB0, Nat.add_0_r in Hdone. congruence. }
    assert (forall p, B' p <= B p)%nat as HB'le
      by (intros p; unfold B'; destruct (decide (p = ptr)); lia).
    assert (drain_measure B' (decomp_async_job_map w) <= n)%nat as Hmeas'.
    { pose proof (drain_measure_lt B B' _ it (id, ptr) HB'le Hentry) as Hlt.
      cbn [snd] in Hlt. unfold B' at 1 in Hlt.
      destruct (decide (ptr = ptr)); [|congruence]. lia. }
    assert (forall w3, hw_jobs_buffer w3 = hw_jobs_buffer w2 ->
              forall id' ptr', (id', ptr') ∈ decomp_async_job_map w ->
                reports_within w3 ptr' (B' ptr')) as Hrep'.
    { intros w3 Hb3 id' ptr' Hin' job' polls' Hjob' Hstate'. rewrite Hb3 in Hjob'.
      unfold B'. destruct (decide (ptr' = ptr)) as [->|Hne].
      - rewrite Hjob2 in Hjob'. injection Hjob' as <-. cbn in Hstate'.
        injection Hstate' as <-.
        pose proof (Hrep id ptr Hin job polls Hjob Hstate) as Hdone.
        replace (S polls + pred (B ptr))%nat with (polls + B ptr)%nat by lia.
        exact Hdone.
      - rewrite (Hbuf2 ptr' Hne) in Hjob'.
        apply (Hrep id' ptr' Hin' job' polls' Hjob' Hstate'). }
    assert (forall it' w3,
              (it' < length (decomp_async_job_map w))%nat ->
              hw_jobs_buffer w3 = hw_jobs_buffer w2 ->
              decomp_async_job_map w3 = decomp_async_job_map w ->
              hw_job_ptr_locks w3 = hw_job_ptr_locks w ->
              released_ids (trace w3) = released_ids (trace w) ->
              pool_shape w w3 -> sw_job w3 = sw_job w ->
              decompress_mode w3 = decompress_mode w ->
              exists w' ids,
                HardwareCodecDeflateQpl.flush_loop fuel
                  (Z.of_nat (length (decomp_async_job_map w))) it' w3 = Ret tt w' /\
                ids ≡ₚ StdMap.keys (decomp_async_job_map w) /\
                drained w w' ids) as Hnext.
    { intros it' w3 Hit' Hb3 Hm3 Hl3 Hr3 Hs3 Hsw3 Hd3.
      destruct (IH fuel it' B' w3) as (w' & ids & Hrun & Hperm & Hdrained).
      - apply (pool_wf_shape w); assumption.
      - apply (in_flight_valid_same w); [assumption| |assumption].
        destruct Hs3 as (_ & _ & _ & ->). reflexivity.
      - rewrite Hm3. exact Hlen.
      - rewrite Hm3. intros id' ptr'. apply Hrep'. exact Hb3.
      - rewrite Hm3. exact Hit'.
      - rewrite Hm3. exact Hmeas'.
      - lia.
      - rewrite Hm3 in Hrun, Hperm. exists w', ids.
        split; [exact Hrun|]. split; [exact Hperm|].
        apply (drained_transport w w3); assumption. }
    destruct (S it =? length (decomp_async_job_map w))%nat eqn:Hend.
    + apply (Hnext 0%nat (set_trace (EvPause :: trace w2) w2)); msimpl;
        try assumption; try reflexivity; lia.
    + apply Nat.eqb_neq in Hend.
      apply (Hnext (S it) w2); try assumption; try reflexivity; lia.
  - (* the job has reported: release the slot and erase the entry *)
    rewrite Hnbp.
    destruct (releaseJob_outcome id w2 Hwf2 Hid)
      as (p & w3 & Hrelease & Hrel3 & Hmap3 & Hbuf3 & Hshape3 & Hsw3 & Hmode3
          & Hmem3 & Hlocks3 & _).
    rewrite bind_eq, Hrelease. mstep.
    rewrite to_uint32_small by lia.
    set (w4 := set_decomp_async_job_map (delete it (decomp_async_job_map w3)) w3).
    assert (decomp_async_job_map w4 = delete it (decomp_async_job_map w)) as Hmap4
      by (unfold w4; msimpl; rewrite Hmap3, Hmap2; reflexivity).
    assert (length (decomp_async_job_map w4)
            = pred (length (decomp_async_job_map w))) as Hlen4.
    { rewrite Hmap4, length_delete by (rewrite Hentry; eauto). lia. }
    assert (pool_shape w w4) as Hshape4.
    { apply (pool_shape_trans _ w2); [assumption|].
      apply (pool_shape_trans _ w3); [assumption|]. unfold w4, pool_shape. tauto. }
    assert (job_pool_ready w2 = job_pool_ready w) as Hready2
      by (destruct Hshape2 as (_ & -> & _); reflexivity).
    assert (forall j, Z.to_nat (MAX_HW_JOB_NUMBER - id) <> j ->
              hw_job_ptr_locks w4 !! j = hw_job_ptr_locks w !! j) as Hother.
    { intros j Hj. unfold w4. msimpl. rewrite Hlocks3, Hlocks2.
      destruct (job_pool_ready w2); [|reflexivity].
      apply list_lookup_insert_ne. exact Hj. }
    assert (job_pool_ready w = true ->
            hw_job_ptr_locks w4 !! Z.to_nat (MAX_HW_JOB_NUMBER - id) = Some false)
      as Hfreed.
    { intros Hready. unfold w4. msimpl. rewrite Hlocks3, Hready2, Hready, Hlocks2.
      apply list_lookup_insert_eq. apply lookup_lock_of_id; assumption. }
    assert (StdMap.keys (decomp_async_job_map w)
            ≡ₚ id :: StdMap.keys (decomp_async_job_map w4)) as Hkeys.
    { rewrite Hmap4. unfold StdMap.keys.
      rewrite (delete_Permutation _ it (id, ptr) Hentry) at 1. reflexivity. }
    destruct (Z.of_nat (length (decomp_async_job_map w)) - 1 <=? 0) eqn:Hlast.
    + (* it was the last entry *)
      apply Z.leb_le in Hlast.
      exists w4, [id]. split; [reflexivity|].
      assert (decomp_async_job_map w4 = []) as Hnil
        by (apply length_zero_iff_nil; lia).
      split; [rewrite Hkeys, Hnil; reflexivity|].
      unfold drained. split; [exact Hnil|].
      split; [unfold w4; msimpl; rewrite Hrel3, Hrel2; reflexivity|].
      split; [exact Hshape4|].
      split; [unfold w4; msimpl; congruence|].
      split; [unfold w4; msimpl; congruence|].
      split.
      * intros j Hj. apply Hother. apply Hj. apply list_elem_of_singleton. reflexivity.
      * intros Hready id' Hid'. apply list_elem_of_singleton in Hid'. subst id'.
        apply Hfreed. exact Hready.
    + apply Z.leb_gt in Hlast.
      rewrite bind_eq, wrap_iterator_spec. fold w4. rewrite Hlen4.
      assert (forall w5, hw_jobs_buffer w5 = hw_jobs_buffer w4 ->
                decomp_async_job_map w5 = decomp_async_job_map w4 ->
                forall id' ptr', (id', ptr') ∈ decomp_async_job_map w5 ->
                  reports_within w5 ptr' (B ptr')) as Hrep4.
      { intros w5 Hb5 Hm5 id' ptr' Hin' job' polls' Hjob' Hstate'.
        rewrite Hm5, Hmap4 in Hin'. apply list_elem_of_delete_inv in Hin'.
        rewrite Hb5 in Hjob'. unfold w4 in Hjob'. msimpl in Hjob'.
        rewrite Hbuf3 in Hjob'.
        destruct (decide (ptr' = ptr)) as [->|Hne].
        - rewrite Hjob2 in Hjob'. injection Hjob' as <-. congruence.
        - rewrite (Hbuf2 ptr' Hne) in Hjob'.
          apply (Hrep id' ptr' Hin' job' polls' Hjob' Hstate'). }
      assert (in_flight_valid w4) as Hval4.
      { intros id' ptr' Hin'. rewrite Hmap4 in Hin'.
        apply list_elem_of_delete_inv in Hin'.
        destruct (Hval id' ptr' Hin') as [? ?]. split; [assumption|].
        destruct Hshape4 as (_ & _ & _ & ->). assumption. }
      assert (drain_measure B (decomp_async_job_map w4) <= n)%nat as Hmeas4.
      { pose proof (drain_measure_delete B _ it (id, ptr) Hentry) as Hd.
        rewrite Hmap4. cbn [snd] in Hd. lia. }
      assert (Z.of_nat (length (decomp_async_job_map w)) - 1
              = Z.of_nat (length (decomp_async_job_map w4))) as Hn4 by lia.
      rewrite Hn4.
      assert (forall it' w5,
                (it' < length (decomp_async_job_map w4))%nat ->
                hw_jobs_buffer w5 = hw_jobs_buffer w4 ->
                decomp_async_job_map w5 = decomp_async_job_map w4 ->
                hw_job_ptr_locks w5 = hw_job_ptr_locks w4 ->
                released_ids (trace w5) = released_ids (trace w4) ->
                pool_shape w4 w5 -> sw_job w5 = sw_job w4 ->
                decompress_mode w5 = decompress_mode w4 ->
                exists w' ids,
                  HardwareCodecDeflateQpl.flush_loop fuel
                    (Z.of_nat (length (decomp_async_job_map w4))) it' w5 = Ret tt w' /\
                  ids ≡ₚ StdMap.keys (decomp_async_job_map w) /\
                  drained w w' ids) as Hnext.
      { intros it' w5 Hit' Hb5 Hm5 Hl5 Hr5 Hs5 Hsw5 Hd5.
        destruct (IH fuel it' B w5) as (w' & ids & Hrun & Hperm & Hdrained).
        - apply (pool_wf_shape w); [|assumption].
          apply (pool_shape_trans _ w4); assumption.
        - apply (in_flight_valid_same w4); [assumption| |assumption].
          destruct Hs5 as (_ & _ & _ & ->). reflexivity.
        - rewrite Hm5. lia.
        - apply Hrep4; assumption.
        - rewrite Hm5. exact Hit'.
        - rewrite Hm5. exact Hmeas4.
        - lia.
        - rewrite Hm5 in Hrun, Hperm. exists w', (ids ++ [id]).
          split; [exact Hrun|].
          split; [rewrite Hkeys, Hperm; apply Permutation_app_comm with (l' := [id])|].
          destruct Hdrained as (Hm' & Hr' & Hs' & Hsw' & Hd' & Hi' & Hii').
          unfold drained. split; [exact Hm'|].
          split.
          { rewrite Hr', Hr5. unfold w4. msimpl. rewrite Hrel3, Hrel2.
            rewrite <- app_assoc. reflexivity. }
          split.
          { apply (pool_shape_trans _ w4); [assumption|].
            apply (pool_shape_trans _ w5); assumption. }
          split; [rewrite Hsw', Hsw5; unfold w4; msimpl; congruence|].
          split; [rewrite Hd', Hd5; unfold w4; msimpl; congruence|].
          split.
          + intros j Hj. rewrite Hi', Hl5.
            * apply Hother. apply Hj. apply elem_of_app. right.
              apply list_elem_of_singleton. reflexivity.
            * intros id' Hid'. apply Hj. apply elem_of_app. left. exact Hid'.
          + intros Hready id' Hid'. apply elem_of_app in Hid'.
            assert (job_pool_ready w5 = true) as Hready5.
            { destruct Hs5 as (_ & -> & _). destruct Hshape4 as (_ & -> & _).
              exact Hready. }
            destruct Hid' as [Hid'|Hid'].
            * apply Hii'; assumption.
            * apply list_elem_of_singleton in Hid'. subst id'.
              destruct (decide (Exists (fun id' =>
                          Z.to_nat (MAX_HW_JOB_NUMBER - id')
                          = Z.to_nat (MAX_HW_JOB_NUMBER - id)) ids)) as [Hex|Hnex].
              -- apply Exists_exists in Hex. destruct Hex as (id' & Hid' & Heq).
                 rewrite <- Heq. apply Hii'; assumption.
              -- rewrite Hi', Hl5; [apply Hfreed; exact Hready|].
                 intros id' Hid' Heq. apply Hnex. apply Exists_exists.
                 exists id'. split; assumption. }
      destruct (it =? pred (length (decomp_async_job_map w)))%nat eqn:Hend.
      * apply (Hnext 0%nat (set_trace (EvPause :: trace w4) w4)); msimpl;
          try reflexivity; try lia. unfold pool_shape. tauto.
      * apply Nat.eqb_neq in Hend.
        apply (Hnext it w4); try reflexivity; try lia. apply pool_shape_refl.
Qed.

Lemma sorted_keys_bounded (l : list Z) : forall a b,
  StronglySorted Z.lt l -> (forall x, x ∈ l -> a <= x <= b) ->
  Z.of_nat (length l) <= Z.max 0 (b - a + 1).
Proof.
  induction l as [|x l IH]; intros a b Hs Hall.
  - cbn. lia.
  - apply StronglySorted_inv in Hs. destruct Hs as [Hs Hlt].
    rewrite List.Forall_forall in Hlt.
    assert (a <= x <= b) as Hx by (apply Hall; apply elem_of_cons; auto).
    specialize (IH (x + 1) b Hs).
    cbn [length]. rewrite Nat2Z.inj_succ.
    assert (Z.of_nat (length l) <= Z.max 0 (b - (x + 1) + 1)) as Hl.
    { apply IH. intros y Hy.
      assert (a <= y <= b) by (apply Hall; apply elem_of_cons; auto).
      specialize (Hlt y (proj1 (list_elem_of_In _ _) Hy)). lia. }
    lia.
Qed.

Lemma sorted_keys_NoDup (l : list Z) : StronglySorted Z.lt l -> NoDup l.
Proof.
  induction l as [|x l IH]; intros Hs.
  - constructor.
  - apply StronglySorted_inv in Hs. destruct Hs as [Hs Hlt].
    rewrite List.Forall_forall in Hlt. constructor; [|apply IH; exact Hs].
    intros Hin. specialize (Hlt x (proj1 (list_elem_of_In _ _) Hin)). lia.
Qed.

Lemma in_flight_length w :
  StdMap.ok (decomp_async_job_map w) -> in_flight_valid w ->
  Z.of_nat (length (decomp_async_job_map w)) <= MAX_HW_JOB_NUMBER.
Proof.
  pose proof MAX_HW_JOB_NUMBER_range as HN.
  intros Hok Hval.
  pose proof (sorted_keys_bounded (StdMap.keys (decomp_async_job_map w)) 1
                MAX_HW_JOB_NUMBER Hok) as Hb.
  unfold StdMap.keys in Hb. rewrite length_map in Hb.
  assert (Z.of_nat (length (decomp_async_job_map w))
          <= Z.max 0 (MAX_HW_JOB_NUMBER - 1 + 1)); [|lia].
  apply Hb. intros x Hx. apply list_elem_of_fmap in Hx.
  destruct Hx as ([id ptr] & -> & Hin). apply (Hval id ptr Hin).
Qed.

(** One bound per job block serves every entry of the map. *)
Lemma reporting_bounds w (m : list (Z * nat)) :
  (forall id ptr, (id, ptr) ∈ m -> eventually_reports w ptr) ->
  exists B, forall id ptr, (id, ptr) ∈ m -> reports_within w ptr (B ptr).
Proof.
  induction m as [|[id0 ptr0] m IH]; intros Hall.
  - exists (fun _ => 0%nat). intros id ptr Hin. apply elem_of_nil in Hin.
    contradiction.
  - destruct IH as [B HB].
    { intros id ptr Hin. apply (Hall id ptr). apply elem_of_cons. auto. }
    destruct (Hall id0 ptr0) as [b0 Hb0]; [apply elem_of_cons; auto|].
    exists (fun p => if decide (p = ptr0) then b0 else B p).
    intros id ptr Hin. destruct (decide (ptr = ptr0)) as [->|Hne]; [exact Hb0|].
    apply elem_of_cons in Hin. destruct Hin as [Heq|Hin].
    + injection Heq as -> ->. congruence.
    + apply (HB id ptr Hin).
Qed.

(** C4: the drain.  On a well-formed pool and map, if the job of every
    entry eventually reports a status other than [QPL_STS_BEING_PROCESSED]
    when polled, [flushAsynchronousDecompressRequests] terminates (every
    fuel from some bound on returns).  When it returns the in-flight map is
    empty, and the calls of [releaseJob] it made are, up to their order,
    the keys that were in the map: one call for each job id, none for any
    other.  On a ready pool the locks of those slots are free afterwards;
    the other locks are as they were. *)
Theorem drain_terminates_and_releases w :
  pool_wf w -> StdMap.ok (decomp_async_job_map w) -> in_flight_valid w ->
  (forall id ptr, (id, ptr) ∈ decomp_async_job_map w -> eventually_reports w ptr) ->
  exists fuel0, forall fuel, (fuel0 <= fuel)%nat ->
    exists w' ids,
      HardwareCodecDeflateQpl.flushAsynchronousDecompressRequests fuel w = Ret tt w' /\
      decomp_async_job_map w' = [] /\
      released_ids (trace w') = ids ++ released_ids (trace w) /\
      ids ≡ₚ StdMap.keys (decomp_async_job_map w) /\
      NoDup ids /\
      (job_pool_ready w = true ->
       forall id, id ∈ ids ->
         hw_job_ptr_locks w' !! Z.to_nat (MAX_HW_JOB_NUMBER - id) = Some false) /\
      (forall j : nat,
         (forall id, id ∈ ids -> Z.to_nat (MAX_HW_JOB_NUMBER - id) <> j) ->
         hw_job_ptr_locks w' !! j = hw_job_ptr_locks w !! j).
Proof.
  pose proof MAX_HW_JOB_NUMBER_range as HN.
  intros Hwf Hok Hval Hlive.
  destruct (reporting_bounds w _ Hlive) as [B HB].
  pose proof (in_flight_length w Hok Hval) as Hlen.
  exists (drain_measure B (decomp_async_job_map w)). intros fuel Hfuel.
  unfold HardwareCodecDeflateQpl.flushAsynchronousDecompressRequests. mstep.
  rewrite to_uint32_small by lia.
  destruct (decomp_async_job_map w) as [|e m] eqn:Hm.
  - exists w, []. destruct fuel; cbn; rewrite Hm; repeat split; try constructor;
      intros; match goal with H : _ ∈ [] |- _ => apply elem_of_nil in H; contradiction end.
  - rewrite <- Hm in *.
    destruct (flush_loop_drains (drain_measure B (decomp_async_job_map w)) fuel
                0%nat B w) as (w' & ids & Hrun & Hperm & Hdrained);
      try assumption; try lia.
    { rewrite Hm. cbn. lia. }
    destruct Hdrained as (Hm' & Hr' & _ & _ & _ & Hi' & Hii').
    exists w', ids. repeat split; try assumption.
    rewrite Hperm. apply sorted_keys_NoDup. exact Hok.
Qed.

(** *** The drain of a single job *)



End Hardware.

(** ** The dispatching codec *)

Section Dispatch.
Context {hdr : Header} {acc : Accelerator}.



(** The software codec always returns or throws, and leaves the pool and
    the in-flight map alone. *)
Lemma sw_doDecompressData_final source source_size dest uncompressed_size w :
  exists w',
    final_world (SoftwareCodecDeflateQpl.doDecompressData source source_size dest
                   uncompressed_size w) = Some w' /\
    decomp_async_job_map w' = decomp_async_job_map w /\
    hw_job_ptr_locks w' = hw_job_ptr_locks w /\
    job_pool_ready w' = job_pool_ready w /\
    hw_job_ptr_pool w' = hw_job_ptr_pool w /\
    hw_jobs_buffer w' = hw_jobs_buffer w /\
    decompress_mode w' = decompress_mode w /\
    released_ids (trace w') = released_ids (trace w) /\
    filter (on_path qpl_path_hardware) (trace w')
    = filter (on_path qpl_path_hardware) (trace w).
Proof.
  rewrite sw_doDecompressData_outcome. cbv zeta.
  unfold after_sw_execute, after_getJobCodecPtr.
  destruct (sw_job_available w); [destruct (status_is_ok _)|];
    destruct (sw_job w); eexists; (split; [reflexivity|]); msimpl; repeat split.
Qed.

Lemma sw_doCompressData_final source source_size dest dest_size w :
  exists w',
    final_world (SoftwareCodecDeflateQpl.doCompressData source source_size dest
                   dest_size w) = Some w' /\
    decomp_async_job_map w' = decomp_async_job_map w /\
    hw_job_ptr_locks w' = hw_job_ptr_locks w /\
    job_pool_ready w' = job_pool_ready w /\
    hw_job_ptr_pool w' = hw_job_ptr_pool w /\
    hw_jobs_buffer w' = hw_jobs_buffer w /\
    decompress_mode w' = decompress_mode w /\
    released_ids (trace w') = released_ids (trace w) /\
    filter (on_path qpl_path_hardware) (trace w')
    = filter (on_path qpl_path_hardware) (trace w).
Proof.
  rewrite sw_doCompressData_outcome. cbv zeta.
  unfold after_sw_execute, after_getJobCodecPtr.
  destruct (sw_job_available w); [destruct (status_is_ok _)|];
    destruct (sw_job w); eexists; (split; [reflexivity|]); msimpl; repeat split.
Qed.





End Dispatch.

(** ** What stays as it is *)

Section Preservation.
Context {hdr : Header} {acc : Accelerator}.

Lemma preserves_ret {A} I (a : A) : preserves I (ret a).
Proof. intros w Hw. exact Hw. Qed.

Lemma preserves_bind {A B} I (m : M A) (k : A -> M B) :
  preserves I m -> (forall a, preserves I (k a)) -> preserves I (bind m k).
Proof.
  intros Hm Hk w Hw. rewrite bind_eq. specialize (Hm w Hw).
  destruct (m w) as [a w'|c w'| |]; [|exact Hm..].
  apply Hk. exact Hm.
Qed.

Lemma preserves_get I : preserves I get.
Proof. intros w Hw. exact Hw. Qed.

Lemma preserves_modify I f : (forall w, I w -> I (f w)) -> preserves I (modify f).
Proof. intros Hf w Hw. apply Hf. exact Hw. Qed.

Lemma preserves_throw {A} I code : preserves I (@throw A code).
Proof. intros w Hw. exact Hw. Qed.

Lemma preserves_undefined {A} I : preserves I (@undefined A).
Proof. intros w Hw. exact Logic.I. Qed.

Lemma preserves_out_of_fuel {A} I : preserves I (@out_of_fuel A).
Proof. intros w Hw. exact Logic.I. Qed.

Lemma preserves_log e : preserves not_ready (log e).
Proof. apply preserves_modify. intros w Hw. exact Hw. Qed.

Lemma preserves_assert I c : preserves I (assert c).
Proof. destruct c; [apply preserves_ret | apply preserves_undefined]. Qed.

End Preservation.

Create HintDb not_ready.

#[export] Hint Resolve preserves_ret preserves_get preserves_throw
  preserves_undefined preserves_out_of_fuel preserves_log preserves_assert
  : not_ready.

(** One step of a proof that a call keeps the pool not ready: through a
    bind, into the branches of a test, or by a fact already known. *)
Ltac not_ready_step :=
  match goal with
  | |- preserves _ (bind _ _) => apply preserves_bind; [|intros ?]
  | |- preserves _ (modify _) =>
      apply preserves_modify; let w := fresh "w" in
      let Hw := fresh "Hw" in intros w Hw; first [exact Hw | reflexivity]
  | |- preserves _ (if ?c then _ else _) => destruct c
  | |- preserves _ (match ?x with _ => _ end) => destruct x
  | |- preserves _ _ => solve [eauto with not_ready]
  end.

Ltac not_ready_auto := repeat not_ready_step.

Section NotReady.
Context {hdr : Header} {acc : Accelerator}.

Lemma not_ready_isJobPoolReady :
  preserves not_ready DeflateQplJobHWPool.isJobPoolReady.
Proof. unfold DeflateQplJobHWPool.isJobPoolReady. not_ready_auto. Qed.

Lemma not_ready_distribution : preserves not_ready DeflateQplJobHWPool.distribution.
Proof. unfold DeflateQplJobHWPool.distribution. not_ready_auto. Qed.

Lemma not_ready_tryLockJob index :
  preserves not_ready (DeflateQplJobHWPool.tryLockJob index).
Proof. unfold DeflateQplJobHWPool.tryLockJob. not_ready_auto. Qed.

Lemma not_ready_unLockJob index :
  preserves not_ready (DeflateQplJobHWPool.unLockJob index).
Proof. unfold DeflateQplJobHWPool.unLockJob. not_ready_auto. Qed.

Lemma not_ready_job_ptr_at index :
  preserves not_ready (DeflateQplJobHWPool.job_ptr_at index).
Proof. unfold DeflateQplJobHWPool.job_ptr_at. not_ready_auto. Qed.

Lemma not_ready_set_job_ptr_at index p :
  preserves not_ready (DeflateQplJobHWPool.set_job_ptr_at index p).
Proof. unfold DeflateQplJobHWPool.set_job_ptr_at. not_ready_auto. Qed.

Lemma not_ready_read_hw_job ptr : preserves not_ready (Qpl.read_hw_job ptr).
Proof. unfold Qpl.read_hw_job. not_ready_auto. Qed.

Lemma not_ready_write_hw_job ptr job : preserves not_ready (Qpl.write_hw_job ptr job).
Proof. unfold Qpl.write_hw_job. not_ready_auto. Qed.

Lemma not_ready_complete_job path job : preserves not_ready (Qpl.complete_job path job).
Proof. unfold Qpl.complete_job. not_ready_auto. Qed.

Hint Resolve not_ready_isJobPoolReady not_ready_distribution not_ready_tryLockJob
  not_ready_unLockJob not_ready_job_ptr_at not_ready_set_job_ptr_at
  not_ready_read_hw_job not_ready_write_hw_job not_ready_complete_job : not_ready.

Lemma not_ready_qpl_execute_job_hw ptr :
  preserves not_ready (Qpl.qpl_execute_job_hw ptr).
Proof. unfold Qpl.qpl_execute_job_hw. not_ready_auto. Qed.

Lemma not_ready_qpl_submit_job ptr : preserves not_ready (Qpl.qpl_submit_job ptr).
Proof. unfold Qpl.qpl_submit_job. not_ready_auto. Qed.

Lemma not_ready_qpl_check_job ptr : preserves not_ready (Qpl.qpl_check_job ptr).
Proof. unfold Qpl.qpl_check_job. not_ready_auto. Qed.

Lemma not_ready_qpl_execute_job_sw : preserves not_ready Qpl.qpl_execute_job_sw.
Proof. unfold Qpl.qpl_execute_job_sw. not_ready_auto. Qed.

Lemma not_ready_acquire_loop fuel : forall index retry,
  preserves not_ready (DeflateQplJobHWPool.acquire_loop fuel index retry).
Proof.
  induction fuel as [|fuel IH]; intros index retry;
    cbn [DeflateQplJobHWPool.acquire_loop]; not_ready_auto.
Qed.

Hint Resolve not_ready_qpl_execute_job_hw not_ready_qpl_submit_job
  not_ready_qpl_check_job not_ready_qpl_execute_job_sw not_ready_acquire_loop
  : not_ready.

Lemma not_ready_acquireJob job_id :
  preserves not_ready (DeflateQplJobHWPool.acquireJob job_id).
Proof. unfold DeflateQplJobHWPool.acquireJob. not_ready_auto. Qed.

Lemma not_ready_releaseJob job_id :
  preserves not_ready (DeflateQplJobHWPool.releaseJob job_id).
Proof. unfold DeflateQplJobHWPool.releaseJob. not_ready_auto. Qed.

Lemma not_ready_fini_jobs indices :
  preserves not_ready (DeflateQplJobHWPool.fini_jobs indices).
Proof.
  induction indices as [|i indices IH];
    cbn [DeflateQplJobHWPool.fini_jobs]; not_ready_auto.
Qed.

Hint Resolve not_ready_acquireJob not_ready_releaseJob not_ready_fini_jobs
  : not_ready.

Lemma not_ready_pool_destructor : preserves not_ready DeflateQplJobHWPool.destructor.
Proof. unfold DeflateQplJobHWPool.destructor. not_ready_auto. Qed.

Lemma not_ready_release_all entries :
  preserves not_ready (HardwareCodecDeflateQpl.release_all entries).
Proof.
  induction entries as [|it entries IH];
    cbn [HardwareCodecDeflateQpl.release_all]; not_ready_auto.
Qed.

Hint Resolve not_ready_pool_destructor not_ready_release_all : not_ready.

Lemma not_ready_hw_destructor ndebug :
  preserves not_ready (HardwareCodecDeflateQpl.destructor ndebug).
Proof. unfold HardwareCodecDeflateQpl.destructor. not_ready_auto. Qed.

Lemma not_ready_hw_doCompressData source source_size dest dest_size :
  preserves not_ready
    (HardwareCodecDeflateQpl.doCompressData source source_size dest dest_size).
Proof. unfold HardwareCodecDeflateQpl.doCompressData. not_ready_auto. Qed.

Lemma not_ready_hw_doDecompressDataAsynchronous source source_size dest size :
  preserves not_ready
    (HardwareCodecDeflateQpl.doDecompressDataAsynchronous source source_size dest size).
Proof. unfold HardwareCodecDeflateQpl.doDecompressDataAsynchronous. not_ready_auto. Qed.

Lemma not_ready_wrap_iterator it :
  preserves not_ready (HardwareCodecDeflateQpl.wrap_iterator it).
Proof. unfold HardwareCodecDeflateQpl.wrap_iterator. not_ready_auto. Qed.

Hint Resolve not_ready_hw_destructor not_ready_hw_doCompressData
  not_ready_hw_doDecompressDataAsynchronous not_ready_wrap_iterator : not_ready.

Lemma not_ready_flush_loop fuel : forall n it,
  preserves not_ready (HardwareCodecDeflateQpl.flush_loop fuel n it).
Proof.
  induction fuel as [|fuel IH]; intros n it;
    cbn [HardwareCodecDeflateQpl.flush_loop]; not_ready_auto.
Qed.

Hint Resolve not_ready_flush_loop : not_ready.

Lemma not_ready_hw_flush fuel :
  preserves not_ready
    (HardwareCodecDeflateQpl.flushAsynchronousDecompressRequests fuel).
Proof.
  unfold HardwareCodecDeflateQpl.flushAsynchronousDecompressRequests.
  not_ready_auto.
Qed.

Lemma not_ready_getJobCodecPtr :
  preserves not_ready SoftwareCodecDeflateQpl.getJobCodecPtr.
Proof. unfold SoftwareCodecDeflateQpl.getJobCodecPtr. not_ready_auto. Qed.

Lemma not_ready_update_sw_job f :
  preserves not_ready (SoftwareCodecDeflateQpl.update_sw_job f).
Proof. unfold SoftwareCodecDeflateQpl.update_sw_job. not_ready_auto. Qed.

Lemma not_ready_read_sw_job : preserves not_ready SoftwareCodecDeflateQpl.read_sw_job.
Proof. unfold SoftwareCodecDeflateQpl.read_sw_job. not_ready_auto. Qed.

Hint Resolve not_ready_hw_flush not_ready_getJobCodecPtr not_ready_update_sw_job
  not_ready_read_sw_job : not_ready.

Lemma not_ready_sw_doCompressData source source_size dest dest_size :
  preserves not_ready
    (SoftwareCodecDeflateQpl.doCompressData source source_size dest dest_size).
Proof. unfold SoftwareCodecDeflateQpl.doCompressData. not_ready_auto. Qed.

Lemma not_ready_sw_doDecompressData source source_size dest size :
  preserves not_ready
    (SoftwareCodecDeflateQpl.doDecompressData source source_size dest size).
Proof. unfold SoftwareCodecDeflateQpl.doDecompressData. not_ready_auto. Qed.

Hint Resolve not_ready_sw_doCompressData not_ready_sw_doDecompressData : not_ready.

(** No operation sets the readiness flag back to true. *)
Lemma not_ready_run_operation o : preserves not_ready (run_operation o).
Proof.
  destruct o; unfold run_operation, CompressionCodecDeflateQpl.doCompressData,
    CompressionCodecDeflateQpl.doDecompressData,
    CompressionCodecDeflateQpl.flushAsynchronousDecompressRequests,
    CompressionCodecDeflateQpl.getDecompressMode,
    CompressionCodecDeflateQpl.setDecompressMode;
    not_ready_auto.
Qed.

(** *** The constructor of the pool *)

Lemma init_jobs_outcome len : forall a w,
  (a + len = Z.to_nat MAX_HW_JOB_NUMBER)%nat ->
  length (hw_job_ptr_locks w) = Z.to_nat MAX_HW_JOB_NUMBER ->
  length (hw_job_ptr_pool w) = Z.to_nat MAX_HW_JOB_NUMBER ->
  length (hw_jobs_buffer w) = Z.to_nat MAX_HW_JOB_NUMBER ->
  match DeflateQplJobHWPool.init_jobs (seq a len) w with
  | Ret completed w' =>
      length (hw_job_ptr_locks w') = Z.to_nat MAX_HW_JOB_NUMBER /\
      length (hw_job_ptr_pool w') = Z.to_nat MAX_HW_JOB_NUMBER /\
      length (hw_jobs_buffer w') = Z.to_nat MAX_HW_JOB_NUMBER /\
      decomp_async_job_map w' = decomp_async_job_map w /\
      if completed
      then job_pool_ready w' = job_pool_ready w /\
           (forall k, (a <= k < a + len)%nat ->
              status_is_ok (qpl_init_status qpl_path_hardware k) = true /\
              hw_job_ptr_pool w' !! k = Some (Some k)) /\
           (forall k, (k < a)%nat -> hw_job_ptr_pool w' !! k = hw_job_ptr_pool w !! k)
      else job_pool_ready w' = false /\
           exists k, (a <= k < a + len)%nat /\
             status_is_ok (qpl_init_status qpl_path_hardware k) = false
  | _ => False
  end.
Proof.
  induction len as [|len IH]; intros a w Ha Hl Hp Hb; cbn [seq DeflateQplJobHWPool.init_jobs].
  - cbn. repeat split; try assumption; lia.
  - unfold Qpl.qpl_init_job_hw. mstep.
    destruct (hw_jobs_buffer w !! a) as [job|] eqn:Hjob;
      [|apply lookup_ge_None in Hjob; lia].
    rewrite (read_hw_job_spec a job w Hjob). mstep.
    rewrite write_hw_job_spec. mstep.
    destruct (status_is_ok (qpl_init_status qpl_path_hardware a)) eqn:Hok.
    + unfold DeflateQplJobHWPool.set_job_ptr_at. mstep.
      rewrite (proj2 (Z.leb_le 0 (Z.of_nat a))) by lia.
      rewrite Nat2Z.id, bool_decide_eq_true_2 by lia.
      cbn [andb]. mstep. rewrite unLockJob_spec by (msimpl; lia). mstep.
      match goal with
      | |- context [DeflateQplJobHWPool.init_jobs _ ?w1] =>
          specialize (IH (S a) w1)
      end.
      msimpl in IH. rewrite !length_insert in IH.
      specialize (IH ltac:(lia) Hl Hp Hb).
      destruct (DeflateQplJobHWPool.init_jobs _ _) as [completed w'| | |];
        try contradiction.
      destruct IH as (Hl' & Hp' & Hb' & Hm' & IH).
      repeat split; try assumption.
      destruct completed.
      * destruct IH as (Hr & Hset & Hkeep). split; [exact Hr|]. split.
        -- intros k Hk. destruct (decide (k = a)) as [->|Hne].
           ++ split; [exact Hok|]. rewrite Hkeep by lia. msimpl.
              rewrite ?Nat2Z.id. apply list_lookup_insert_eq. lia.
           ++ apply Hset. lia.
        -- intros k Hk. rewrite Hkeep by lia. msimpl.
           rewrite ?Nat2Z.id. apply list_lookup_insert_ne. lia.
      * destruct IH as (Hr & k' & Hk & Hfail). split; [exact Hr|].
        exists k'. split; [lia|exact Hfail].
    + mstep. rewrite length_insert. repeat split; try assumption.
      exists a. split; [lia|exact Hok].
Qed.

(** What the constructor leaves: a well-formed pool, ready exactly when
    every [qpl_init_job] succeeded. *)
Lemma constructor_outcome w :
  exists w',
    DeflateQplJobHWPool.constructor (DeflateQplJobHWPool.statics_zero w) = Ret tt w' /\
    pool_wf w' /\
    decomp_async_job_map w' = decomp_async_job_map w /\
    (job_pool_ready w' = true <->
     forall k, (k < Z.to_nat MAX_HW_JOB_NUMBER)%nat ->
       status_is_ok (qpl_init_status qpl_path_hardware k) = true).
Proof.
  pose proof MAX_HW_JOB_NUMBER_range as HN.
  unfold DeflateQplJobHWPool.constructor. mstep.
  match goal with
  | |- context [DeflateQplJobHWPool.init_jobs _ ?w1] =>
      pose proof (init_jobs_outcome (Z.to_nat MAX_HW_JOB_NUMBER) 0%nat w1) as Hout
  end.
  unfold DeflateQplJobHWPool.statics_zero in *. msimpl in Hout.
  rewrite !length_replicate in Hout.
  specialize (Hout ltac:(lia) eq_refl eq_refl eq_refl).
  destruct (DeflateQplJobHWPool.init_jobs _ _) as [completed w'| | |];
    try contradiction.
  destruct Hout as (Hl & Hp & Hb & Hm & Hout).
  destruct completed.
  - destruct Hout as (Hr & Hset & _). mstep.
    eexists. split; [reflexivity|]. unfold pool_wf. msimpl.
    repeat split; try assumption.
    + intros _ i Hi. apply Hset. lia.
    + intros _ k Hk. apply Hset. lia.
  - destruct Hout as (Hr & k & Hk & Hfail). mstep.
    exists w'. split; [reflexivity|]. unfold pool_wf.
    repeat split; try assumption.
    + rewrite Hr. discriminate.
    + rewrite Hr. discriminate.
    + intros Hall. specialize (Hall k ltac:(lia)). congruence.
Qed.

(** C6: a failed initialisation is permanent.  When a [qpl_init_job] of
    the constructor fails, the pool is left not ready; no operation sets
    the flag back to true; on a pool that is not ready [acquireJob] returns
    null, leaving [*job_id] and the world alone; and the dispatching
    [doCompressData] and [doDecompressData] (in every mode) do what the
    software codec does on the same arguments, with the same result or
    exception and the same final world, in which no call into the hardware
    path of the library has been logged. *)
Theorem pool_init_failure_is_permanent :
  (forall w index,
     0 <= index < MAX_HW_JOB_NUMBER ->
     status_is_ok (qpl_init_status qpl_path_hardware (Z.to_nat index)) = false ->
     exists w',
       DeflateQplJobHWPool.constructor (DeflateQplJobHWPool.statics_zero w)
       = Ret tt w' /\
       job_pool_ready w' = false) /\
  (forall o w,
     job_pool_ready w = false ->
     match run_operation o w with
     | Ret _ w' | Throw _ w' => job_pool_ready w' = false
     | _ => True
     end) /\
  (forall w job_id,
     job_pool_ready w = false ->
     DeflateQplJobHWPool.acquireJob job_id w = Ret (None, job_id) w) /\
  (forall w source source_size dest,
     job_pool_ready w = false ->
     match SoftwareCodecDeflateQpl.doCompressData source source_size dest
             (getMaxCompressedDataSize source_size) w with
     | Ret r w' =>
         CompressionCodecDeflateQpl.doCompressData source source_size dest w
         = Ret (to_uint32 r) w' /\
         filter (on_path qpl_path_hardware) (trace w')
         = filter (on_path qpl_path_hardware) (trace w)
     | Throw code w' =>
         CompressionCodecDeflateQpl.doCompressData source source_size dest w
         = Throw code w' /\
         filter (on_path qpl_path_hardware) (trace w')
         = filter (on_path qpl_path_hardware) (trace w)
     | _ => False
     end) /\
  (forall w fuel source source_size dest uncompressed_size,
     job_pool_ready w = false ->
     CompressionCodecDeflateQpl.doDecompressData fuel source source_size dest
       uncompressed_size w
     = SoftwareCodecDeflateQpl.doDecompressData source source_size dest
         uncompressed_size w /\
     exists w',
       final_world (SoftwareCodecDeflateQpl.doDecompressData source source_size
                      dest uncompressed_size w) = Some w' /\
       filter (on_path qpl_path_hardware) (trace w')
       = filter (on_path qpl_path_hardware) (trace w)).
Proof.
  split; [|split; [|split; [|split]]].
  - intros w index Hindex Hfail.
    destruct (constructor_outcome w) as (w' & Hrun & _ & _ & Hready).
    exists w'. split; [exact Hrun|].
    destruct (job_pool_ready w') eqn:Hr; [|reflexivity].
    exfalso. pose proof (proj1 Hready eq_refl (Z.to_nat index) ltac:(lia)).
    congruence.
  - intros o w Hw. apply (not_ready_run_operation o w Hw).
  - intros w job_id Hw.
    unfold DeflateQplJobHWPool.acquireJob, DeflateQplJobHWPool.isJobPoolReady.
    mstep. rewrite Hw. reflexivity.
  - intros w source source_size dest Hw.
    unfold CompressionCodecDeflateQpl.doCompressData,
      DeflateQplJobHWPool.isJobPoolReady.
    mstep. rewrite Hw. mstep. rewrite Z.eqb_refl. rewrite !bind_eq.
    destruct (sw_doCompressData_final source source_size dest
                (getMaxCompressedDataSize source_size) w)
      as (w' & Hfin & _ & _ & _ & _ & _ & _ & _ & Hhw).
    destruct (SoftwareCodecDeflateQpl.doCompressData _ _ _ _ w)
      as [r w1|code w1| |]; try discriminate; injection Hfin as ->; mstep.
    + rewrite to_uint32_to_int32. split; [reflexivity|exact Hhw].
    + split; [reflexivity|exact Hhw].
  - intros w fuel source source_size dest uncompressed_size Hw. split.
    + unfold CompressionCodecDeflateQpl.doDecompressData,
        CompressionCodecDeflateQpl.getDecompressMode,
        DeflateQplJobHWPool.isJobPoolReady.
      mstep. destruct (decompress_mode w); mstep; rewrite ?Hw; mstep;
        rewrite ?Z.eqb_refl; reflexivity.
    + destruct (sw_doDecompressData_final source source_size dest
                  uncompressed_size w)
        as (w' & Hfin & _ & _ & _ & _ & _ & _ & _ & Hhw).
      exists w'. split; assumption.
Qed.

End NotReady.

(** ** Invariant I3 *)

Section Safety.
Context {hdr : Header} {acc : Accelerator}.

Lemma locks_kept_same w w' :
  hw_job_ptr_locks w' = hw_job_ptr_locks w ->
  released_ids (trace w') = released_ids (trace w) ->
  locks_kept w w'.
Proof.
  intros Hl Hr. exists []. split; [exact Hr|]. intros j Hj. left. congruence.
Qed.

Lemma locks_kept_refl w : locks_kept w w.
Proof. apply locks_kept_same; reflexivity. Qed.

Lemma locks_kept_trans w1 w2 w3 :
  locks_kept w1 w2 -> locks_kept w2 w3 -> locks_kept w1 w3.
Proof.
  intros (ids1 & Hr1 & Hk1) (ids2 & Hr2 & Hk2). exists (ids2 ++ ids1). split.
  - rewrite Hr2, Hr1, app_assoc. reflexivity.
  - intros j Hj. destruct (Hk1 j Hj) as [Hheld|(id & Hid & Hidx)].
    + destruct (Hk2 j Hheld) as [Hheld'|(id & Hid & Hidx)]; [left; exact Hheld'|].
      right. exists id. split; [apply elem_of_app; auto|exact Hidx].
    + right. exists id. split; [apply elem_of_app; auto|exact Hidx].
Qed.

(** Taking the lock of a free slot. *)
Lemma locks_kept_acquired w w' (i : nat) :
  hw_job_ptr_locks w !! i = Some false ->
  hw_job_ptr_locks w' = <[i := true]> (hw_job_ptr_locks w) ->
  released_ids (trace w') = released_ids (trace w) ->
  locks_kept w w'.
Proof.
  intros Hfree Hl Hr. exists []. split; [exact Hr|]. intros j Hj. left.
  rewrite Hl. destruct (decide (i = j)) as [->|Hne]; [congruence|].
  rewrite list_lookup_insert_ne by exact Hne. exact Hj.
Qed.

(** Releasing the slot of [id]. *)
Lemma locks_kept_released w w' id :
  1 <= id <= MAX_HW_JOB_NUMBER ->
  hw_job_ptr_locks w'
  = (if job_pool_ready w
     then <[Z.to_nat (MAX_HW_JOB_NUMBER - id) := false]> (hw_job_ptr_locks w)
     else hw_job_ptr_locks w) ->
  released_ids (trace w') = id :: released_ids (trace w) ->
  locks_kept w w'.
Proof.
  intros Hid Hl Hr. exists [id]. split; [exact Hr|]. intros j Hj.
  destruct (decide (Z.to_nat (MAX_HW_JOB_NUMBER - id) = j)) as [Heq|Hne].
  - right. exists id. split; [apply list_elem_of_singleton; reflexivity|].
    rewrite index_of_job_id_in_range by exact Hid. exact Heq.
  - left. rewrite Hl. destruct (job_pool_ready w); [|exact Hj].
    rewrite list_lookup_insert_ne by exact Hne. exact Hj.
Qed.

Lemma safe_ret {A} (a : A) : safe (ret a).
Proof. intros w Hwf Hinv. cbn. auto using locks_kept_refl. Qed.

Lemma safe_bind {A B} (m : M A) (k : A -> M B) :
  safe m -> (forall a, safe (k a)) -> safe (bind m k).
Proof.
  intros Hm Hk w Hwf Hinv. rewrite bind_eq. specialize (Hm w Hwf Hinv).
  destruct (m w) as [a w1|code w1| |]; [|exact Hm..].
  destruct Hm as (Hwf1 & Hinv1 & Hkept1).
  specialize (Hk a w1 Hwf1 Hinv1).
  destruct (k a w1) as [b w2|code w2| |]; try exact I;
    destruct Hk as (Hwf2 & Hinv2 & Hkept2);
    (split; [exact Hwf2|]); (split; [exact Hinv2|]);
    apply (locks_kept_trans _ w1); assumption.
Qed.

(** A call that leaves the locks, the map and the shape of the pool alone
    and releases nothing is safe. *)
Lemma safe_harmless {A} (m : M A) :
  (forall w, match m w with
             | Ret _ w' | Throw _ w' =>
                 hw_job_ptr_locks w' = hw_job_ptr_locks w /\
                 decomp_async_job_map w' = decomp_async_job_map w /\
                 pool_shape w w' /\
                 released_ids (trace w') = released_ids (trace w)
             | _ => True
             end) ->
  safe m.
Proof.
  intros Hm w Hwf Hinv. specialize (Hm w).
  destruct (m w) as [a w'|code w'| |]; try exact I;
    destruct Hm as (Hl & Hmap & Hshape & Hr);
    (split; [apply (pool_wf_shape w); assumption|]);
    (split; [apply (in_flight_held_same w); assumption|]);
    apply locks_kept_same; assumption.
Qed.

Lemma safe_isJobPoolReady : safe DeflateQplJobHWPool.isJobPoolReady.
Proof. apply safe_harmless. intros w. cbn. auto using pool_shape_refl. Qed.

Lemma safe_getDecompressMode : safe CompressionCodecDeflateQpl.getDecompressMode.
Proof. apply safe_harmless. intros w. cbn. auto using pool_shape_refl. Qed.

Lemma safe_setDecompressMode mode :
  safe (CompressionCodecDeflateQpl.setDecompressMode mode).
Proof.
  apply safe_harmless. intros w. cbn. unfold pool_shape. msimpl. tauto.
Qed.

Lemma safe_sw_doCompressData source source_size dest dest_size :
  safe (SoftwareCodecDeflateQpl.doCompressData source source_size dest dest_size).
Proof.
  apply safe_harmless. intros w.
  destruct (sw_doCompressData_final source source_size dest dest_size w)
    as (w' & Hfin & Hm & Hl & Hr & Hp & Hb & _ & Hrel & _).
  destruct (SoftwareCodecDeflateQpl.doCompressData _ _ _ _ w);
    try exact I; injection Hfin as ->; unfold pool_shape;
    rewrite Hl, Hm, Hr, Hp, Hb, Hrel; tauto.
Qed.

Lemma safe_sw_doDecompressData source source_size dest size :
  safe (SoftwareCodecDeflateQpl.doDecompressData source source_size dest size).
Proof.
  apply safe_harmless. intros w.
  destruct (sw_doDecompressData_final source source_size dest size w)
    as (w' & Hfin & Hm & Hl & Hr & Hp & Hb & _ & Hrel & _).
  destruct (SoftwareCodecDeflateQpl.doDecompressData _ _ _ _ w);
    try exact I; injection Hfin as ->; unfold pool_shape;
    rewrite Hl, Hm, Hr, Hp, Hb, Hrel; tauto.
Qed.

Lemma in_flight_held_acquired w w' (i : nat) :
  decomp_async_job_map w' = decomp_async_job_map w ->
  hw_job_ptr_locks w' = <[i := true]> (hw_job_ptr_locks w) ->
  (i < length (hw_job_ptr_locks w))%nat ->
  in_flight_held w -> in_flight_held w'.
Proof.
  intros Hm Hl Hlt (Hok & Hheld). unfold in_flight_held. rewrite Hm, Hl.
  split; [exact Hok|]. intros id ptr Hin.
  destruct (Hheld id ptr Hin) as (Hid & Hlock). split; [exact Hid|].
  destruct (decide (i = Z.to_nat (MAX_HW_JOB_NUMBER - id))) as [<-|Hne].
  - apply list_lookup_insert_eq. exact Hlt.
  - rewrite list_lookup_insert_ne by exact Hne. exact Hlock.
Qed.

Lemma safe_acquireJob job_id : safe (DeflateQplJobHWPool.acquireJob job_id).
Proof.
  intros w Hwf Hinv.
  pose proof (acquireJob_outcome job_id w Hwf) as Hout.
  destruct (DeflateQplJobHWPool.acquireJob job_id w) as [[p id] w'| | |];
    try contradiction.
  destruct Hout as (Hframe & Hrel & Hcase).
  pose proof Hframe as (Hp & Hr & Hb & Hm & _).
  destruct Hcase as [(_ & _ & _ & Hl & _) | [(_ & _ & _ & Hl & _)
                    | (_ & i & Hi & _ & _ & Hfree & Hl & _)]].
  - split; [apply (pool_wf_frame w); [assumption|congruence|assumption]|].
    split; [apply (in_flight_held_same w); assumption|].
    apply locks_kept_same; assumption.
  - split; [apply (pool_wf_frame w); [assumption|congruence|assumption]|].
    split; [apply (in_flight_held_same w); assumption|].
    apply locks_kept_same; assumption.
  - split; [apply (pool_wf_frame w);
            [assumption|rewrite Hl; apply length_insert|assumption]|].
    split; [apply (in_flight_held_acquired w w' (Z.to_nat i));
            [assumption..|apply lookup_lt_Some in Hfree; exact Hfree|assumption]|].
    apply (locks_kept_acquired w w' (Z.to_nat i)); assumption.
Qed.

(** [releaseJob] on a [uint32_t] either fails its assertion or is given
    the id of a slot. *)
Lemma releaseJob_id_range job_id w :
  is_uint32 job_id -> job_pool_ready w = true ->
  1 <= job_id <= MAX_HW_JOB_NUMBER \/
  DeflateQplJobHWPool.releaseJob job_id w = Undefined.
Proof.
  pose proof MAX_HW_JOB_NUMBER_range as HN.
  intros Hu Hready. unfold is_uint32 in Hu.
  destruct (decide (1 <= job_id <= MAX_HW_JOB_NUMBER)) as [Hin|Hout]; [auto|].
  right. unfold DeflateQplJobHWPool.releaseJob, DeflateQplJobHWPool.isJobPoolReady.
  mstep. rewrite Hready. mstep.
  assert ((DeflateQplJobHWPool.index_of_job_id job_id <? MAX_HW_JOB_NUMBER) = false)
    as ->; [|reflexivity].
  apply Z.ltb_ge. unfold DeflateQplJobHWPool.index_of_job_id, to_uint32.
  destruct (decide (job_id = 0)) as [->|Hne].
  - rewrite Z.sub_0_r, Z.mod_small by lia. lia.
  - assert (job_id > MAX_HW_JOB_NUMBER) by lia.
    replace (MAX_HW_JOB_NUMBER - job_id)
      with (MAX_HW_JOB_NUMBER - job_id + 2 ^ 32 + (-1) * 2 ^ 32) by lia.
    rewrite Z.mod_add by lia. rewrite Z.mod_small by lia. lia.
Qed.

(** Releasing a slot that no entry of the map names keeps I3. *)
Lemma in_flight_held_released w w' id :
  1 <= id <= MAX_HW_JOB_NUMBER ->
  (forall ptr, (id, ptr) ∉ decomp_async_job_map w) ->
  decomp_async_job_map w' = decomp_async_job_map w ->
  hw_job_ptr_locks w'
  = (if job_pool_ready w
     then <[Z.to_nat (MAX_HW_JOB_NUMBER - id) := false]> (hw_job_ptr_locks w)
     else hw_job_ptr_locks w) ->
  in_flight_held w -> in_flight_held w'.
Proof.
  intros Hid Hnew Hm Hl (Hok & Hheld). unfold in_flight_held. rewrite Hm, Hl.
  split; [exact Hok|]. intros id' ptr Hin.
  destruct (Hheld id' ptr Hin) as (Hid' & Hlock). split; [exact Hid'|].
  destruct (job_pool_ready w); [|exact Hlock].
  rewrite list_lookup_insert_ne; [exact Hlock|].
  intros Heq. assert (id = id') as -> by lia. apply (Hnew ptr). exact Hin.
Qed.

Lemma safe_releaseJob job_id w :
  is_uint32 job_id -> (forall ptr, (job_id, ptr) ∉ decomp_async_job_map w) ->
  pool_wf w -> in_flight_held w ->
  match DeflateQplJobHWPool.releaseJob job_id w with
  | Ret _ w' | Throw _ w' => pool_wf w' /\ in_flight_held w' /\ locks_kept w w'
  | _ => True
  end.
Proof.
  intros Hu Hnew Hwf Hinv.
  destruct (job_pool_ready w) eqn:Hready.
  - destruct (releaseJob_id_range job_id w Hu Hready) as [Hid|Hundef];
      [|rewrite Hundef; exact I].
    destruct (releaseJob_outcome job_id w Hwf Hid)
      as (p & w' & Hrun & Hrel & Hm & Hb & Hshape & _ & _ & _ & Hl & _).
    rewrite Hrun.
    split; [apply (pool_wf_shape w); assumption|].
    split; [apply (in_flight_held_released w w' job_id); assumption|].
    apply (locks_kept_released w w' job_id); assumption.
  - rewrite (releaseJob_not_ready job_id w Hready).
    split; [apply (pool_wf_shape w); [unfold pool_shape; msimpl; tauto|assumption]|].
    split; [apply (in_flight_held_same w); [reflexivity..|assumption]|].
    exists [job_id]. split; [reflexivity|]. intros j Hj. left. exact Hj.
Qed.

Lemma safe_hw_doCompressData source source_size dest dest_size :
  safe (HardwareCodecDeflateQpl.doCompressData source source_size dest dest_size).
Proof.
  intros w Hwf Hinv.
  pose proof (hw_doCompressData_outcome source source_size dest dest_size w Hwf)
    as Hout.
  pose proof (safe_acquireJob 0 w Hwf Hinv) as Hacq.
  destruct (DeflateQplJobHWPool.acquireJob 0 w) as [[[ptr|] id] w1| | |];
    try contradiction.
  - destruct Hout as (job0 & w' & _ & Hout). cbv zeta in Hout.
    destruct Hout as (Hrun & Htrace & Hl & _ & _ & Hm & _ & _ & Hshape).
    rewrite Hrun.
    split; [apply (pool_wf_shape w); assumption|].
    split; [apply (in_flight_held_same w); assumption|].
    destruct Hacq as (_ & _ & ids & Hids & _).
    exists (id :: ids). split.
    + rewrite Htrace. cbn [released_ids].
      destruct (status_is_ok _); cbn [app released_ids]; rewrite Hids; reflexivity.
    + intros j Hj. left. congruence.
  - rewrite Hout. destruct Hacq as (Hwf1 & Hinv1 & ids & Hids & Hkept).
    split; [exact Hwf1|]. split; [exact Hinv1|].
    exists ids. split; [exact Hids|exact Hkept].
Qed.

Lemma safe_hw_doDecompressDataAsynchronous source source_size dest size :
  safe (HardwareCodecDeflateQpl.doDecompressDataAsynchronous source source_size
          dest size).
Proof.
  pose proof MAX_HW_JOB_NUMBER_range as HN.
  intros w Hwf Hinv.
  pose proof (hw_doDecompressDataAsynchronous_outcome source source_size dest size
                w Hwf) as Hout.
  pose proof (safe_acquireJob 0 w Hwf Hinv) as Hacq.
  destruct (DeflateQplJobHWPool.acquireJob 0 w) as [[[ptr|] id] w1| | |];
    try contradiction.
  - destruct Hout as (i & job0 & w' & Hi & -> & -> & Hfree & Hlocks & _ & Hcase
                      & _ & _ & _ & Hshape & _).
    cbv zeta in Hcase.
    destruct Hacq as (Hwf1 & (Hok1 & Hheld1) & ids & Hids & Hkept).
    assert (MAX_HW_JOB_NUMBER - (MAX_HW_JOB_NUMBER - i) = i) as Heq by lia.
    assert (Z.to_nat i < length (hw_job_ptr_locks w))%nat as Hlt
      by (apply lookup_lt_Some in Hfree; exact Hfree).
    destruct (status_is_ok _).
    + destruct Hcase as (Hrun & Hm & Hl & _ & Htrace). rewrite Hrun.
      split; [apply (pool_wf_shape w); assumption|].
      split.
      * destruct Hinv as (Hok & Hheld). split.
        -- rewrite Hm. apply map_insert_ok. exact Hok.
        -- intros id' ptr' Hin. rewrite Hm in Hin.
           apply map_insert_elem_of in Hin. rewrite Hl, Hlocks.
           destruct Hin as [Hin|Hin].
           ++ injection Hin as -> ->. split; [lia|].
              rewrite Heq. apply list_lookup_insert_eq. exact Hlt.
           ++ destruct (Hheld _ _ Hin) as (Hid' & Hlock). split; [exact Hid'|].
              destruct (decide (Z.to_nat i = Z.to_nat (MAX_HW_JOB_NUMBER - id')))
                as [<-|Hne].
              ** apply list_lookup_insert_eq. exact Hlt.
              ** rewrite list_lookup_insert_ne by exact Hne. exact Hlock.
      * exists ids. split; [rewrite Htrace; exact Hids|].
        intros j Hj. rewrite Hl. apply Hkept. exact Hj.
    + destruct Hcase as (Hrun & Hm & Hl & _ & Htrace). rewrite Hrun.
      split; [apply (pool_wf_shape w); assumption|].
      split; [apply (in_flight_held_same w); assumption|].
      exists ((MAX_HW_JOB_NUMBER - i) :: ids). split.
      * rewrite Htrace. cbn [released_ids app]. rewrite Hids. reflexivity.
      * intros j Hj. left. congruence.
  - rewrite Hout. destruct Hacq as (Hwf1 & Hinv1 & ids & Hids & Hkept).
    split; [exact Hwf1|]. split; [exact Hinv1|].
    exists ids. split; [exact Hids|exact Hkept].
Qed.

(** The destructor of the pool leaves the locks as they were: it takes
    and gives back the lock of each slot, and spins on a held one. *)
Lemma fini_jobs_outcome indices : forall w,
  match DeflateQplJobHWPool.fini_jobs indices w with
  | Ret _ w' =>
      hw_job_ptr_locks w' = hw_job_ptr_locks w /\
      decomp_async_job_map w' = decomp_async_job_map w /\
      released_ids (trace w') = released_ids (trace w) /\
      length (hw_job_ptr_pool w') = length (hw_job_ptr_pool w) /\
      hw_jobs_buffer w' = hw_jobs_buffer w
  | Throw _ _ => False
  | _ => True
  end.
Proof.
  induction indices as [|i rest IH]; intros w.
  - cbn. repeat split.
  - cbn [DeflateQplJobHWPool.fini_jobs]. rewrite bind_eq.
    unfold DeflateQplJobHWPool.job_ptr_at. mstep.
    destruct (0 <=? Z.of_nat i); [|exact I].
    destruct (hw_job_ptr_pool w !! Z.to_nat (Z.of_nat i)) as [[p|]|];
      [|apply IH|exact I].
    mstep. rewrite tryLockJob_spec.
    destruct (DeflateQplJobHWPool.index_in_range (Z.of_nat i)); [|exact I].
    destruct (hw_job_ptr_locks w !! Z.to_nat (Z.of_nat i)) as [[|]|] eqn:Hlock;
      try exact I.
    mstep. unfold DeflateQplJobHWPool.unLockJob. mstep.
    destruct (_ && _); [|exact I]. mstep.
    unfold DeflateQplJobHWPool.set_job_ptr_at. mstep.
    destruct (_ && _); [|exact I]. mstep.
    rewrite list_insert_insert_eq, (list_insert_id _ _ _ Hlock).
    match goal with
    | |- match DeflateQplJobHWPool.fini_jobs rest ?w1 with _ => _ end =>
        specialize (IH w1);
        destruct (DeflateQplJobHWPool.fini_jobs rest w1) as [u w'|code w'| |];
        try exact I; [|exact IH];
        msimpl in IH; rewrite length_insert in IH; exact IH
    end.
Qed.

Lemma safe_pool_destructor : safe DeflateQplJobHWPool.destructor.
Proof.
  intros w Hwf Hinv. unfold DeflateQplJobHWPool.destructor. rewrite bind_eq.
  pose proof (fini_jobs_outcome (seq 0 (Z.to_nat MAX_HW_JOB_NUMBER)) w) as Hout.
  destruct (DeflateQplJobHWPool.fini_jobs _ w) as [u w'|code w'| |];
    try exact I; [|contradiction].
  destruct Hout as (Hl & Hm & Hr & Hp & Hb).
  destruct Hwf as (Hwl & Hwp & Hwb & _). msimpl.
  split; [unfold pool_wf; msimpl; repeat split; congruence|].
  split; [apply (in_flight_held_same w); assumption|].
  apply locks_kept_same; assumption.
Qed.

Local Abbreviation kept_from w o :=
  (match o with
   | Ret _ w' | Throw _ w' => pool_wf w' /\ in_flight_held w' /\ locks_kept w w'
   | _ => True
   end).

(** A safe call made further on, in a world reached safely. *)
Lemma safe_continue {A} (m : M A) w w1 :
  safe m -> pool_wf w1 -> in_flight_held w1 -> locks_kept w w1 ->
  kept_from w (m w1).
Proof.
  intros Hm Hwf1 Hinv1 Hkept. specialize (Hm w1 Hwf1 Hinv1).
  destruct (m w1) as [a w'|code w'| |]; try exact I;
    destruct Hm as (Hwf' & Hinv' & Hkept');
    (split; [exact Hwf'|]); (split; [exact Hinv'|]);
    apply (locks_kept_trans _ w1); assumption.
Qed.

Lemma safe_wrap_iterator it : safe (HardwareCodecDeflateQpl.wrap_iterator it).
Proof.
  apply safe_harmless. intros w. rewrite wrap_iterator_spec.
  destruct (it =? _)%nat; unfold pool_shape; msimpl; repeat split.
Qed.

(** The drain's release of the entry at [it], and its erasure. *)
Lemma release_erase_outcome (it : nat) id ptr w :
  pool_wf w -> in_flight_held w ->
  decomp_async_job_map w !! it = Some (id, ptr) ->
  exists p w1,
    DeflateQplJobHWPool.releaseJob id w = Ret p w1 /\
    let w2 := set_decomp_async_job_map (delete it (decomp_async_job_map w1)) w1 in
    pool_wf w2 /\ in_flight_held w2 /\ locks_kept w w2.
Proof.
  intros Hwf (Hok & Hheld) Hit.
  assert ((id, ptr) ∈ decomp_async_job_map w) as Hin
    by (apply list_elem_of_lookup; eauto).
  destruct (Hheld id ptr Hin) as (Hid & _).
  destruct (releaseJob_outcome id w Hwf Hid)
    as (p & w1 & Hrun & Hrel & Hm & Hb & Hshape & _ & _ & _ & Hl & _).
  exists p, w1. split; [exact Hrun|]. cbv zeta.
  split; [apply (pool_wf_shape w); [|exact Hwf]; unfold pool_shape in *; msimpl;
          tauto|].
  split.
  - unfold in_flight_held. msimpl. rewrite Hm. split; [apply map_delete_ok; exact Hok|].
    intros id' ptr' Hin'. apply elem_of_delete_inv in Hin'.
    destruct Hin' as (j & Hj & Hlook).
    assert ((id', ptr') ∈ decomp_async_job_map w) as Hin2
      by (apply list_elem_of_lookup; eauto).
    destruct (Hheld id' ptr' Hin2) as (Hid' & Hlock). split; [exact Hid'|].
    rewrite Hl. destruct (job_pool_ready w); [|exact Hlock].
    rewrite list_lookup_insert_ne; [exact Hlock|].
    intros Heq. apply Hj.
    apply (map_ok_lookup_key _ Hok j it (id', ptr') (id, ptr) Hlook Hit).
    cbn. lia.
  - apply (locks_kept_released w _ id Hid); msimpl; assumption.
Qed.

Lemma safe_flush_loop fuel : forall n it,
  safe (HardwareCodecDeflateQpl.flush_loop fuel n it).
Proof.
  induction fuel as [|fuel IH]; intros n it w Hwf Hinv.
  - cbn [HardwareCodecDeflateQpl.flush_loop].
    destruct (n =? 0); [apply (safe_ret tt w Hwf Hinv)|exact I].
  - cbn [HardwareCodecDeflateQpl.flush_loop].
    destruct (n =? 0); [apply (safe_ret tt w Hwf Hinv)|].
    mstep. destruct (decomp_async_job_map w !! it) as [[id ptr]|] eqn:Hit;
      [|exact I].
    mstep. destruct (hw_jobs_buffer w !! ptr) as [job|] eqn:Hjob.
    + destruct (qpl_check_job_outcome ptr job w Hjob)
        as (status & w2 & Hrun & Hm2 & Hl2 & Hshape2 & _ & _ & Hr2 & _).
      rewrite Hrun.
      assert (pool_wf w2) as Hwf2 by (apply (pool_wf_shape w); assumption).
      assert (in_flight_held w2) as Hinv2
        by (apply (in_flight_held_same w); assumption).
      assert (locks_kept w w2) as Hkept2 by (apply locks_kept_same; assumption).
      destruct (status_is_being_processed status).
      * apply safe_continue; [|assumption..].
        apply safe_bind; [apply safe_wrap_iterator|apply IH].
      * rewrite <- Hm2 in Hit.
        destruct (release_erase_outcome it id ptr w2 Hwf2 Hinv2 Hit)
          as (p & w3 & Hrun3 & Hwf4 & Hinv4 & Hkept4).
        mstep. rewrite Hrun3. mstep.
        apply safe_continue;
          [|exact Hwf4|exact Hinv4|apply (locks_kept_trans _ w2); assumption].
        destruct (_ <=? 0); [apply safe_ret|].
        apply safe_bind; [apply safe_wrap_iterator|apply IH].
    + unfold Qpl.qpl_check_job. rewrite bind_eq. unfold Qpl.read_hw_job. mstep.
      rewrite Hjob. exact I.
Qed.

Lemma safe_hw_flushAsynchronousDecompressRequests fuel :
  safe (HardwareCodecDeflateQpl.flushAsynchronousDecompressRequests fuel).
Proof.
  intros w Hwf Hinv.
  unfold HardwareCodecDeflateQpl.flushAsynchronousDecompressRequests. mstep.
  apply safe_flush_loop; assumption.
Qed.

(** The loop of the codec's destructor: every entry is released, and the
    map is cleared afterwards. *)
Lemma release_all_outcome entries : forall w,
  pool_wf w ->
  (forall id ptr, (id, ptr) ∈ entries -> 1 <= id <= MAX_HW_JOB_NUMBER) ->
  exists w',
    HardwareCodecDeflateQpl.release_all entries w = Ret tt w' /\
    pool_shape w w' /\ locks_kept w w'.
Proof.
  induction entries as [|[id ptr] rest IH]; intros w Hwf Hids.
  - exists w. split; [reflexivity|]. split; [apply pool_shape_refl|].
    apply locks_kept_refl.
  - cbn [HardwareCodecDeflateQpl.release_all fst]. rewrite bind_eq.
    assert (1 <= id <= MAX_HW_JOB_NUMBER) as Hid
      by (apply (Hids id ptr); apply elem_of_cons; auto).
    destruct (releaseJob_outcome id w Hwf Hid)
      as (p & w1 & Hrun & Hrel & _ & _ & Hshape & _ & _ & _ & Hl & _).
    rewrite Hrun.
    destruct (IH w1) as (w' & Hrun' & Hshape' & Hkept').
    + apply (pool_wf_shape w); assumption.
    + intros id' ptr' Hin. apply (Hids id' ptr'). apply elem_of_cons. auto.
    + exists w'. split; [exact Hrun'|].
      split; [apply (pool_shape_trans w w1); assumption|].
      apply (locks_kept_trans _ w1); [|exact Hkept'].
      apply (locks_kept_released w w1 id); assumption.
Qed.

Lemma safe_hw_destructor ndebug : safe (HardwareCodecDeflateQpl.destructor ndebug).
Proof.
  intros w Hwf Hinv. unfold HardwareCodecDeflateQpl.destructor. mstep.
  destruct ndebug.
  - destruct (decomp_async_job_map w) as [|e m] eqn:Hm;
      [apply (safe_ret tt w Hwf Hinv)|].
    mstep.
    destruct (release_all_outcome (e :: m)
                (set_trace (EvWarning msg_unreleased_job :: trace w) w))
      as (w' & Hrun & Hshape & Hkept).
    + apply (pool_wf_shape w); [unfold pool_shape; msimpl; repeat split|exact Hwf].
    + intros id ptr Hin. destruct Hinv as (_ & Hheld).
      rewrite Hm in Hheld. apply (Hheld id ptr Hin).
    + rewrite Hrun. msimpl.
      split; [apply (pool_wf_shape w); [|exact Hwf]; unfold pool_shape in *;
              msimpl; msimpl in Hshape; tauto|].
      split.
      * split; [exact map_ok_nil|]. msimpl. intros id ptr Hin.
        apply elem_of_nil in Hin. contradiction.
      * destruct Hkept as (ids & Hr & Hk). exists ids. split; [exact Hr|].
        intros j Hj. apply Hk. exact Hj.
  - unfold assert. destruct (bool_decide _); [apply (safe_ret tt w Hwf Hinv)|exact I].
Qed.

Lemma safe_if {A} (b : bool) (m1 m2 : M A) :
  safe m1 -> safe m2 -> safe (if b then m1 else m2).
Proof. destruct b; auto. Qed.

Lemma safe_doCompressData source source_size dest :
  safe (CompressionCodecDeflateQpl.doCompressData source source_size dest).
Proof.
  unfold CompressionCodecDeflateQpl.doCompressData.
  apply safe_bind; [apply safe_isJobPoolReady|]. intros ready.
  apply safe_bind;
    [apply safe_if; [apply safe_hw_doCompressData|apply safe_ret]|].
  intros res. apply safe_bind; [|intros res'; apply safe_ret].
  apply safe_if; [|apply safe_ret].
  apply safe_bind; [apply safe_sw_doCompressData|intros r; apply safe_ret].
Qed.

Lemma safe_doDecompressData fuel source source_size dest size :
  safe (CompressionCodecDeflateQpl.doDecompressData fuel source source_size dest
          size).
Proof.
  unfold CompressionCodecDeflateQpl.doDecompressData.
  apply safe_bind; [apply safe_getDecompressMode|]. intros [| |].
  - apply safe_bind; [apply safe_isJobPoolReady|]. intros ready.
    apply safe_if; [|apply safe_sw_doDecompressData].
    apply safe_bind; [apply safe_hw_doDecompressDataAsynchronous|]. intros res.
    apply safe_if;
      [apply safe_hw_flushAsynchronousDecompressRequests
      |apply safe_sw_doDecompressData].
  - apply safe_bind; [apply safe_isJobPoolReady|]. intros ready.
    apply safe_bind;
      [apply safe_if; [apply safe_hw_doDecompressDataAsynchronous|apply safe_ret]|].
    intros res. apply safe_if; [apply safe_sw_doDecompressData|apply safe_ret].
  - apply safe_sw_doDecompressData.
Qed.

Lemma safe_flushAsynchronousDecompressRequests fuel :
  safe (CompressionCodecDeflateQpl.flushAsynchronousDecompressRequests fuel).
Proof.
  unfold CompressionCodecDeflateQpl.flushAsynchronousDecompressRequests.
  apply safe_bind; [apply safe_isJobPoolReady|]. intros ready.
  apply safe_bind; [|intros u; apply safe_setDecompressMode].
  apply safe_if; [apply safe_hw_flushAsynchronousDecompressRequests|apply safe_ret].
Qed.


(** [releaseJob] with the id of an entry that is still in the map stores
    [false] into the lock of that entry: I3 is lost. *)
Lemma releaseJob_of_in_flight_slot job_id ptr w :
  pool_wf w -> in_flight_held w -> job_pool_ready w = true ->
  (job_id, ptr) ∈ decomp_async_job_map w ->
  exists p w',
    DeflateQplJobHWPool.releaseJob job_id w = Ret p w' /\
    (job_id, ptr) ∈ decomp_async_job_map w' /\
    hw_job_ptr_locks w' !! Z.to_nat (MAX_HW_JOB_NUMBER - job_id) = Some false /\
    ~ in_flight_held w'.
Proof.
  pose proof MAX_HW_JOB_NUMBER_range as HN.
  intros Hwf (Hok & Hheld) Hready Hin.
  destruct (Hheld job_id ptr Hin) as (Hid & Hlock).
  rewrite (releaseJob_ready job_id w Hwf Hready Hid).
  eexists. eexists. split; [reflexivity|]. msimpl.
  assert (<[Z.to_nat (MAX_HW_JOB_NUMBER - job_id) := false]> (hw_job_ptr_locks w)
            !! Z.to_nat (MAX_HW_JOB_NUMBER - job_id) = Some false) as Hfree.
  { apply list_lookup_insert_eq. destruct Hwf as (Hlocks & _). lia. }
  split; [exact Hin|]. split; [exact Hfree|].
  intros (_ & Hheld'). destruct (Hheld' job_id ptr) as (_ & Hlock').
  - msimpl. exact Hin.
  - revert Hlock'. msimpl. rewrite Hfree. discriminate.
Qed.

(** What [releaseJob] keeps whatever its [uint32_t] argument is: the shape
    of the pool, and every lock but the one it names. *)
Lemma releaseJob_keeps job_id w :
  is_uint32 job_id -> pool_wf w ->
  match DeflateQplJobHWPool.releaseJob job_id w with
  | Ret _ w' | Throw _ w' => pool_wf w' /\ locks_kept w w'
  | _ => True
  end.
Proof.
  intros Hu Hwf.
  destruct (job_pool_ready w) eqn:Hready.
  - destruct (releaseJob_id_range job_id w Hu Hready) as [Hid|Hundef];
      [|rewrite Hundef; exact I].
    destruct (releaseJob_outcome job_id w Hwf Hid)
      as (p & w' & Hrun & Hrel & Hm & Hb & Hshape & _ & _ & _ & Hl & _).
    rewrite Hrun.
    split; [apply (pool_wf_shape w); assumption|].
    apply (locks_kept_released w w' job_id); assumption.
  - rewrite (releaseJob_not_ready job_id w Hready).
    split; [apply (pool_wf_shape w); [unfold pool_shape; msimpl; tauto|assumption]|].
    exists [job_id]. split; [reflexivity|]. intros j Hj. left. exact Hj.
Qed.

(** A safe call, read as an operation that is no [releaseJob]. *)
Lemma safe_operation {A} (m : M A) (o : Operation) (w : World) :
  safe m -> pool_wf w -> in_flight_held w ->
  (forall job_id, o <> op_releaseJob job_id) ->
  match m w with
  | Ret _ w' | Throw _ w' =>
      pool_wf w' /\ locks_kept w w' /\
      (releases_own_slot o w -> in_flight_held w') /\
      (forall job_id ptr,
         o = op_releaseJob job_id -> job_pool_ready w = true ->
         (job_id, ptr) ∈ decomp_async_job_map w -> ~ in_flight_held w')
  | _ => True
  end.
Proof.
  intros Hsafe Hwf Hinv Hother. specialize (Hsafe w Hwf Hinv).
  destruct (m w) as [a w'|code w'| |]; try exact I;
    destruct Hsafe as (Hwf' & Hinv' & Hkept);
    (split; [exact Hwf'|]; split; [exact Hkept|]; split; [intros _; exact Hinv'|]);
    intros job_id ptr Ho; destruct (Hother job_id Ho).
Qed.

(** C9, as the code has it: invariant I3.  On a well-formed pool where the
    lock of every entry of the in-flight map is held, every operation of the
    pool and of the codecs that returns or throws leaves the pool well
    formed, and a lock that was held before the operation is still held
    after it unless the operation called [releaseJob] with the id of that
    slot.  The lock of every entry then in the map is held after every
    operation of the codecs, after [acquireJob], after the destructor of the
    pool, and after a [releaseJob] whose [uint32_t] argument is not the key
    of an entry still in the map.  A [releaseJob] on a ready pool with the
    key of an entry still in the map loses the invariant: the entry stays
    and its lock is free. *)
Theorem operations_keep_in_flight_locks_held (o : Operation) (w : World) :
  pool_wf w -> in_flight_held w ->
  (forall job_id, o = op_releaseJob job_id -> is_uint32 job_id) ->
  match run_operation o w with
  | Ret _ w' | Throw _ w' =>
      pool_wf w' /\ locks_kept w w' /\
      (releases_own_slot o w -> in_flight_held w') /\
      (forall job_id ptr,
         o = op_releaseJob job_id -> job_pool_ready w = true ->
         (job_id, ptr) ∈ decomp_async_job_map w -> ~ in_flight_held w')
  | _ => True
  end.
Proof.
  intros Hwf Hinv Htyped.
  destruct o;
    try (apply safe_operation; [|assumption|assumption|discriminate]);
    cbn [run_operation].
  - apply (safe_bind _ _ (safe_acquireJob job_id) (fun _ => safe_ret tt)).
  - specialize (Htyped job_id eq_refl). rewrite bind_eq.
    pose proof (releaseJob_keeps job_id w Htyped Hwf) as Hkeeps.
    destruct (DeflateQplJobHWPool.releaseJob job_id w) as [p w'|code w'| |] eqn:Hrun;
      try exact I; cbn [releases_own_slot].
    + destruct Hkeeps as (Hwf' & Hkept).
      split; [exact Hwf'|]. split; [exact Hkept|]. split.
      * intros (Hu & Hnew).
        pose proof (safe_releaseJob job_id w Hu Hnew Hwf Hinv) as Hrel.
        rewrite Hrun in Hrel. apply Hrel.
      * intros job_id' ptr [= <-] Hready Hin.
        destruct (releaseJob_of_in_flight_slot job_id ptr w Hwf Hinv Hready Hin)
          as (p' & w'' & Hrun' & _ & _ & Hlost).
        rewrite Hrun in Hrun'. injection Hrun' as _ <-. exact Hlost.
    + destruct Hkeeps as (Hwf' & Hkept).
      split; [exact Hwf'|]. split; [exact Hkept|]. split.
      * intros (Hu & Hnew).
        pose proof (safe_releaseJob job_id w Hu Hnew Hwf Hinv) as Hrel.
        rewrite Hrun in Hrel. apply Hrel.
      * intros job_id' ptr [= <-] Hready Hin.
        destruct (releaseJob_of_in_flight_slot job_id ptr w Hwf Hinv Hready Hin)
          as (p' & w'' & Hrun' & _). rewrite Hrun in Hrun'. discriminate Hrun'.
  - apply safe_pool_destructor.
  - apply (safe_bind _ _ (safe_hw_doCompressData _ _ _ _) (fun _ => safe_ret tt)).
  - apply (safe_bind _ _ (safe_hw_doDecompressDataAsynchronous _ _ _ _)
             (fun _ => safe_ret tt)).
  - apply safe_hw_flushAsynchronousDecompressRequests.
  - apply safe_hw_destructor.
  - apply (safe_bind _ _ (safe_sw_doCompressData _ _ _ _) (fun _ => safe_ret tt)).
  - apply safe_sw_doDecompressData.
  - apply (safe_bind _ _ (safe_doCompressData _ _ _) (fun _ => safe_ret tt)).
  - apply safe_doDecompressData.
  - apply safe_flushAsynchronousDecompressRequests.
  - apply safe_setDecompressMode.
Qed.

End Safety.

(** ** The example worlds *)

Lemma pool_wf_default (w : World) :
  length (hw_job_ptr_locks w) = 1024%nat ->
  hw_job_ptr_pool w = map Some (seq 0 1024) ->
  length (hw_jobs_buffer w) = 1024%nat ->
  @pool_wf default_header w.
Proof.
  intros Hlocks Hpool Hbuf. unfold pool_wf.
  change (Z.to_nat (@MAX_HW_JOB_NUMBER default_header)) with 1024%nat.
  rewrite Hlocks, Hpool, Hbuf, length_map, length_seq.
  repeat split. intros _ i Hi.
  rewrite list_lookup_fmap, lookup_seq_lt by exact Hi. reflexivity.
Qed.

Lemma ready_world_wf : @pool_wf default_header ready_world.
Proof. apply pool_wf_default; reflexivity. Qed.

Lemma crowded_world_wf : @pool_wf default_header crowded_world.
Proof. apply pool_wf_default; reflexivity. Qed.

Lemma exhausted_world_wf : @pool_wf default_header exhausted_world.
Proof. apply pool_wf_default; reflexivity. Qed.

Lemma unready_world_wf : @pool_wf default_header unready_world.
Proof. apply pool_wf_default; reflexivity. Qed.

(** With every slot but slot 0 held and slot 0 drawn at the 1025th sample,
    [acquireJob] returns slot 0 after 1024 failed attempts. *)
Example acquireJob_crowded :
  match @DeflateQplJobHWPool.acquireJob default_header late_hit_accelerator 0
          crowded_world with
  | Ret (p, id) w' =>
      p = Some 0%nat /\ id = 1024 /\ failed_attempts (trace w') = 1024%nat
  | _ => False
  end.
Proof. vm_compute. auto. Qed.

(** With every slot held it returns null after 1025 failed attempts. *)
Example acquireJob_exhausted :
  match @DeflateQplJobHWPool.acquireJob default_header late_hit_accelerator 0
          exhausted_world with
  | Ret (p, id) w' =>
      p = None /\ id = 0 /\ failed_attempts (trace w') = 1025%nat
  | _ => False
  end.
Proof. vm_compute. auto. Qed.

Lemma acquireJob_gives_up_witness :
  @pool_wf default_header exhausted_world /\
  job_pool_ready exhausted_world = true /\
  exists p id w',
    @DeflateQplJobHWPool.acquireJob default_header late_hit_accelerator 0
      exhausted_world = Ret (p, id) w' /\
    Z.of_nat (failed_attempts (trace w'))
    <= Z.of_nat (failed_attempts (trace exhausted_world)) + (1024 + 1) /\
    (p = None <->
     Z.of_nat (failed_attempts (trace w'))
     = Z.of_nat (failed_attempts (trace exhausted_world)) + (1024 + 1)) /\
    ((forall k : nat, Z.of_nat k <= 1024 ->
        lock_at exhausted_world
          (@drawn_index default_header late_hit_accelerator exhausted_world k)
        = Some true) ->
     p = None /\ id = 0 /\
     hw_job_ptr_locks w' = hw_job_ptr_locks exhausted_world).
Proof.
  split; [exact exhausted_world_wf|]. split; [reflexivity|].
  apply (@acquireJob_gives_up_after_max_plus_one default_header
           late_hit_accelerator 0 exhausted_world);
    [exact exhausted_world_wf | reflexivity].
Defined.

(** C2 as stated fails on both counts, with 1024 slots: a run whose first
    1024 attempts fail can still return a slot at the 1025th, and a run
    that returns null has made 1025 failed attempts. *)
Lemma acquireJob_not_after_max_attempts :
  ~ (forall (acc : Accelerator) (w w' : World) (job_id id : Z) (p : option nat),
       @pool_wf default_header w -> job_pool_ready w = true ->
       @DeflateQplJobHWPool.acquireJob default_header acc job_id w = Ret (p, id) w' ->
       (forall k : nat, Z.of_nat k < 1024 ->
          lock_at w (@drawn_index default_header acc w k) = Some true) ->
       p = None) /\
  ~ (forall (acc : Accelerator) (w w' : World) (job_id id : Z) (p : option nat),
       @pool_wf default_header w -> job_pool_ready w = true ->
       @DeflateQplJobHWPool.acquireJob default_header acc job_id w = Ret (p, id) w' ->
       p = None ->
       Z.of_nat (failed_attempts (trace w'))
       <= Z.of_nat (failed_attempts (trace w)) + 1024).
Proof.
  split.
  - intros Hclaim.
    pose proof acquireJob_crowded as Hrun.
    destruct (@DeflateQplJobHWPool.acquireJob default_header late_hit_accelerator 0
                crowded_world) as [[p id] w'| | |] eqn:Hacq; try contradiction.
    destruct Hrun as (Hp & _).
    specialize (Hclaim late_hit_accelerator crowded_world w' 0 id p
                  crowded_world_wf eq_refl Hacq).
    rewrite Hclaim in Hp; [discriminate|].
    intros k Hk. unfold lock_at, drawn_index.
    cbn [random_engine_output late_hit_accelerator random_engine crowded_world
         set_hw_job_ptr_locks ready_world Nat.add].
    destruct (Nat.ltb_spec k 1024); [reflexivity | lia].
  - intros Hclaim.
    pose proof acquireJob_exhausted as Hrun.
    destruct (@DeflateQplJobHWPool.acquireJob default_header late_hit_accelerator 0
                exhausted_world) as [[p id] w'| | |] eqn:Hacq; try contradiction.
    destruct Hrun as (Hp & _ & Hfail).
    specialize (Hclaim late_hit_accelerator exhausted_world w' 0 id p
                  exhausted_world_wf eq_refl Hacq Hp).
    rewrite Hfail in Hclaim. cbn in Hclaim. lia.
Qed.

Example acquireJob_ready :
  match @DeflateQplJobHWPool.acquireJob default_header copy_accelerator 0
          ready_world with
  | Ret (p, id) w' => p = Some 0%nat /\ id = 1024
  | _ => False
  end.
Proof. vm_compute. auto. Qed.

Lemma job_id_encoding_inverts_witness :
  exists w',
    @pool_wf default_header ready_world /\
    @DeflateQplJobHWPool.acquireJob default_header copy_accelerator 0 ready_world
    = Ret (Some 0%nat, 1024) w' /\
    (forall i, 0 <= i < 1024 ->
       1 <= @DeflateQplJobHWPool.job_id_of_index default_header i <= 1024 /\
       @DeflateQplJobHWPool.index_of_job_id default_header
         (@DeflateQplJobHWPool.job_id_of_index default_header i) = i) /\
    (forall id, 1 <= id <= 1024 ->
       0 <= @DeflateQplJobHWPool.index_of_job_id default_header id < 1024 /\
       @DeflateQplJobHWPool.job_id_of_index default_header
         (@DeflateQplJobHWPool.index_of_job_id default_header id) = id) /\
    exists index,
      0 <= index < 1024 /\
      hw_job_ptr_locks ready_world !! Z.to_nat index = Some false /\
      hw_job_ptr_locks w'
      = <[Z.to_nat index := true]> (hw_job_ptr_locks ready_world) /\
      1024 = @DeflateQplJobHWPool.job_id_of_index default_header index /\
      1024 = 1024 - index /\
      1 <= 1024 <= 1024 /\ 1024 <> 0 /\ 1024 <> -1 /\
      @DeflateQplJobHWPool.index_of_job_id default_header 1024 = index /\
      exists w'',
        @DeflateQplJobHWPool.releaseJob default_header 1024 w' = Ret (Some 0%nat) w'' /\
        hw_job_ptr_locks w'' = <[Z.to_nat index := false]> (hw_job_ptr_locks w') /\
        hw_job_ptr_locks w'' = hw_job_ptr_locks ready_world.
Proof.
  pose proof acquireJob_ready as Hrun.
  destruct (@DeflateQplJobHWPool.acquireJob default_header copy_accelerator 0
              ready_world) as [[p id] w'| | |] eqn:Hacq; try contradiction.
  destruct Hrun as (-> & ->).
  exists w'. split; [exact ready_world_wf|]. split; [reflexivity|].
  exact (@job_id_encoding_inverts default_header copy_accelerator 0 ready_world
           0%nat 1024 w' ready_world_wf Hacq).
Defined.

Lemma in_flight_world_wf : @pool_wf default_header in_flight_world.
Proof. apply pool_wf_default; reflexivity. Qed.

Lemma in_flight_world_ok : StdMap.ok (decomp_async_job_map in_flight_world).
Proof.
  unfold StdMap.ok. cbn. repeat constructor; lia.
Qed.

Lemma in_flight_world_entries id ptr :
  (id, ptr) ∈ decomp_async_job_map in_flight_world ->
  (id, ptr) = (1, 1023%nat) \/ (id, ptr) = (3, 1021%nat).
Proof.
  cbn. intros Hin. apply elem_of_cons in Hin. destruct Hin as [Hin|Hin]; [auto|].
  apply list_elem_of_singleton in Hin. auto.
Qed.

Lemma in_flight_world_held : @in_flight_held default_header in_flight_world.
Proof.
  split; [exact in_flight_world_ok|]. intros id ptr Hin.
  destruct (in_flight_world_entries id ptr Hin) as [Heq|Heq];
    injection Heq as -> ->; (split; [cbn; lia|reflexivity]).
Qed.

Lemma in_flight_world_valid : @in_flight_valid default_header in_flight_world.
Proof.
  intros id ptr Hin.
  destruct (in_flight_world_entries id ptr Hin) as [Heq|Heq];
    injection Heq as -> ->; (split; [cbn; lia|]);
    change (length (hw_jobs_buffer in_flight_world)) with 1024%nat; lia.
Qed.

Lemma copy_accelerator_reports w ptr : @eventually_reports copy_accelerator w ptr.
Proof.
  exists 2%nat. intros job polls _ _.
  change ((polls + 2 <? 2)%nat = false). apply Nat.ltb_ge. lia.
Qed.

(** With 1024 slots and [-1] for the sentinel, a compression whose job
    fails on the hardware path returns 0 through the dispatching codec, and
    the software codec is not called. *)
Example doCompressData_failed_execute :
  match @CompressionCodecDeflateQpl.doCompressData default_header
          failing_hw_accelerator 0 3 1 ready_world with
  | Ret r w' =>
      r = 0 /\ @RET_ERROR default_header = -1 /\
      filter (on_path qpl_path_software) (trace w') = [] /\
      released_ids (trace w') = [1024]
  | _ => False
  end.
Proof. vm_compute. auto. Qed.

(** With [0] for the sentinel the same call falls back to the software
    codec, which compresses the three bytes. *)
Example doCompressData_failed_execute_zero_sentinel :
  match @CompressionCodecDeflateQpl.doCompressData zero_sentinel_header
          failing_hw_accelerator 0 3 1 ready_world with
  | Ret r w' =>
      r = 3 /\
      filter (on_path qpl_path_software) (trace w')
      = [EvExecute qpl_path_software; EvInit qpl_path_software]
  | _ => False
  end.
Proof. vm_compute. auto. Qed.

Lemma acquireJob_ready_failing_hw :
  match @DeflateQplJobHWPool.acquireJob default_header failing_hw_accelerator 0
          ready_world with
  | Ret (p, id) w' => p = Some 0%nat /\ id = 1024
  | _ => False
  end.
Proof. vm_compute. auto. Qed.

Lemma compress_execute_failure_returns_zero_witness :
  exists w1 status w',
    @DeflateQplJobHWPool.acquireJob default_header failing_hw_accelerator 0
      ready_world = Ret (Some 0%nat, 1024) w1 /\
    @HardwareCodecDeflateQpl.doCompressData default_header failing_hw_accelerator
      0 3 1 (getMaxCompressedDataSize 3) ready_world = Ret 0 w' /\
    trace w'
    = EvUnlock (1024 - 1024) :: EvReleaseJob 1024
      :: EvWarning (msg_compress_execute_failed status)
      :: EvExecute qpl_path_hardware :: trace w1 /\
    hw_job_ptr_locks w' = hw_job_ptr_locks ready_world /\
    @CompressionCodecDeflateQpl.doCompressData default_header
      failing_hw_accelerator 0 3 1 ready_world = Ret 0 w'.
Proof.
  pose proof acquireJob_ready_failing_hw as Hrun.
  destruct (@DeflateQplJobHWPool.acquireJob default_header failing_hw_accelerator 0
              ready_world) as [[p id] w1| | |] eqn:Hacq; try contradiction.
  destruct Hrun as (-> & ->).
  destruct (@compress_execute_failure_returns_zero default_header
              failing_hw_accelerator 0 3 1 ready_world 0%nat 1024 w1 zero_job
              ready_world_wf eq_refl Hacq eq_refl eq_refl)
    as (status & w' & Hhw & Htrace & Hlocks & Hdispatch & _).
  exists w1, status, w'. split; [reflexivity|]. split; [exact Hhw|].
  split; [exact Htrace|]. split; [exact Hlocks|].
  apply Hdispatch. discriminate.
Defined.

Lemma drain_terminates_and_releases_witness :
  @pool_wf default_header in_flight_world /\
  @in_flight_valid default_header in_flight_world /\
  exists fuel0, forall fuel, (fuel0 <= fuel)%nat ->
    exists w' ids,
      @HardwareCodecDeflateQpl.flushAsynchronousDecompressRequests default_header
        copy_accelerator fuel in_flight_world = Ret tt w' /\
      decomp_async_job_map w' = [] /\
      released_ids (trace w') = ids ++ released_ids (trace in_flight_world) /\
      ids ≡ₚ [1; 3] /\
      NoDup ids /\
      (job_pool_ready in_flight_world = true ->
       forall id, id ∈ ids ->
         hw_job_ptr_locks w' !! Z.to_nat (1024 - id) = Some false) /\
      (forall j : nat,
         (forall id, id ∈ ids -> Z.to_nat (1024 - id) <> j) ->
         hw_job_ptr_locks w' !! j = hw_job_ptr_locks in_flight_world !! j).
Proof.
  split; [exact in_flight_world_wf|]. split; [exact in_flight_world_valid|].
  apply (@drain_terminates_and_releases default_header copy_accelerator
           in_flight_world).
  - exact in_flight_world_wf.
  - exact in_flight_world_ok.
  - exact in_flight_world_valid.
  - intros id ptr _. apply copy_accelerator_reports.
Defined.

Example acquireJob_in_flight :
  match @DeflateQplJobHWPool.acquireJob default_header copy_accelerator 0
          in_flight_world with
  | Ret (p, id) w' => p = Some 0%nat /\ id = 1024
  | _ => False
  end.
Proof. vm_compute. auto. Qed.

Lemma submit_decompress_atomic_witness :
  exists w',
    @HardwareCodecDeflateQpl.doDecompressDataAsynchronous default_header
      copy_accelerator 0 3 1 3 in_flight_world = Ret 1024 w' /\
    1024 <> @RET_ERROR default_header /\
    decomp_async_job_map w'
    = StdMap.insert 1024 0%nat (decomp_async_job_map in_flight_world) /\
    (forall ptr, (1024, ptr) ∉ decomp_async_job_map in_flight_world) /\
    decomp_async_job_map w'
    ≡ₚ (1024, 0%nat) :: decomp_async_job_map in_flight_world /\
    hw_job_ptr_locks w' !! Z.to_nat (1024 - 1024) = Some true /\
    released_ids (trace w') = released_ids (trace in_flight_world) /\
    @in_flight_held default_header w'.
Proof.
  pose proof acquireJob_in_flight as Hrun.
  destruct (@DeflateQplJobHWPool.acquireJob default_header copy_accelerator 0
              in_flight_world) as [[p id] w1| | |] eqn:Hacq; try contradiction.
  destruct Hrun as (-> & ->).
  exact (@submit_decompress_atomic default_header copy_accelerator 0 3 1 3
           in_flight_world 0%nat 1024 w1 zero_job in_flight_world_wf
           in_flight_world_held Hacq eq_refl).
Defined.





(** [releaseJob] with the id of a job in flight. *)
Example releaseJob_in_flight :
  match @run_operation default_header copy_accelerator (op_releaseJob 3)
          in_flight_world with
  | Ret _ w' =>
      decomp_async_job_map w' = [(1, 1023%nat); (3, 1021%nat)] /\
      hw_job_ptr_locks w' !! 1021%nat = Some false
  | _ => False
  end.
Proof. vm_compute. auto. Qed.

(** The drain of the two jobs in flight, and what it leaves. *)
Example flush_in_flight :
  match @run_operation default_header copy_accelerator
          (op_hw_flushAsynchronousDecompressRequests 20) in_flight_world with
  | Ret _ w' =>
      decomp_async_job_map w' = [] /\ released_ids (trace w') = [1; 3] /\
      hw_job_ptr_locks w' = replicate 1024 false
  | _ => False
  end.
Proof. vm_compute. auto. Qed.

Lemma operations_keep_in_flight_locks_held_witness :
  (exists w',
     @run_operation default_header copy_accelerator
       (op_hw_flushAsynchronousDecompressRequests 20) in_flight_world = Ret tt w' /\
     @pool_wf default_header w' /\ @locks_kept default_header in_flight_world w' /\
     @in_flight_held default_header w') /\
  (exists w',
     @run_operation default_header copy_accelerator (op_releaseJob 3)
       in_flight_world = Ret tt w' /\
     @pool_wf default_header w' /\ @locks_kept default_header in_flight_world w' /\
     ~ @in_flight_held default_header w').
Proof.
  split.
  - pose proof (@operations_keep_in_flight_locks_held default_header
                  copy_accelerator (op_hw_flushAsynchronousDecompressRequests 20)
                  in_flight_world in_flight_world_wf in_flight_world_held
                  ltac:(discriminate)) as Hkept.
    pose proof flush_in_flight as Hrun.
    destruct (@run_operation default_header copy_accelerator
                (op_hw_flushAsynchronousDecompressRequests 20) in_flight_world)
      as [[] w'| | |]; try contradiction.
    exists w'. split; [reflexivity|].
    destruct Hkept as (Hwf' & Hlocks & Hheld & _).
    split; [exact Hwf'|]. split; [exact Hlocks|]. exact (Hheld I).
  - assert (forall job_id, op_releaseJob 3 = op_releaseJob job_id ->
                           is_uint32 job_id) as Htyped.
    { intros job_id [= <-]. unfold is_uint32. lia. }
    pose proof (@operations_keep_in_flight_locks_held default_header
                  copy_accelerator (op_releaseJob 3) in_flight_world
                  in_flight_world_wf in_flight_world_held Htyped) as Hkept.
    pose proof releaseJob_in_flight as Hrun.
    destruct (@run_operation default_header copy_accelerator (op_releaseJob 3)
                in_flight_world) as [[] w'| | |]; try contradiction.
    exists w'. split; [reflexivity|].
    destruct Hkept as (Hwf' & Hlocks & _ & Hlost).
    split; [exact Hwf'|]. split; [exact Hlocks|].
    apply (Hlost 3 1021%nat eq_refl eq_refl).
    vm_compute. right. left.
Defined.

(** C9 as stated fails for [releaseJob] itself: called with the id of the
    entry [(3, 1021)] of the map, it frees lock 1021 and leaves the entry. *)
Lemma releaseJob_frees_in_flight_lock :
  ~ (forall (hdr : Header) (acc : Accelerator) (o : Operation) (w : World),
       pool_wf w -> in_flight_held w ->
       match run_operation o w with
       | Ret _ w' | Throw _ w' => in_flight_held w'
       | _ => True
       end).
Proof.
  intros Hclaim.
  specialize (Hclaim default_header copy_accelerator (op_releaseJob 3)
                in_flight_world in_flight_world_wf in_flight_world_held).
  cbn [run_operation] in Hclaim. rewrite bind_eq in Hclaim.
  destruct (@releaseJob_of_in_flight_slot default_header 3 1021%nat
              in_flight_world in_flight_world_wf in_flight_world_held eq_refl)
    as (p & w' & Hrun & _ & _ & Hlost).
  - apply list_elem_of_lookup. exists 1%nat. reflexivity.
  - rewrite Hrun in Hclaim. exact (Hlost Hclaim).
Qed.


(** The constructor with an accelerator whose fourth [qpl_init_job]
    fails, and a compression on the pool it leaves. *)
Lemma pool_init_failure_is_permanent_witness :
  (exists w',
     @DeflateQplJobHWPool.constructor default_header failing_init_accelerator
       (@DeflateQplJobHWPool.statics_zero default_header ready_world)
     = Ret tt w' /\
     job_pool_ready w' = false) /\
  @DeflateQplJobHWPool.acquireJob default_header failing_init_accelerator 7
    unready_world = Ret (None, 7) unready_world /\
  match @run_operation default_header failing_init_accelerator
          (op_doCompressData 0 3 1) unready_world with
  | Ret _ w' | Throw _ w' => job_pool_ready w' = false
  | _ => True
  end.
Proof.
  pose proof (@pool_init_failure_is_permanent default_header
                failing_init_accelerator) as (Hctor & Hkeep & Hacq & _).
  split; [apply (Hctor ready_world 3); [cbn; lia|reflexivity]|].
  split; [apply (Hacq unready_world 7); reflexivity|].
  apply (Hkeep (op_doCompressData 0 3 1) unready_world). reflexivity.
Defined.

(** The software codec with a failing initialisation: both calls throw
    [CANNOT_COMPRESS]; with the job block there already and a failing
    execute step, the decompression throws [CANNOT_DECOMPRESS]. *)
Lemma software_failure_kinds_witness :
  ((exists w',
      @SoftwareCodecDeflateQpl.doCompressData failing_init_accelerator 0 3 1 16
        ready_world = Throw CANNOT_COMPRESS w' /\
      trace w' = EvInit qpl_path_software :: trace ready_world) /\
   (exists w',
      @SoftwareCodecDeflateQpl.doDecompressData failing_init_accelerator 0 3 1 16
        ready_world = Throw CANNOT_COMPRESS w' /\
      trace w' = EvInit qpl_path_software :: trace ready_world)) /\
  ~ @sw_job_initialised failing_init_accelerator
      (set_sw_job (Some zero_job) ready_world) /\
  exists w',
    @SoftwareCodecDeflateQpl.doDecompressData failing_init_accelerator 0 3 1 16
      (set_sw_job (Some zero_job) ready_world) = Throw CANNOT_DECOMPRESS w' /\
    trace w' = [EvExecute qpl_path_software].
Proof.
  split.
  - apply (proj1 (@software_failure_kinds failing_init_accelerator 0 3 1 16
                    ready_world)); reflexivity.
  - destruct (proj2 (proj2 (proj2 (proj2
                (@software_failure_kinds failing_init_accelerator 0 3 1 16
                   (set_sw_job (Some zero_job) ready_world)))))
                ltac:(discriminate) eq_refl) as (Hnot & Hthrow).
    split; [exact Hnot|]. apply Hthrow. reflexivity.
Defined.

Example software_codec_second_call :
  match @SoftwareCodecDeflateQpl.doDecompressData failing_init_accelerator 0 3 1 3
          ready_world with
  | Throw CANNOT_COMPRESS w1 =>
      match @SoftwareCodecDeflateQpl.doDecompressData failing_init_accelerator
              0 3 1 3 w1 with
      | Throw CANNOT_DECOMPRESS _ => True
      | _ => False
      end
  | _ => False
  end.
Proof. vm_compute. exact I. Qed.

(** C10 as stated fails on its last clause: after a call whose
    [qpl_init_job] failed, the next decompression throws
    [CANNOT_DECOMPRESS] from the job block that was never initialised. *)
Lemma cannot_decompress_from_uninitialised_job :
  ~ (forall (acc : Accelerator) source source_size dest size (w w1 w2 : World),
       sw_job w = None ->
       final_world (SoftwareCodecDeflateQpl.doDecompressData source source_size
                      dest size w) = Some w1 ->
       SoftwareCodecDeflateQpl.doDecompressData source source_size dest size w1
       = Throw CANNOT_DECOMPRESS w2 ->
       sw_job_initialised w1).
Proof.
  intros Hclaim.
  pose proof software_codec_second_call as Hrun.
  destruct (@SoftwareCodecDeflateQpl.doDecompressData failing_init_accelerator
              0 3 1 3 ready_world) as [u w1|[|] w1| |] eqn:Hfirst;
    try contradiction.
  destruct (@SoftwareCodecDeflateQpl.doDecompressData failing_init_accelerator
              0 3 1 3 w1) as [u w2|[|] w2| |] eqn:Hsecond; try contradiction.
  destruct (Hclaim failing_init_accelerator 0%nat 3 1%nat 3 ready_world w1 w2)
    as (_ & Hok).
  - reflexivity.
  - rewrite Hfirst. reflexivity.
  - exact Hsecond.
  - discriminate Hok.
Qed.


(** * Further properties of the code *)

(** ** The constructor of the pool *)

Section Constructor.
Context {hdr : Header} {acc : Accelerator}.

(** The constructor's loop in full: the slots it initialises, one after
    the other, until the first [qpl_init_job] that fails. *)
Lemma init_jobs_run len : forall a w,
  (a + len <= Z.to_nat MAX_HW_JOB_NUMBER)%nat ->
  length (hw_job_ptr_locks w) = Z.to_nat MAX_HW_JOB_NUMBER ->
  length (hw_job_ptr_pool w) = Z.to_nat MAX_HW_JOB_NUMBER ->
  length (hw_jobs_buffer w) = Z.to_nat MAX_HW_JOB_NUMBER ->
  exists completed w' n,
    DeflateQplJobHWPool.init_jobs (seq a len) w = Ret completed w' /\
    (n <= len)%nat /\
    (forall k, (a <= k < a + n)%nat ->
       status_is_ok (qpl_init_status qpl_path_hardware k) = true /\
       hw_job_ptr_pool w' !! k = Some (Some k) /\
       hw_job_ptr_locks w' !! k = Some false) /\
    (forall k, ~ (a <= k < a + n)%nat ->
       hw_job_ptr_pool w' !! k = hw_job_ptr_pool w !! k /\
       hw_job_ptr_locks w' !! k = hw_job_ptr_locks w !! k) /\
    count_events (is_init qpl_path_hardware) (trace w')
    = (count_events (is_init qpl_path_hardware) (trace w) + n
       + (if completed then 0 else 1))%nat /\
    count_events (is_fini qpl_path_hardware) (trace w')
    = count_events (is_fini qpl_path_hardware) (trace w) /\
    (if completed
     then n = len /\ job_pool_ready w' = job_pool_ready w
     else (n < len)%nat /\
          status_is_ok (qpl_init_status qpl_path_hardware (a + n)) = false /\
          job_pool_ready w' = false).
Proof.
  induction len as [|len IH]; intros a w Ha Hl Hp Hb;
    cbn [seq DeflateQplJobHWPool.init_jobs].
  - exists true, w, 0%nat. split; [reflexivity|]. split; [lia|].
    split; [intros k Hk; lia|]. split; [auto|]. split; [lia|]. auto.
  - unfold Qpl.qpl_init_job_hw. mstep.
    destruct (hw_jobs_buffer w !! a) as [job|] eqn:Hjob;
      [|apply lookup_ge_None in Hjob; lia].
    rewrite (read_hw_job_spec a job w Hjob). mstep.
    rewrite write_hw_job_spec. mstep.
    destruct (status_is_ok (qpl_init_status qpl_path_hardware a)) eqn:Hok.
    + unfold DeflateQplJobHWPool.set_job_ptr_at. mstep.
      rewrite (proj2 (Z.leb_le 0 (Z.of_nat a))) by lia.
      rewrite Nat2Z.id, bool_decide_eq_true_2 by lia.
      cbn [andb]. mstep. rewrite unLockJob_spec by (msimpl; lia). mstep.
      rewrite ?Nat2Z.id.
      match goal with
      | |- context [DeflateQplJobHWPool.init_jobs _ ?w1] =>
          destruct (IH (S a) w1) as (completed & w' & n & Hrun & Hn & Hset & Hkeep
                                     & Hinit & Hfini & Hend)
      end; msimpl; rewrite ?length_insert; try assumption; try lia.
      msimpl in Hkeep. msimpl in Hinit. msimpl in Hfini. msimpl in Hend.
      cbn [count_events is_init is_fini same_path] in Hinit, Hfini.
      exists completed, w', (S n). split; [exact Hrun|]. split; [lia|].
      split; [|split; [|split; [|split]]].
      * intros k Hk. destruct (decide (k = a)) as [->|Hne].
        -- split; [exact Hok|]. destruct (Hkeep a ltac:(lia)) as (-> & ->).
           split; apply list_lookup_insert_eq; lia.
        -- apply Hset. lia.
      * intros k Hk. destruct (Hkeep k ltac:(lia)) as (-> & ->).
        split; apply list_lookup_insert_ne; lia.
      * rewrite Hinit. lia.
      * exact Hfini.
      * destruct completed.
        -- destruct Hend as (-> & Hr). auto.
        -- destruct Hend as (Hlt & Hfail & Hr). split; [lia|].
           split; [|exact Hr].
           replace (a + S n)%nat with (S a + n)%nat by lia. exact Hfail.
    + mstep. exists false. eexists. exists 0%nat. split; [reflexivity|]. msimpl.
      cbn [count_events is_init is_fini same_path].
      split; [lia|]. split; [intros k Hk; lia|]. split; [auto|].
      split; [lia|]. split; [reflexivity|].
      split; [lia|]. split; [|reflexivity]. rewrite Nat.add_0_r. exact Hok.
Qed.

Lemma constructor_run w :
  exists completed w1 n,
    DeflateQplJobHWPool.init_jobs (seq 0 (Z.to_nat MAX_HW_JOB_NUMBER))
      (set_hw_jobs_buffer (replicate (Z.to_nat MAX_HW_JOB_NUMBER) zero_job)
         (DeflateQplJobHWPool.statics_zero w)) = Ret completed w1 /\
    DeflateQplJobHWPool.constructor (DeflateQplJobHWPool.statics_zero w)
    = Ret tt (if completed
              then set_trace (EvDebug msg_pool_ready :: trace w1)
                     (set_job_pool_ready true w1)
              else w1) /\
    (n <= Z.to_nat MAX_HW_JOB_NUMBER)%nat /\
    (forall k, (k < n)%nat ->
       status_is_ok (qpl_init_status qpl_path_hardware k) = true /\
       hw_job_ptr_pool w1 !! k = Some (Some k) /\
       hw_job_ptr_locks w1 !! k = Some false) /\
    (forall k, (n <= k < Z.to_nat MAX_HW_JOB_NUMBER)%nat ->
       hw_job_ptr_pool w1 !! k = Some None /\
       hw_job_ptr_locks w1 !! k = Some false) /\
    count_events (is_init qpl_path_hardware) (trace w1)
    = (count_events (is_init qpl_path_hardware) (trace w) + n
       + (if completed then 0 else 1))%nat /\
    count_events (is_fini qpl_path_hardware) (trace w1)
    = count_events (is_fini qpl_path_hardware) (trace w) /\
    (if completed
     then n = Z.to_nat MAX_HW_JOB_NUMBER
     else (n < Z.to_nat MAX_HW_JOB_NUMBER)%nat /\
          status_is_ok (qpl_init_status qpl_path_hardware n) = false /\
          job_pool_ready w1 = false).
Proof.
  unfold DeflateQplJobHWPool.constructor. mstep.
  match goal with
  | |- context [DeflateQplJobHWPool.init_jobs _ ?w1] =>
      destruct (init_jobs_run (Z.to_nat MAX_HW_JOB_NUMBER) 0%nat w1)
        as (completed & w1' & n & Hrun & Hn & Hset & Hkeep & Hinit & Hfini & Hend)
  end; unfold DeflateQplJobHWPool.statics_zero; msimpl;
    rewrite ?length_replicate; try reflexivity; try lia.
  unfold DeflateQplJobHWPool.statics_zero in *.
  msimpl in Hrun. msimpl in Hkeep. msimpl in Hinit. msimpl in Hfini.
  exists completed, w1', n. split; [exact Hrun|]. rewrite Hrun.
  split; [destruct completed; reflexivity|]. split; [exact Hn|].
  split; [intros k Hk; apply Hset; lia|].
  split.
  { intros k Hk. destruct (Hkeep k ltac:(lia)) as (-> & ->).
    split; apply lookup_replicate_2; lia. }
  split; [exact Hinit|]. split; [exact Hfini|].
  destruct completed; [destruct Hend as (-> & _); reflexivity|exact Hend].
Qed.

(** X1: When every [qpl_init_job] succeeds, the constructor leaves the pool
    ready: each slot points to its own job block, each lock is free, and
    [qpl_init_job] has been called once for each of the
    [MAX_HW_JOB_NUMBER] slots. *)
Theorem constructor_makes_pool_ready w :
  (forall k, (k < Z.to_nat MAX_HW_JOB_NUMBER)%nat ->
     status_is_ok (qpl_init_status qpl_path_hardware k) = true) ->
  exists w',
    DeflateQplJobHWPool.constructor (DeflateQplJobHWPool.statics_zero w) = Ret tt w' /\
    job_pool_ready w' = true /\
    (forall k, (k < Z.to_nat MAX_HW_JOB_NUMBER)%nat ->
       hw_job_ptr_pool w' !! k = Some (Some k) /\
       hw_job_ptr_locks w' !! k = Some false) /\
    count_events (is_init qpl_path_hardware) (trace w')
    = (count_events (is_init qpl_path_hardware) (trace w)
       + Z.to_nat MAX_HW_JOB_NUMBER)%nat /\
    decomp_async_job_map w' = decomp_async_job_map w.
Proof.
  intros Hall.
  destruct (constructor_run w)
    as (completed & w1 & n & Hloop & Hrun & Hn & Hset & Hrest & Hinit & _ & Hend).
  destruct completed.
  - subst n. eexists. split; [exact Hrun|]. msimpl.
    split; [reflexivity|]. split; [intros k Hk; apply Hset; exact Hk|].
    cbn [count_events is_init]. split; [lia|].
    destruct (constructor_outcome w) as (w2 & Hrun2 & _ & Hm & _).
    rewrite Hrun in Hrun2. injection Hrun2 as <-. exact Hm.
  - destruct Hend as (Hlt & Hfail & _). rewrite (Hall n Hlt) in Hfail. discriminate.
Qed.

(** X2: When a [qpl_init_job] fails, the constructor returns at once: with
    [f] the first slot whose initialisation fails, [qpl_init_job] has been
    called [f + 1] times, the slots before [f] keep their job pointers,
    the slots from [f] on are null, no job has been finalised, every lock
    is free and the pool is not ready. *)
Theorem constructor_stops_at_first_failure w (f : nat) :
  (f < Z.to_nat MAX_HW_JOB_NUMBER)%nat ->
  status_is_ok (qpl_init_status qpl_path_hardware f) = false ->
  (forall k, (k < f)%nat ->
     status_is_ok (qpl_init_status qpl_path_hardware k) = true) ->
  exists w',
    DeflateQplJobHWPool.constructor (DeflateQplJobHWPool.statics_zero w) = Ret tt w' /\
    job_pool_ready w' = false /\
    (forall k, (k < f)%nat -> hw_job_ptr_pool w' !! k = Some (Some k)) /\
    (forall k, (f <= k < Z.to_nat MAX_HW_JOB_NUMBER)%nat ->
       hw_job_ptr_pool w' !! k = Some None) /\
    (forall k, (k < Z.to_nat MAX_HW_JOB_NUMBER)%nat ->
       hw_job_ptr_locks w' !! k = Some false) /\
    count_events (is_init qpl_path_hardware) (trace w')
    = (count_events (is_init qpl_path_hardware) (trace w) + f + 1)%nat /\
    count_events (is_fini qpl_path_hardware) (trace w')
    = count_events (is_fini qpl_path_hardware) (trace w).
Proof.
  intros Hf Hfail Hbefore.
  destruct (constructor_run w)
    as (completed & w1 & n & Hloop & Hrun & Hn & Hset & Hrest & Hinit & Hfini & Hend).
  destruct completed.
  - subst n. destruct (Hset f Hf) as (Hok & _). congruence.
  - destruct Hend as (Hlt & Hfailn & Hready).
    assert (n = f) as ->.
    { destruct (Nat.lt_trichotomy n f) as [Hlt'|[Heq|Hgt]]; [|exact Heq|].
      - rewrite (Hbefore n Hlt') in Hfailn. discriminate.
      - destruct (Hset f Hgt) as (Hok & _). congruence. }
    exists w1. split; [exact Hrun|]. split; [exact Hready|].
    split; [intros k Hk; apply Hset; exact Hk|].
    split; [intros k Hk; apply Hrest; exact Hk|].
    split; [|split; [exact Hinit|exact Hfini]].
    intros k Hk. destruct (Nat.lt_ge_cases k f) as [Hlt'|Hge].
    + apply Hset. exact Hlt'.
    + apply Hrest. lia.
Qed.

End Constructor.

(** ** The destructor of the pool *)

Section PoolDestructor.
Context {hdr : Header} {acc : Accelerator}.

(** The destructor's loop in full: it finalises the slots that hold a job
    pointer, and spins on the first of them whose lock is held. *)
Lemma fini_jobs_run len : forall a w,
  (a + len <= Z.to_nat MAX_HW_JOB_NUMBER)%nat ->
  length (hw_job_ptr_locks w) = Z.to_nat MAX_HW_JOB_NUMBER ->
  length (hw_job_ptr_pool w) = Z.to_nat MAX_HW_JOB_NUMBER ->
  match DeflateQplJobHWPool.fini_jobs (seq a len) w with
  | Ret _ w' =>
      (forall k p, (a <= k < a + len)%nat ->
         hw_job_ptr_pool w !! k = Some (Some p) ->
         hw_job_ptr_locks w !! k = Some false) /\
      (forall k, (a <= k < a + len)%nat -> hw_job_ptr_pool w' !! k = Some None) /\
      (forall k, ~ (a <= k < a + len)%nat ->
         hw_job_ptr_pool w' !! k = hw_job_ptr_pool w !! k) /\
      hw_job_ptr_locks w' = hw_job_ptr_locks w /\
      count_events (is_fini qpl_path_hardware) (trace w')
      = (count_events (is_fini qpl_path_hardware) (trace w)
         + length (omap id (take len (drop a (hw_job_ptr_pool w)))))%nat /\
      job_pool_ready w' = job_pool_ready w /\
      decomp_async_job_map w' = decomp_async_job_map w /\
      hw_jobs_buffer w' = hw_jobs_buffer w
  | OutOfFuel =>
      exists k p, (a <= k < a + len)%nat /\
        hw_job_ptr_pool w !! k = Some (Some p) /\
        hw_job_ptr_locks w !! k = Some true
  | _ => False
  end.
Proof.
  induction len as [|len IH]; intros a w Ha Hl Hp;
    cbn [seq DeflateQplJobHWPool.fini_jobs].
  - cbn. rewrite take_0. cbn. split; [intros; lia|]. split; [intros; lia|].
    repeat split. lia.
  - destruct (hw_job_ptr_pool w !! a) as [p|] eqn:Hptr;
      [|apply lookup_ge_None in Hptr; lia].
    rewrite bind_eq, (job_ptr_at_spec (Z.of_nat a) w p)
      by (rewrite ?Nat2Z.id; first [lia|exact Hptr]).
    rewrite (drop_S _ _ _ Hptr). cbn [take omap].
    destruct p as [p|].
    + rewrite bind_eq, tryLockJob_spec.
      rewrite (proj2 (index_in_range_true (Z.of_nat a))) by lia.
      rewrite Nat2Z.id.
      destruct (hw_job_ptr_locks w !! a) as [[|]|] eqn:Hlock;
        [| |apply lookup_ge_None in Hlock; lia].
      * mstep. exists a, p. split; [lia|]. auto.
      * mstep. rewrite unLockJob_spec by (msimpl; rewrite ?length_insert; lia).
        mstep. unfold DeflateQplJobHWPool.set_job_ptr_at. mstep.
        rewrite (proj2 (Z.leb_le 0 (Z.of_nat a))) by lia.
        rewrite Nat2Z.id, bool_decide_eq_true_2 by lia.
        cbn [andb]. mstep.
        rewrite list_insert_insert_eq, (list_insert_id _ _ _ Hlock).
        match goal with
        | |- context [DeflateQplJobHWPool.fini_jobs _ ?w1] =>
            specialize (IH (S a) w1)
        end.
        msimpl in IH. rewrite length_insert in IH.
        specialize (IH ltac:(lia) Hl Hp).
        rewrite drop_insert_lt in IH by lia.
        destruct (DeflateQplJobHWPool.fini_jobs _ _) as [u w'|code w'| |];
          try contradiction.
        -- destruct IH as (Hfree & Hnull & Hkeep & Hlocks & Hfini & Hr & Hm & Hb).
           cbn [count_events is_fini same_path] in Hfini.
           split; [|split; [|split; [|split; [|split]]]].
           ++ intros k q Hk Hq. destruct (decide (k = a)) as [->|Hne];
                [exact Hlock|].
              apply (Hfree k q ltac:(lia)).
              rewrite list_lookup_insert_ne by lia. exact Hq.
           ++ intros k Hk. destruct (decide (k = a)) as [->|Hne].
              ** rewrite Hkeep by lia. apply list_lookup_insert_eq. lia.
              ** apply Hnull. lia.
           ++ intros k Hk. rewrite Hkeep by lia.
              apply list_lookup_insert_ne. lia.
           ++ exact Hlocks.
           ++ rewrite Hfini. cbn [list_omap id length]. fold (@omap list _ (option nat) nat id). lia.
           ++ auto.
        -- destruct IH as (k & q & Hk & Hq & Hheld).
           exists k, q. split; [lia|].
           rewrite list_lookup_insert_ne in Hq by lia. auto.
    + specialize (IH (S a) w ltac:(lia) Hl Hp).
      destruct (DeflateQplJobHWPool.fini_jobs _ w) as [u w'|code w'| |];
        try contradiction.
      * destruct IH as (Hfree & Hnull & Hkeep & Hlocks & Hfini & Hrest).
        split; [|split; [|split; [|split; [|split]]]].
        -- intros k q Hk Hq. destruct (decide (k = a)) as [->|Hne];
             [congruence|].
           apply (Hfree k q ltac:(lia) Hq).
        -- intros k Hk. destruct (decide (k = a)) as [->|Hne].
           ++ rewrite Hkeep by lia. exact Hptr.
           ++ apply Hnull. lia.
        -- intros k Hk. apply Hkeep. lia.
        -- exact Hlocks.
        -- exact Hfini.
        -- exact Hrest.
      * destruct IH as (k & q & Hk & Hq & Hheld). exists k, q. split; [lia|]. auto.
Qed.

Lemma pool_destructor_run_free w :
  length (hw_job_ptr_locks w) = Z.to_nat MAX_HW_JOB_NUMBER ->
  length (hw_job_ptr_pool w) = Z.to_nat MAX_HW_JOB_NUMBER ->
  (forall k p, hw_job_ptr_pool w !! k = Some (Some p) ->
     hw_job_ptr_locks w !! k = Some false) ->
  exists w',
    DeflateQplJobHWPool.destructor w = Ret tt w' /\
    job_pool_ready w' = false /\
    (forall k, (k < Z.to_nat MAX_HW_JOB_NUMBER)%nat ->
       hw_job_ptr_pool w' !! k = Some None) /\
    hw_job_ptr_locks w' = hw_job_ptr_locks w /\
    count_events (is_fini qpl_path_hardware) (trace w')
    = (count_events (is_fini qpl_path_hardware) (trace w)
       + length (omap id (hw_job_ptr_pool w)))%nat /\
    decomp_async_job_map w' = decomp_async_job_map w.
Proof.
  intros Hl Hp Hfree. unfold DeflateQplJobHWPool.destructor. rewrite bind_eq.
  pose proof (fini_jobs_run (Z.to_nat MAX_HW_JOB_NUMBER) 0%nat w ltac:(lia) Hl Hp)
    as Hrun.
  destruct (DeflateQplJobHWPool.fini_jobs _ w) as [[] w'|code w'| |];
    try contradiction.
  - destruct Hrun as (_ & Hnull & _ & Hlocks & Hfini & _ & Hm & _).
    eexists. split; [reflexivity|]. msimpl. split; [reflexivity|].
    split; [intros k Hk; apply Hnull; lia|]. split; [exact Hlocks|].
    split; [|exact Hm].
    rewrite Hfini, drop_0, take_ge by lia. reflexivity.
  - destruct Hrun as (k & p & _ & Hptr & Hheld).
    rewrite (Hfree k p Hptr) in Hheld. discriminate.
Qed.


(** X4: The destructor does not return while a job is held: on a slot that
    holds a job pointer and whose lock is held, [while (!tryLockJob(i));]
    spins, with no other thread to release the lock. *)
Theorem pool_destructor_spins_on_held_slot w (k p : nat) :
  length (hw_job_ptr_locks w) = Z.to_nat MAX_HW_JOB_NUMBER ->
  length (hw_job_ptr_pool w) = Z.to_nat MAX_HW_JOB_NUMBER ->
  hw_job_ptr_pool w !! k = Some (Some p) ->
  hw_job_ptr_locks w !! k = Some true ->
  DeflateQplJobHWPool.destructor w = OutOfFuel.
Proof.
  intros Hl Hp Hptr Hheld. unfold DeflateQplJobHWPool.destructor. rewrite bind_eq.
  pose proof (fini_jobs_run (Z.to_nat MAX_HW_JOB_NUMBER) 0%nat w ltac:(lia) Hl Hp)
    as Hrun.
  destruct (DeflateQplJobHWPool.fini_jobs _ w) as [[] w'|code w'| |];
    try contradiction; [|reflexivity].
  destruct Hrun as (Hfree & _).
  assert (k < Z.to_nat MAX_HW_JOB_NUMBER)%nat as Hk
    by (apply lookup_lt_Some in Hptr; lia).
  rewrite (Hfree k p ltac:(lia) Hptr) in Hheld. discriminate.
Qed.

Lemma omap_prefix_length {A} (l : list (option A)) : forall n : nat,
  (n <= length l)%nat ->
  (forall k, (k < n)%nat -> exists x, l !! k = Some (Some x)) ->
  (forall k, (n <= k < length l)%nat -> l !! k = Some None) ->
  length (omap id l) = n.
Proof.
  induction l as [|o l IH]; intros n Hn Hsome Hnone.
  - cbn in Hn. cbn. lia.
  - destruct n as [|n].
    + specialize (Hnone 0%nat ltac:(cbn; lia)) as H0. cbn in H0.
      injection H0 as ->. cbn [omap list_omap].
      apply (IH 0%nat); [lia|intros k Hk; lia|].
      intros k Hk. apply (Hnone (S k)). cbn. lia.
    + destruct (Hsome 0%nat ltac:(lia)) as [x Hx]. cbn in Hx.
      injection Hx as ->. cbn [omap list_omap id length]. f_equal.
      apply (IH n); [cbn in Hn; lia| |].
      * intros k Hk. apply (Hsome (S k)). lia.
      * intros k Hk. apply (Hnone (S k)). cbn. lia.
Qed.

(** X5: Construction and destruction pair up: on the pool the constructor
    leaves, the destructor returns, and it finalises exactly the jobs whose
    initialisation succeeded; after a construction that failed, the job
    whose [qpl_init_job] failed is not finalised. *)
Theorem destructor_finalises_what_constructor_initialised w :
  exists w1 w2,
    DeflateQplJobHWPool.constructor (DeflateQplJobHWPool.statics_zero w) = Ret tt w1 /\
    DeflateQplJobHWPool.destructor w1 = Ret tt w2 /\
    (count_events (is_init qpl_path_hardware) (trace w1)
     - count_events (is_init qpl_path_hardware) (trace w)
     = (count_events (is_fini qpl_path_hardware) (trace w2)
        - count_events (is_fini qpl_path_hardware) (trace w))
       + (if job_pool_ready w1 then 0 else 1))%nat /\
    (forall k, (k < Z.to_nat MAX_HW_JOB_NUMBER)%nat ->
       hw_job_ptr_pool w2 !! k = Some None) /\
    job_pool_ready w2 = false.
Proof.
  destruct (constructor_run w)
    as (completed & w1 & n & Hloop & Hrun & Hn & Hset & Hrest & Hinit & Hfini & Hend).
  pose proof (init_jobs_outcome (Z.to_nat MAX_HW_JOB_NUMBER) 0%nat
                (set_hw_jobs_buffer (replicate (Z.to_nat MAX_HW_JOB_NUMBER) zero_job)
                   (DeflateQplJobHWPool.statics_zero w))) as Hlen.
  unfold DeflateQplJobHWPool.statics_zero in Hlen, Hloop. msimpl in Hlen.
  rewrite !length_replicate in Hlen.
  specialize (Hlen ltac:(lia) eq_refl eq_refl eq_refl).
  unfold DeflateQplJobHWPool.statics_zero in Hrun.
  rewrite Hloop in Hlen. destruct Hlen as (Hl & Hp & _).
  set (w1' := if completed
              then set_trace (EvDebug msg_pool_ready :: trace w1)
                     (set_job_pool_ready true w1)
              else w1) in *.
  assert (hw_job_ptr_pool w1' = hw_job_ptr_pool w1 /\
          hw_job_ptr_locks w1' = hw_job_ptr_locks w1 /\
          count_events (is_init qpl_path_hardware) (trace w1')
          = count_events (is_init qpl_path_hardware) (trace w1) /\
          count_events (is_fini qpl_path_hardware) (trace w1')
          = count_events (is_fini qpl_path_hardware) (trace w1) /\
          job_pool_ready w1' = completed) as (Hp1 & Hl1 & Hi1 & Hf1 & Hr1).
  { subst w1'. destruct completed; msimpl; repeat split.
    destruct Hend as (_ & _ & Hr). exact Hr. }
  destruct (pool_destructor_run_free w1') as (w2 & Hdtor & Hready & Hnull & _ & Hcount & _).
  { rewrite Hl1. exact Hl. }
  { rewrite Hp1. exact Hp. }
  { intros k p Hptr. rewrite Hp1 in Hptr. rewrite Hl1.
    assert (k < Z.to_nat MAX_HW_JOB_NUMBER)%nat as Hk
      by (apply lookup_lt_Some in Hptr; lia).
    destruct (Nat.lt_ge_cases k n) as [Hlt|Hge].
    - apply Hset. exact Hlt.
    - apply Hrest. lia. }
  exists w1', w2. split; [exact Hrun|]. split; [exact Hdtor|].
  split; [|split; [exact Hnull|exact Hready]].
  rewrite Hcount, Hf1, Hi1, Hinit, Hfini, Hr1, Hp1.
  rewrite (omap_prefix_length (hw_job_ptr_pool w1) n).
  - destruct completed; lia.
  - lia.
  - intros k Hk. exists k. apply Hset. exact Hk.
  - intros k Hk. apply Hrest. lia.
Qed.

End PoolDestructor.

(** ** Acquiring and releasing slots *)

Section Slots.
Context {hdr : Header} {acc : Accelerator}.

(** X6: No slot is handed out twice: two calls of [acquireJob] in a row that
    both return a job return different job pointers and different ids, and
    hold both locks. *)
Theorem acquireJob_twice_distinct job_id1 job_id2 w p1 id1 w1 p2 id2 w2 :
  pool_wf w ->
  DeflateQplJobHWPool.acquireJob job_id1 w = Ret (Some p1, id1) w1 ->
  DeflateQplJobHWPool.acquireJob job_id2 w1 = Ret (Some p2, id2) w2 ->
  p1 <> p2 /\ id1 <> id2 /\
  hw_job_ptr_locks w2 !! p1 = Some true /\
  hw_job_ptr_locks w2 !! p2 = Some true /\
  hw_job_ptr_locks w !! p1 = Some false /\
  hw_job_ptr_locks w !! p2 = Some false.
Proof.
  intros Hwf Hacq1 Hacq2.
  pose proof (acquireJob_outcome job_id1 w Hwf) as H1. rewrite Hacq1 in H1.
  destruct H1 as (Hframe1 & _ & [(_ & Hnone & _) | [(_ & Hnone & _)
                 | (_ & i & Hi & Hp1 & Hid1 & Hfree1 & Hl1 & _)]]);
    try discriminate.
  assert (pool_wf w1) as Hwf1
    by (apply (pool_wf_frame w); [assumption|rewrite Hl1; apply length_insert
                                 |assumption]).
  pose proof (acquireJob_outcome job_id2 w1 Hwf1) as H2. rewrite Hacq2 in H2.
  destruct H2 as (_ & _ & [(_ & Hnone & _) | [(_ & Hnone & _)
                 | (_ & j & Hj & Hp2 & Hid2 & Hfree2 & Hl2 & _)]]);
    try discriminate.
  injection Hp1 as ->. injection Hp2 as ->.
  assert (Z.to_nat i < length (hw_job_ptr_locks w))%nat as Hlt
    by (apply lookup_lt_Some in Hfree1; exact Hfree1).
  assert (Z.to_nat i <> Z.to_nat j) as Hne.
  { intros Heq. rewrite Hl1, <- Heq, list_lookup_insert_eq in Hfree2 by exact Hlt.
    discriminate. }
  split; [exact Hne|]. split; [lia|].
  rewrite Hl2, Hl1. rewrite Hl1 in Hfree2.
  rewrite list_lookup_insert_ne in Hfree2 by exact Hne.
  split; [|split; [|split; assumption]].
  - rewrite list_lookup_insert_ne by (intros Heq; apply Hne; symmetry; exact Heq).
    apply list_lookup_insert_eq. exact Hlt.
  - apply list_lookup_insert_eq. rewrite length_insert.
    apply lookup_lt_Some in Hfree2. exact Hfree2.
Qed.

(** X7: On a ready pool [releaseJob] fails its assertion for every id that is
    not the id of a slot: for 0, which [*job_id] holds when [acquireJob]
    returned null, and for every id above [MAX_HW_JOB_NUMBER]. *)
Theorem releaseJob_rejects_foreign_id job_id w :
  is_uint32 job_id -> job_pool_ready w = true ->
  ~ (1 <= job_id <= MAX_HW_JOB_NUMBER) ->
  DeflateQplJobHWPool.releaseJob job_id w = Undefined.
Proof.
  intros Hu Hready Hout.
  destruct (releaseJob_id_range job_id w Hu Hready) as [Hin|Hundef];
    [contradiction|exact Hundef].
Qed.

(** X8: [releaseJob] does not check that the slot is held: on a ready pool it
    frees the lock of the slot whatever its state, so a second release of
    the same id returns the same job pointer and changes no lock. *)
Theorem releaseJob_twice job_id w :
  pool_wf w -> job_pool_ready w = true -> 1 <= job_id <= MAX_HW_JOB_NUMBER ->
  exists w1 w2,
    DeflateQplJobHWPool.releaseJob job_id w
    = Ret (Some (Z.to_nat (MAX_HW_JOB_NUMBER - job_id))) w1 /\
    DeflateQplJobHWPool.releaseJob job_id w1
    = Ret (Some (Z.to_nat (MAX_HW_JOB_NUMBER - job_id))) w2 /\
    hw_job_ptr_locks w1
    = <[Z.to_nat (MAX_HW_JOB_NUMBER - job_id) := false]> (hw_job_ptr_locks w) /\
    hw_job_ptr_locks w2 = hw_job_ptr_locks w1 /\
    released_ids (trace w2) = job_id :: job_id :: released_ids (trace w).
Proof.
  intros Hwf Hready Hid.
  rewrite (releaseJob_ready job_id w Hwf Hready Hid).
  eexists. eexists. split; [reflexivity|].
  rewrite releaseJob_ready; [| |msimpl; exact Hready|exact Hid].
  - split; [reflexivity|]. msimpl. rewrite list_insert_insert_eq. repeat split.
  - apply (pool_wf_shape w); [|exact Hwf]. unfold pool_shape. msimpl.
    rewrite length_insert. repeat split.
Qed.

End Slots.

(** ** Compression through the dispatching codec *)

Section Compression.
Context {hdr : Header} {acc : Accelerator}.

Lemma to_uint32_idem z : to_uint32 (to_uint32 z) = to_uint32 z.
Proof. unfold to_uint32. apply Z.mod_mod. lia. Qed.

(** X9: When a slot is acquired and the job succeeds, the compressed data are
    those of the hardware path: the dispatching [doCompressData] returns
    the number of bytes the job wrote (one that fits the [int32_t] it
    passes through), in the world the hardware codec leaves; the locks are
    as before the call and the software codec has not run. *)
Theorem doCompressData_on_hardware
    source source_size dest w job_ptr job_id w1 job0 :
  pool_wf w -> job_pool_ready w = true ->
  DeflateQplJobHWPool.acquireJob 0 w = Ret (Some job_ptr, job_id) w1 ->
  hw_jobs_buffer w !! job_ptr = Some job0 ->
  let job := HardwareCodecDeflateQpl.compress_job job0 source source_size dest
               (getMaxCompressedDataSize source_size) in
  let result := Qpl.job_result qpl_path_hardware job w in
  status_is_ok (fst result) = true ->
  0 < Z.of_nat (length (snd result)) < 2 ^ 31 ->
  exists w',
    HardwareCodecDeflateQpl.doCompressData source source_size dest
      (getMaxCompressedDataSize source_size) w
    = Ret (Z.of_nat (length (snd result))) w' /\
    CompressionCodecDeflateQpl.doCompressData source source_size dest w
    = Ret (Z.of_nat (length (snd result))) w' /\
    mem w' = Qpl.mem_after job (snd result) w /\
    hw_job_ptr_locks w' = hw_job_ptr_locks w /\
    decomp_async_job_map w' = decomp_async_job_map w /\
    sw_job w' = sw_job w.
Proof.
  pose proof RET_ERROR_range as HE.
  intros Hwf Hready Hacq Hjob0 job result Hok Hlen.
  pose proof (hw_doCompressData_outcome source source_size dest
                (getMaxCompressedDataSize source_size) w Hwf) as Hout.
  rewrite Hacq in Hout.
  destruct Hout as (job0' & w' & Hjob0' & Hout). cbv zeta in Hout.
  rewrite Hjob0 in Hjob0'. injection Hjob0' as <-.
  fold job in Hout. fold result in Hout. rewrite Hok in Hout.
  rewrite (to_uint32_small (Z.of_nat (length (snd result)))) in Hout by lia.
  rewrite to_int32_small in Hout by lia.
  destruct Hout as (Hrun & _ & Hl & Hmem & _ & Hm & Hsw & _).
  exists w'. split; [exact Hrun|].
  split; [|repeat split; assumption].
  unfold CompressionCodecDeflateQpl.doCompressData,
    DeflateQplJobHWPool.isJobPoolReady.
  mstep. rewrite Hready, Hrun. mstep.
  rewrite (proj2 (Z.eqb_neq _ RET_ERROR)) by lia. mstep.
  rewrite to_uint32_small by lia. reflexivity.
Qed.

(** X10: When [acquireJob] finds no slot, the hardware codec logs the warning
    and the dispatching [doCompressData] does what the software codec does
    from there: the same result, unchanged by its passage through an
    [int32_t], or the same exception, in the same world. *)
Theorem doCompressData_falls_back_without_slot source source_size dest w job_id w1 :
  pool_wf w -> job_pool_ready w = true ->
  DeflateQplJobHWPool.acquireJob 0 w = Ret (None, job_id) w1 ->
  CompressionCodecDeflateQpl.doCompressData source source_size dest w
  = SoftwareCodecDeflateQpl.doCompressData source source_size dest
      (getMaxCompressedDataSize source_size)
      (set_trace (EvWarning msg_compress_acquire_failed :: trace w1) w1).
Proof.
  intros Hwf Hready Hacq.
  pose proof (hw_doCompressData_outcome source source_size dest
                (getMaxCompressedDataSize source_size) w Hwf) as Hout.
  rewrite Hacq in Hout.
  unfold CompressionCodecDeflateQpl.doCompressData,
    DeflateQplJobHWPool.isJobPoolReady.
  mstep. rewrite Hready, Hout. mstep. rewrite Z.eqb_refl. rewrite !bind_eq.
  rewrite sw_doCompressData_outcome. cbv zeta.
  destruct (sw_job_available _); [|reflexivity].
  destruct (status_is_ok _); [|reflexivity].
  mstep. rewrite to_uint32_to_int32, to_uint32_idem. reflexivity.
Qed.

End Compression.

(** ** Decompression through the dispatching codec *)

Section Decompression.
Context {hdr : Header} {acc : Accelerator}.

(** X11: With a ready pool but no free slot, [doDecompressData] in the
    [Synchronous] and in the [Asynchronous] mode does what the software
    codec does after the warning of the hardware codec; no job is put in
    flight. *)
Theorem doDecompressData_falls_back_without_slot
    fuel source source_size dest uncompressed_size w job_id w1 :
  pool_wf w -> job_pool_ready w = true ->
  decompress_mode w <> SoftwareFallback ->
  DeflateQplJobHWPool.acquireJob 0 w = Ret (None, job_id) w1 ->
  CompressionCodecDeflateQpl.doDecompressData fuel source source_size dest
    uncompressed_size w
  = SoftwareCodecDeflateQpl.doDecompressData source source_size dest
      uncompressed_size
      (set_trace (EvWarning msg_decompress_acquire_failed :: trace w1) w1) /\
  decomp_async_job_map w1 = decomp_async_job_map w /\
  hw_job_ptr_locks w1 = hw_job_ptr_locks w.
Proof.
  intros Hwf Hready Hmode Hacq.
  pose proof (hw_doDecompressDataAsynchronous_outcome source source_size dest
                uncompressed_size w Hwf) as Hout.
  pose proof (acquireJob_outcome 0 w Hwf) as Hframe.
  rewrite Hacq in Hout, Hframe.
  destruct Hframe as ((_ & _ & _ & Hm & _) & _ & Hcase).
  assert (hw_job_ptr_locks w1 = hw_job_ptr_locks w) as Hl.
  { destruct Hcase as [(_ & _ & _ & Hl & _) | [(_ & _ & _ & Hl & _)
                      | (_ & i & _ & Hp & _)]]; [exact Hl..|discriminate]. }
  split; [|split; assumption].
  unfold CompressionCodecDeflateQpl.doDecompressData,
    CompressionCodecDeflateQpl.getDecompressMode,
    DeflateQplJobHWPool.isJobPoolReady.
  mstep. destruct (decompress_mode w); [| |contradiction];
    mstep; rewrite Hready, ?bind_eq, Hout; mstep; rewrite Z.eqb_refl; reflexivity.
Qed.

(** X12: In the [Asynchronous] mode an accepted submission is all that
    [doDecompressData] does: it returns in the world the hardware codec's
    submission leaves, with the job in flight under its id and the lock of
    its slot held; nothing is polled, drained or run in software. *)
Theorem doDecompressData_asynchronous_leaves_job_in_flight
    fuel source source_size dest uncompressed_size w job_ptr job_id w1 job0 :
  pool_wf w -> job_pool_ready w = true -> decompress_mode w = Asynchronous ->
  DeflateQplJobHWPool.acquireJob 0 w = Ret (Some job_ptr, job_id) w1 ->
  hw_jobs_buffer w !! job_ptr = Some job0 ->
  status_is_ok
    (qpl_submit_status job_ptr
       (HardwareCodecDeflateQpl.decompress_job job0 source source_size dest
          uncompressed_size)) = true ->
  exists w',
    HardwareCodecDeflateQpl.doDecompressDataAsynchronous source source_size dest
      uncompressed_size w = Ret job_id w' /\
    CompressionCodecDeflateQpl.doDecompressData fuel source source_size dest
      uncompressed_size w = Ret tt w' /\
    decomp_async_job_map w'
    = StdMap.insert job_id job_ptr (decomp_async_job_map w) /\
    hw_job_ptr_locks w' !! job_ptr = Some true /\
    trace w' = EvSubmit job_ptr :: trace w1 /\
    decompress_mode w' = Asynchronous.
Proof.
  pose proof MAX_HW_JOB_NUMBER_range as HN.
  pose proof RET_ERROR_range as HE.
  intros Hwf Hready Hmode Hacq Hjob0 Hok.
  pose proof (hw_doDecompressDataAsynchronous_outcome source source_size dest
                uncompressed_size w Hwf) as Hout.
  rewrite Hacq in Hout.
  destruct Hout as (i & job0' & w' & Hi & -> & -> & Hfree & Hlocks & Hjob0' & Hcase
                    & _ & _ & Hmode' & _).
  rewrite Hjob0 in Hjob0'. injection Hjob0' as <-.
  cbv zeta in Hcase. rewrite Hok in Hcase.
  destruct Hcase as (Hrun & Hm & Hl & _ & Htrace).
  exists w'. split; [exact Hrun|]. split.
  - unfold CompressionCodecDeflateQpl.doDecompressData,
      CompressionCodecDeflateQpl.getDecompressMode,
      DeflateQplJobHWPool.isJobPoolReady.
    mstep. rewrite Hmode. mstep. rewrite Hready, ?bind_eq, Hrun. mstep.
    rewrite (proj2 (Z.eqb_neq _ RET_ERROR)) by lia. reflexivity.
  - split; [exact Hm|]. split; [|split; [exact Htrace|congruence]].
    rewrite Hl, Hlocks. apply list_lookup_insert_eq.
    apply lookup_lt_Some in Hfree. exact Hfree.
Qed.

(** X13: With no job in flight, or with a pool that is not ready, the codec's
    [flushAsynchronousDecompressRequests] only sets the [Synchronous] mode:
    it polls nothing, releases nothing and does not pause, whatever the
    fuel. *)
Theorem flush_without_jobs_sets_mode fuel w :
  decomp_async_job_map w = [] \/ job_pool_ready w = false ->
  CompressionCodecDeflateQpl.flushAsynchronousDecompressRequests fuel w
  = Ret tt (set_decompress_mode Synchronous w).
Proof.
  intros Hcase.
  unfold CompressionCodecDeflateQpl.flushAsynchronousDecompressRequests,
    DeflateQplJobHWPool.isJobPoolReady, CompressionCodecDeflateQpl.setDecompressMode,
    HardwareCodecDeflateQpl.flushAsynchronousDecompressRequests.
  mstep. destruct (job_pool_ready w) eqn:Hready; [|reflexivity].
  destruct Hcase as [Hm|Hr]; [|discriminate].
  mstep. rewrite Hm. destruct fuel; reflexivity.
Qed.

Lemma hw_doCompressData_returns source source_size dest dest_size w :
  pool_wf w ->
  exists r w',
    HardwareCodecDeflateQpl.doCompressData source source_size dest dest_size w
    = Ret r w'.
Proof.
  intros Hwf.
  pose proof (hw_doCompressData_outcome source source_size dest dest_size w Hwf)
    as Hout.
  destruct (DeflateQplJobHWPool.acquireJob 0 w) as [[[ptr|] id] w1| | |];
    try contradiction.
  - destruct Hout as (job0 & w' & _ & Hout). cbv zeta in Hout.
    destruct Hout as (Hrun & _). eauto.
  - eauto.
Qed.

Lemma hw_doDecompressDataAsynchronous_returns source source_size dest size w :
  pool_wf w ->
  exists r w',
    HardwareCodecDeflateQpl.doDecompressDataAsynchronous source source_size dest
      size w = Ret r w'.
Proof.
  intros Hwf.
  pose proof (hw_doDecompressDataAsynchronous_outcome source source_size dest size
                w Hwf) as Hout.
  destruct (DeflateQplJobHWPool.acquireJob 0 w) as [[[ptr|] id] w1| | |];
    try contradiction.
  - destruct Hout as (i & job0 & w' & _ & _ & _ & _ & _ & _ & Hcase & _).
    cbv zeta in Hcase.
    destruct (status_is_ok _); destruct Hcase as (Hrun & _); eauto.
  - eauto.
Qed.

(** X22: On a well-formed pool the calls of the dispatching codec that
    do not drain are always defined: [doCompressData], and
    [doDecompressData] in the [Asynchronous] and [SoftwareFallback] modes,
    return or throw; no assertion fails, no array is indexed out of its
    bounds and no null job pointer is used, whatever the locks and the
    accelerator's answers are. *)
Theorem dispatch_calls_are_defined
    fuel source source_size dest uncompressed_size w :
  pool_wf w ->
  (exists w',
     final_world (CompressionCodecDeflateQpl.doCompressData source source_size
                    dest w) = Some w') /\
  (decompress_mode w <> Synchronous ->
   exists w',
     final_world (CompressionCodecDeflateQpl.doDecompressData fuel source
                    source_size dest uncompressed_size w) = Some w').
Proof.
  intros Hwf. split.
  - unfold CompressionCodecDeflateQpl.doCompressData,
      DeflateQplJobHWPool.isJobPoolReady.
    mstep.
    assert (exists res w1,
              (if job_pool_ready w
               then HardwareCodecDeflateQpl.doCompressData source source_size dest
                      (getMaxCompressedDataSize source_size)
               else ret RET_ERROR) w = Ret res w1) as (res & w1 & ->).
    { destruct (job_pool_ready w); [|eexists; eexists; reflexivity].
      apply hw_doCompressData_returns. exact Hwf. }
    mstep. destruct (res =? RET_ERROR); [|eexists; reflexivity].
    rewrite !bind_eq.
    destruct (sw_doCompressData_final source source_size dest
                (getMaxCompressedDataSize source_size) w1) as (w2 & Hfin & _).
    destruct (SoftwareCodecDeflateQpl.doCompressData _ _ _ _ w1)
      as [r w3|code w3| |]; try discriminate; eexists; reflexivity.
  - intros Hmode.
    unfold CompressionCodecDeflateQpl.doDecompressData,
      CompressionCodecDeflateQpl.getDecompressMode,
      DeflateQplJobHWPool.isJobPoolReady.
    mstep. destruct (decompress_mode w); [contradiction| |].
    + mstep.
      assert (exists res w1,
                (if job_pool_ready w
                 then HardwareCodecDeflateQpl.doDecompressDataAsynchronous source
                        source_size dest uncompressed_size
                 else ret RET_ERROR) w = Ret res w1) as (res & w1 & ->).
      { destruct (job_pool_ready w); [|eexists; eexists; reflexivity].
        apply hw_doDecompressDataAsynchronous_returns. exact Hwf. }
      destruct (res =? RET_ERROR); [|eexists; reflexivity].
      destruct (sw_doDecompressData_final source source_size dest
                  uncompressed_size w1) as (w2 & Hfin & _).
      eauto.
    + destruct (sw_doDecompressData_final source source_size dest
                  uncompressed_size w) as (w2 & Hfin & _).
      eauto.
Qed.

End Decompression.

(** ** No slot is leaked *)

Section Accounting.
Context {hdr : Header} {acc : Accelerator}.

Lemma map_insert_mono k v m e : e ∈ m -> e ∈ StdMap.insert k v m.
Proof.
  induction m as [|[k0 v0] m IH]; cbn [StdMap.insert]; intros Hin.
  - apply elem_of_nil in Hin. contradiction.
  - destruct (k <? k0); [apply elem_of_cons; auto|].
    destruct (k =? k0); [exact Hin|].
    apply elem_of_cons in Hin. apply elem_of_cons.
    destruct Hin as [->|Hin]; auto.
Qed.

Lemma map_insert_has_key k v m : exists v', (k, v') ∈ StdMap.insert k v m.
Proof.
  induction m as [|[k0 v0] m IH]; cbn [StdMap.insert].
  - exists v. apply list_elem_of_singleton. reflexivity.
  - destruct (k <? k0); [exists v; apply elem_of_cons; auto|].
    destruct (Z.eqb_spec k k0) as [->|Hne].
    + exists v0. apply elem_of_cons. auto.
    + destruct IH as [v' Hin]. exists v'. apply elem_of_cons. auto.
Qed.

Lemma elem_of_delete_other {A} (l : list A) (it : nat) x y :
  x ∈ l -> l !! it = Some y -> x <> y -> x ∈ delete it l.
Proof.
  intros Hin Hit Hne. apply list_elem_of_lookup in Hin. destruct Hin as [j Hj].
  assert (j <> it) as Hji by (intros ->; congruence).
  apply list_elem_of_lookup.
  destruct (decide (j < it)%nat) as [Hlt|Hge].
  - exists j. rewrite list_lookup_delete_lt by exact Hlt. exact Hj.
  - exists (pred j). rewrite list_lookup_delete_ge by lia.
    replace (S (pred j)) with j by lia. exact Hj.
Qed.

Lemma slots_accounted_same w w' :
  decomp_async_job_map w' = decomp_async_job_map w ->
  hw_job_ptr_locks w' = hw_job_ptr_locks w ->
  slots_accounted w -> slots_accounted w'.
Proof. unfold slots_accounted. intros -> ->. tauto. Qed.

(** A call that is safe and keeps the held locks accounted for keeps the
    invariant of the codec. *)
Lemma codec_invariant_kept {A} (m : M A) :
  safe m ->
  (forall w, codec_invariant w ->
     match m w with
     | Ret _ w' | Throw _ w' => slots_accounted w'
     | _ => True
     end) ->
  preserves codec_invariant m.
Proof.
  intros Hsafe Hacc w Hinv. specialize (Hacc w Hinv).
  destruct Hinv as (Hwf & Hheld & _). specialize (Hsafe w Hwf Hheld).
  destruct (m w) as [a w'|code w'| |]; try exact I;
    destruct Hsafe as (Hwf' & Hheld' & _);
    (split; [exact Hwf'|split; [exact Hheld'|exact Hacc]]).
Qed.

Lemma keeps_sw_doCompressData source source_size dest dest_size :
  preserves codec_invariant
    (SoftwareCodecDeflateQpl.doCompressData source source_size dest dest_size).
Proof.
  apply codec_invariant_kept; [apply safe_sw_doCompressData|].
  intros w (_ & _ & Hacc).
  destruct (sw_doCompressData_final source source_size dest dest_size w)
    as (w' & Hfin & Hm & Hl & _).
  destruct (SoftwareCodecDeflateQpl.doCompressData _ _ _ _ w) as [a w2|code w2| |];
    try exact I; injection Hfin as ->; apply (slots_accounted_same w); assumption.
Qed.

Lemma keeps_sw_doDecompressData source source_size dest size :
  preserves codec_invariant
    (SoftwareCodecDeflateQpl.doDecompressData source source_size dest size).
Proof.
  apply codec_invariant_kept; [apply safe_sw_doDecompressData|].
  intros w (_ & _ & Hacc).
  destruct (sw_doDecompressData_final source source_size dest size w)
    as (w' & Hfin & Hm & Hl & _).
  destruct (SoftwareCodecDeflateQpl.doDecompressData _ _ _ _ w) as [a w2|code w2| |];
    try exact I; injection Hfin as ->; apply (slots_accounted_same w); assumption.
Qed.

Lemma acquireJob_none_locks job_id w id w1 :
  pool_wf w -> DeflateQplJobHWPool.acquireJob job_id w = Ret (None, id) w1 ->
  hw_job_ptr_locks w1 = hw_job_ptr_locks w /\
  decomp_async_job_map w1 = decomp_async_job_map w.
Proof.
  intros Hwf Hacq. pose proof (acquireJob_outcome job_id w Hwf) as Hout.
  rewrite Hacq in Hout. destruct Hout as ((_ & _ & _ & Hm & _) & _ & Hcase).
  split; [|exact Hm].
  destruct Hcase as [(_ & _ & _ & Hl & _) | [(_ & _ & _ & Hl & _)
                    | (_ & i & _ & Hp & _)]]; [exact Hl..|discriminate].
Qed.

Lemma keeps_hw_doCompressData source source_size dest dest_size :
  preserves codec_invariant
    (HardwareCodecDeflateQpl.doCompressData source source_size dest dest_size).
Proof.
  apply codec_invariant_kept; [apply safe_hw_doCompressData|].
  intros w (Hwf & _ & Hacc).
  pose proof (hw_doCompressData_outcome source source_size dest dest_size w Hwf)
    as Hout.
  destruct (DeflateQplJobHWPool.acquireJob 0 w) as [[[ptr|] id] w1| | |] eqn:Hacq;
    try contradiction.
  - destruct Hout as (job0 & w' & _ & Hout). cbv zeta in Hout.
    destruct Hout as (Hrun & _ & Hl & _ & _ & Hm & _). rewrite Hrun.
    apply (slots_accounted_same w); assumption.
  - rewrite Hout. destruct (acquireJob_none_locks 0 w id w1 Hwf Hacq) as (Hl & Hm).
    apply (slots_accounted_same w); assumption.
Qed.

Lemma keeps_hw_doDecompressDataAsynchronous source source_size dest size :
  preserves codec_invariant
    (HardwareCodecDeflateQpl.doDecompressDataAsynchronous source source_size dest
       size).
Proof.
  pose proof MAX_HW_JOB_NUMBER_range as HN.
  apply codec_invariant_kept; [apply safe_hw_doDecompressDataAsynchronous|].
  intros w (Hwf & _ & Hacc).
  pose proof (hw_doDecompressDataAsynchronous_outcome source source_size dest size
                w Hwf) as Hout.
  destruct (DeflateQplJobHWPool.acquireJob 0 w) as [[[ptr|] id] w1| | |] eqn:Hacq;
    try contradiction.
  - destruct Hout as (i & job0 & w' & Hi & -> & -> & Hfree & Hlocks & _ & Hcase & _).
    cbv zeta in Hcase.
    destruct (status_is_ok _).
    + destruct Hcase as (Hrun & Hm & Hl & _). rewrite Hrun.
      intros j Hj. rewrite Hl, Hlocks in Hj. rewrite Hm.
      destruct (decide (Z.to_nat i = j)) as [<-|Hne].
      * destruct (map_insert_has_key (MAX_HW_JOB_NUMBER - i) (Z.to_nat i)
                    (decomp_async_job_map w)) as [v' Hin].
        exists (MAX_HW_JOB_NUMBER - i), v'. split; [exact Hin|]. f_equal. lia.
      * rewrite list_lookup_insert_ne in Hj by exact Hne.
        destruct (Hacc j Hj) as (id' & ptr' & Hin & Hslot).
        exists id', ptr'. split; [apply map_insert_mono; exact Hin|exact Hslot].
    + destruct Hcase as (Hrun & Hm & Hl & _). rewrite Hrun.
      apply (slots_accounted_same w); assumption.
  - rewrite Hout. destruct (acquireJob_none_locks 0 w id w1 Hwf Hacq) as (Hl & Hm).
    apply (slots_accounted_same w); assumption.
Qed.

(** The invariant of the codec on a ready pool. *)
Local Abbreviation ready_invariant :=
  (fun w => codec_invariant w /\ job_pool_ready w = true).

Lemma ready_invariant_same w w' :
  decomp_async_job_map w' = decomp_async_job_map w ->
  hw_job_ptr_locks w' = hw_job_ptr_locks w ->
  pool_shape w w' ->
  ready_invariant w -> ready_invariant w'.
Proof.
  intros Hm Hl Hshape ((Hwf & Hheld & Hacc) & Hready).
  split; [split; [|split]|].
  - apply (pool_wf_shape w); assumption.
  - apply (in_flight_held_same w); assumption.
  - apply (slots_accounted_same w); assumption.
  - destruct Hshape as (_ & -> & _). exact Hready.
Qed.

Lemma keeps_wrap_iterator it :
  preserves ready_invariant (HardwareCodecDeflateQpl.wrap_iterator it).
Proof.
  intros w Hinv. rewrite wrap_iterator_spec.
  destruct (it =? _)%nat; [|exact Hinv].
  apply (ready_invariant_same w); [reflexivity..| |exact Hinv].
  unfold pool_shape. msimpl. repeat split.
Qed.

(** The drain's release of the entry at [it], and its erasure, on a ready
    pool: the lock goes with the entry. *)
Lemma release_erase_accounted (it : nat) id ptr w :
  ready_invariant w ->
  decomp_async_job_map w !! it = Some (id, ptr) ->
  exists p w1,
    DeflateQplJobHWPool.releaseJob id w = Ret p w1 /\
    ready_invariant
      (set_decomp_async_job_map (delete it (decomp_async_job_map w1)) w1).
Proof.
  intros ((Hwf & Hheld & Hacc) & Hready) Hit.
  destruct (release_erase_outcome it id ptr w Hwf Hheld Hit)
    as (p & w1 & Hrun & Hwf2 & Hheld2 & _).
  exists p, w1. split; [exact Hrun|].
  assert ((id, ptr) ∈ decomp_async_job_map w) as Hin
    by (apply list_elem_of_lookup; eauto).
  destruct Hheld as (Hok & Hids). destruct (Hids id ptr Hin) as (Hid & _).
  destruct (releaseJob_outcome id w Hwf Hid)
    as (p' & w1' & Hrun' & _ & Hm & _ & Hshape & _ & _ & _ & Hl & _).
  rewrite Hrun in Hrun'. injection Hrun' as <- <-.
  rewrite Hready in Hl.
  split; [split; [exact Hwf2|split; [exact Hheld2|]]|].
  - intros j Hj. msimpl in Hj. msimpl. rewrite Hl in Hj. rewrite Hm.
    destruct (decide (Z.to_nat (MAX_HW_JOB_NUMBER - id) = j)) as [<-|Hne].
    + rewrite list_lookup_insert_eq in Hj; [discriminate|].
      destruct (Hids id ptr Hin) as (_ & Hlock).
      apply lookup_lt_Some in Hlock. exact Hlock.
    + rewrite list_lookup_insert_ne in Hj by exact Hne.
      destruct (Hacc j Hj) as (id' & ptr' & Hin' & Hslot).
      exists id', ptr'. split; [|exact Hslot].
      apply (elem_of_delete_other _ it _ (id, ptr)); [exact Hin'|exact Hit|].
      intros Heq. injection Heq as -> ->. contradiction.
  - msimpl. destruct Hshape as (_ & -> & _). exact Hready.
Qed.

Lemma keeps_flush_loop fuel : forall n it,
  preserves ready_invariant (HardwareCodecDeflateQpl.flush_loop fuel n it).
Proof.
  induction fuel as [|fuel IH]; intros n it w Hinv.
  - cbn [HardwareCodecDeflateQpl.flush_loop].
    destruct (n =? 0); [exact Hinv|exact I].
  - cbn [HardwareCodecDeflateQpl.flush_loop].
    destruct (n =? 0); [exact Hinv|].
    mstep. destruct (decomp_async_job_map w !! it) as [[id ptr]|] eqn:Hit;
      [|exact I].
    mstep. destruct (hw_jobs_buffer w !! ptr) as [job|] eqn:Hjob.
    + destruct (qpl_check_job_outcome ptr job w Hjob)
        as (status & w2 & Hrun & Hm2 & Hl2 & Hshape2 & _).
      rewrite Hrun.
      assert (ready_invariant w2) as Hinv2
        by (apply (ready_invariant_same w); assumption).
      destruct (status_is_being_processed status).
      * apply (preserves_bind _ _ _ (keeps_wrap_iterator (S it)) (IH n) w2 Hinv2).
      * rewrite <- Hm2 in Hit.
        destruct (release_erase_accounted it id ptr w2 Hinv2 Hit)
          as (p & w3 & Hrun3 & Hinv4).
        mstep. rewrite Hrun3. mstep.
        destruct (_ <=? 0); [exact Hinv4|].
        apply (preserves_bind _ _ _ (keeps_wrap_iterator it) (IH _) _ Hinv4).
    + unfold Qpl.qpl_check_job. rewrite bind_eq. unfold Qpl.read_hw_job. mstep.
      rewrite Hjob. exact I.
Qed.

Lemma keeps_hw_flush fuel :
  preserves ready_invariant
    (HardwareCodecDeflateQpl.flushAsynchronousDecompressRequests fuel).
Proof.
  intros w Hinv.
  unfold HardwareCodecDeflateQpl.flushAsynchronousDecompressRequests. mstep.
  apply keeps_flush_loop. exact Hinv.
Qed.

Lemma ready_kept_hw_doDecompressDataAsynchronous source source_size dest size :
  preserves ready_invariant
    (HardwareCodecDeflateQpl.doDecompressDataAsynchronous source source_size dest
       size).
Proof.
  intros w (Hinv & Hready).
  pose proof (keeps_hw_doDecompressDataAsynchronous source source_size dest size
                w Hinv) as Hkept.
  destruct Hinv as (Hwf & _).
  pose proof (hw_doDecompressDataAsynchronous_outcome source source_size dest size
                w Hwf) as Hout.
  pose proof (acquireJob_outcome 0 w Hwf) as Hacq.
  destruct (DeflateQplJobHWPool.acquireJob 0 w) as [[[ptr|] id] w1| | |];
    try contradiction.
  - destruct Hout as (i & job0 & w' & _ & _ & _ & _ & _ & _ & Hcase & _ & _ & _
                      & (_ & Hr & _) & _).
    cbv zeta in Hcase.
    destruct (status_is_ok _); destruct Hcase as (Hrun & _);
      rewrite Hrun in *; (split; [exact Hkept|congruence]).
  - rewrite Hout in *. split; [exact Hkept|]. msimpl.
    destruct Hacq as ((_ & Hr & _) & _). congruence.
Qed.

Lemma ready_kept_sw_doDecompressData source source_size dest size :
  preserves ready_invariant
    (SoftwareCodecDeflateQpl.doDecompressData source source_size dest size).
Proof.
  intros w (Hinv & Hready).
  pose proof (keeps_sw_doDecompressData source source_size dest size w Hinv)
    as Hkept.
  destruct (sw_doDecompressData_final source source_size dest size w)
    as (w' & Hfin & _ & _ & Hr & _).
  destruct (SoftwareCodecDeflateQpl.doDecompressData _ _ _ _ w) as [a w2|code w2| |];
    try exact I; injection Hfin as ->; (split; [exact Hkept|congruence]).
Qed.

Lemma preserves_weaken {A} (I J : World -> Prop) (m : M A) w :
  (forall w', I w' -> J w') ->
  match m w with Ret _ w' | Throw _ w' => I w' | _ => True end ->
  match m w with Ret _ w' | Throw _ w' => J w' | _ => True end.
Proof. intros HIJ. destruct (m w); auto. Qed.

Lemma keeps_setDecompressMode mode :
  preserves codec_invariant (CompressionCodecDeflateQpl.setDecompressMode mode).
Proof.
  intros w (Hwf & Hheld & Hacc).
  unfold CompressionCodecDeflateQpl.setDecompressMode. msimpl.
  split; [|split].
  - apply (pool_wf_shape w); [|exact Hwf]. unfold pool_shape. msimpl. repeat split.
  - apply (in_flight_held_same w); [reflexivity..|exact Hheld].
  - apply (slots_accounted_same w); [reflexivity..|exact Hacc].
Qed.

Lemma keeps_doCompressData source source_size dest :
  preserves codec_invariant
    (CompressionCodecDeflateQpl.doCompressData source source_size dest).
Proof.
  unfold CompressionCodecDeflateQpl.doCompressData,
    DeflateQplJobHWPool.isJobPoolReady.
  apply preserves_bind;
    [apply preserves_bind; [apply preserves_get|intros w0; apply preserves_ret]|].
  intros ready. apply preserves_bind.
  { destruct ready; [apply keeps_hw_doCompressData|apply preserves_ret]. }
  intros res. apply preserves_bind; [|intros res'; apply preserves_ret].
  destruct (res =? RET_ERROR); [|apply preserves_ret].
  apply preserves_bind; [apply keeps_sw_doCompressData|].
  intros r. apply preserves_ret.
Qed.

Lemma keeps_doDecompressData fuel source source_size dest size :
  preserves codec_invariant
    (CompressionCodecDeflateQpl.doDecompressData fuel source source_size dest size).
Proof.
  intros w Hinv.
  unfold CompressionCodecDeflateQpl.doDecompressData,
    CompressionCodecDeflateQpl.getDecompressMode,
    DeflateQplJobHWPool.isJobPoolReady.
  mstep. destruct (decompress_mode w).
  - mstep. destruct (job_pool_ready w) eqn:Hready;
      [|apply keeps_sw_doDecompressData; exact Hinv].
    apply (preserves_weaken ready_invariant); [intros w' Hw'; apply Hw'|].
    apply (preserves_bind ready_invariant);
      [apply ready_kept_hw_doDecompressDataAsynchronous| |split; assumption].
    intros res. destruct (negb _);
      [apply keeps_hw_flush|apply ready_kept_sw_doDecompressData].
  - mstep. apply preserves_bind; [|intros res|exact Hinv].
    + destruct (job_pool_ready w);
        [apply keeps_hw_doDecompressDataAsynchronous|apply preserves_ret].
    + destruct (res =? RET_ERROR);
        [apply keeps_sw_doDecompressData|apply preserves_ret].
  - apply keeps_sw_doDecompressData. exact Hinv.
Qed.

Lemma keeps_flushAsynchronousDecompressRequests fuel :
  preserves codec_invariant
    (CompressionCodecDeflateQpl.flushAsynchronousDecompressRequests fuel).
Proof.
  intros w Hinv.
  unfold CompressionCodecDeflateQpl.flushAsynchronousDecompressRequests,
    DeflateQplJobHWPool.isJobPoolReady.
  mstep. destruct (job_pool_ready w) eqn:Hready.
  - pose proof (keeps_hw_flush fuel w (conj Hinv Hready)) as Hflush.
    destruct (HardwareCodecDeflateQpl.flushAsynchronousDecompressRequests fuel w)
      as [u w'|code w'| |]; try exact I; [|apply Hflush].
    apply keeps_setDecompressMode. apply Hflush.
  - mstep. apply keeps_setDecompressMode. exact Hinv.
Qed.

(** X14: The dispatching codec leaks no slot.  When the held locks are exactly
    those of the jobs in flight, they still are after every call of
    [doCompressData], [doDecompressData] (in every mode),
    [flushAsynchronousDecompressRequests] and [setDecompressMode] that
    returns or throws: a lock taken for a call is released before the call
    ends unless its job was put in flight. *)
Theorem dispatch_operations_leak_no_slot (o : Operation) (w : World) :
  dispatch_operation o = true -> codec_invariant w ->
  match run_operation o w with
  | Ret _ w' | Throw _ w' => codec_invariant w'
  | _ => True
  end.
Proof.
  intros Ho Hinv. destruct o; try discriminate; cbn [run_operation].
  - apply (preserves_bind _ _ _ (keeps_doCompressData _ _ _)
             (fun _ => preserves_ret _ tt)). exact Hinv.
  - apply keeps_doDecompressData. exact Hinv.
  - apply keeps_flushAsynchronousDecompressRequests. exact Hinv.
  - apply keeps_setDecompressMode. exact Hinv.
Qed.

(** The drain of the hardware codec, from some fuel on. *)
Lemma hw_flush_drained w :
  pool_wf w -> StdMap.ok (decomp_async_job_map w) -> in_flight_valid w ->
  (forall id ptr, (id, ptr) ∈ decomp_async_job_map w -> eventually_reports w ptr) ->
  exists fuel0, forall fuel, (fuel0 <= fuel)%nat ->
    exists w' ids,
      HardwareCodecDeflateQpl.flushAsynchronousDecompressRequests fuel w = Ret tt w' /\
      ids ≡ₚ StdMap.keys (decomp_async_job_map w) /\
      drained w w' ids.
Proof.
  pose proof MAX_HW_JOB_NUMBER_range as HN.
  intros Hwf Hok Hval Hlive.
  destruct (reporting_bounds w _ Hlive) as [B HB].
  pose proof (in_flight_length w Hok Hval) as Hlen.
  exists (drain_measure B (decomp_async_job_map w)). intros fuel Hfuel.
  unfold HardwareCodecDeflateQpl.flushAsynchronousDecompressRequests. mstep.
  rewrite to_uint32_small by lia.
  destruct (decomp_async_job_map w) as [|e m] eqn:Hm.
  - exists w, []. split; [destruct fuel; reflexivity|]. split; [reflexivity|].
    unfold drained. rewrite Hm. split; [reflexivity|]. split; [reflexivity|].
    split; [apply pool_shape_refl|]. repeat split.
    intros _ id Hin. apply elem_of_nil in Hin. contradiction.
  - rewrite <- Hm in *.
    destruct (flush_loop_drains (drain_measure B (decomp_async_job_map w)) fuel
                0%nat B w) as (w' & ids & Hrun & Hperm & Hdrained);
      try assumption; try lia.
    { rewrite Hm. cbn. lia. }
    exists w', ids. auto.
Qed.

(** X15: After the codec's [flushAsynchronousDecompressRequests] every slot is
    free.  On a ready pool whose held locks are exactly those of the jobs
    in flight, and with jobs that all finish, the call returns (from some
    fuel on) with an empty in-flight map, the [Synchronous] mode set, and
    every lock of the pool free. *)
Theorem flush_frees_every_slot w :
  codec_invariant w -> job_pool_ready w = true -> in_flight_valid w ->
  (forall id ptr, (id, ptr) ∈ decomp_async_job_map w -> eventually_reports w ptr) ->
  exists fuel0, forall fuel, (fuel0 <= fuel)%nat ->
    exists w',
      CompressionCodecDeflateQpl.flushAsynchronousDecompressRequests fuel w
      = Ret tt w' /\
      decomp_async_job_map w' = [] /\
      decompress_mode w' = Synchronous /\
      forall j : nat, (j < Z.to_nat MAX_HW_JOB_NUMBER)%nat ->
        hw_job_ptr_locks w' !! j = Some false.
Proof.
  intros (Hwf & (Hok & Hheld) & Hacc) Hready Hval Hlive.
  destruct (hw_flush_drained w Hwf Hok Hval Hlive) as (fuel0 & Hdrain).
  exists fuel0. intros fuel Hfuel.
  destruct (Hdrain fuel Hfuel) as (w' & ids & Hrun & Hperm & Hdrained).
  destruct Hdrained as (Hm' & _ & _ & _ & _ & Hothers & Hfreed).
  unfold CompressionCodecDeflateQpl.flushAsynchronousDecompressRequests,
    DeflateQplJobHWPool.isJobPoolReady, CompressionCodecDeflateQpl.setDecompressMode.
  mstep. rewrite Hready, Hrun. mstep.
  eexists. split; [reflexivity|]. msimpl. split; [exact Hm'|].
  split; [reflexivity|]. intros j Hj.
  destruct (decide (Exists (fun id => Z.to_nat (MAX_HW_JOB_NUMBER - id) = j) ids))
    as [Hex|Hnex].
  - apply Exists_exists in Hex. destruct Hex as (id & Hin & <-).
    apply (Hfreed Hready id Hin).
  - assert (forall id, id ∈ ids -> Z.to_nat (MAX_HW_JOB_NUMBER - id) <> j) as Hnot.
    { intros id Hin Heq. apply Hnex. apply Exists_exists. eauto. }
    rewrite (Hothers j Hnot).
    destruct Hwf as (Hlen & _).
    destruct (hw_job_ptr_locks w !! j) as [[|]|] eqn:Hlock;
      [|reflexivity|apply lookup_ge_None in Hlock; lia].
    destruct (Hacc j Hlock) as (id & ptr & Hin & Hslot).
    exfalso. apply (Hnot id); [|exact Hslot].
    rewrite Hperm. apply list_elem_of_fmap. exists (id, ptr). auto.
Qed.

End Accounting.

(** ** The software codec *)

Section SoftwareJob.
Context {acc : Accelerator}.

Lemma after_getJobCodecPtr_inits w :
  count_events (is_init qpl_path_software) (trace (after_getJobCodecPtr w))
  = (count_events (is_init qpl_path_software) (trace w)
     + match sw_job w with Some _ => 0 | None => 1 end)%nat.
Proof.
  unfold after_getJobCodecPtr. destruct (sw_job w); msimpl;
    cbn [count_events is_init same_path]; lia.
Qed.

Lemma sw_final_inits {A} (o : Outcome A) job w :
  (o = Throw CANNOT_COMPRESS (after_getJobCodecPtr w) \/
   exists w', final_world o = Some w' /\
     w' = after_sw_execute job (set_sw_job (Some job) (after_getJobCodecPtr w))) ->
  exists w',
    final_world o = Some w' /\ sw_job w' <> None /\
    count_events (is_init qpl_path_software) (trace w')
    = (count_events (is_init qpl_path_software) (trace w)
       + match sw_job w with Some _ => 0 | None => 1 end)%nat.
Proof.
  intros [->|(w' & Hfin & ->)].
  - eexists. split; [reflexivity|]. rewrite after_getJobCodecPtr_sw_job.
    split; [discriminate|]. apply after_getJobCodecPtr_inits.
  - eexists. split; [exact Hfin|]. unfold after_sw_execute. msimpl.
    split; [discriminate|]. cbn [count_events is_init same_path].
    apply after_getJobCodecPtr_inits.
Qed.

(** X16: The job of the software codec is initialised at most once.  A call of
    [doCompressData] or [doDecompressData] always returns or throws; it
    calls [qpl_init_job] exactly when there is no job block yet, and a job
    block is there afterwards in every case, so no later call initialises
    again. *)
Theorem software_job_is_initialised_once source source_size dest size w :
  (exists w',
     final_world (SoftwareCodecDeflateQpl.doCompressData source source_size dest
                    size w) = Some w' /\
     sw_job w' <> None /\
     count_events (is_init qpl_path_software) (trace w')
     = (count_events (is_init qpl_path_software) (trace w)
        + match sw_job w with Some _ => 0 | None => 1 end)%nat) /\
  (exists w',
     final_world (SoftwareCodecDeflateQpl.doDecompressData source source_size dest
                    size w) = Some w' /\
     sw_job w' <> None /\
     count_events (is_init qpl_path_software) (trace w')
     = (count_events (is_init qpl_path_software) (trace w)
        + match sw_job w with Some _ => 0 | None => 1 end)%nat).
Proof.
  split.
  - eapply sw_final_inits. rewrite sw_doCompressData_outcome. cbv zeta.
    destruct (sw_job_available w); [|left; reflexivity].
    right. destruct (status_is_ok _); eexists; split; reflexivity.
  - eapply sw_final_inits. rewrite sw_doDecompressData_outcome. cbv zeta.
    destruct (sw_job_available w); [|left; reflexivity].
    right. destruct (status_is_ok _); eexists; split; reflexivity.
Qed.

(** X17: A failed initialisation is not retried.  After a call that threw
    because [qpl_init_job] failed, the job pointer is set: the next
    [doDecompressData] does not call [qpl_init_job] again, it configures
    and executes the job block whose initialisation failed, and it returns
    or throws [CANNOT_DECOMPRESS] by the status of that execution. *)
Theorem failed_software_init_is_not_retried
    source source_size dest size source2 source_size2 dest2 size2 w :
  sw_job w = None ->
  status_is_ok (qpl_init_status qpl_path_software 0) = false ->
  exists w1,
    SoftwareCodecDeflateQpl.doDecompressData source source_size dest size w
    = Throw CANNOT_COMPRESS w1 /\
    sw_job w1 = Some zero_job /\
    let job := HardwareCodecDeflateQpl.decompress_job zero_job source2
                 source_size2 dest2 size2 in
    exists w2,
      SoftwareCodecDeflateQpl.doDecompressData source2 source_size2 dest2 size2 w1
      = (if status_is_ok (fst (Qpl.job_result qpl_path_software job w1))
         then Ret tt w2
         else Throw CANNOT_DECOMPRESS w2) /\
      trace w2 = EvExecute qpl_path_software :: trace w1 /\
      count_events (is_init qpl_path_software) (trace w2)
      = count_events (is_init qpl_path_software) (trace w1).
Proof.
  intros Hnull Hfail.
  rewrite sw_doDecompressData_outcome. cbv zeta.
  unfold sw_job_available at 1. rewrite Hnull, Hfail.
  eexists. split; [reflexivity|].
  split; [unfold after_getJobCodecPtr; rewrite Hnull; reflexivity|].
  assert (sw_job (after_getJobCodecPtr w) = Some zero_job) as Hjob
    by (unfold after_getJobCodecPtr; rewrite Hnull; reflexivity).
  assert (after_getJobCodecPtr (after_getJobCodecPtr w) = after_getJobCodecPtr w)
    as Hagain by (unfold after_getJobCodecPtr at 1; rewrite Hjob; reflexivity).
  cbv zeta.
  exists (after_sw_execute
            (HardwareCodecDeflateQpl.decompress_job zero_job source2 source_size2
               dest2 size2)
            (set_sw_job
               (Some (HardwareCodecDeflateQpl.decompress_job zero_job source2
                        source_size2 dest2 size2))
               (after_getJobCodecPtr w))).
  split.
  - rewrite sw_doDecompressData_outcome. cbv zeta.
    unfold sw_job_available, sw_job_block. rewrite Hjob, Hagain. reflexivity.
  - unfold after_sw_execute. msimpl. split; reflexivity.
Qed.

Lemma software_job_allocated_after source source_size dest size w :
  exists w',
    final_world (SoftwareCodecDeflateQpl.doDecompressData source source_size dest
                   size w) = Some w' /\
    sw_job w' <> None.
Proof.
  destruct (sw_final_inits
              (SoftwareCodecDeflateQpl.doDecompressData source source_size dest
                 size w)
              (HardwareCodecDeflateQpl.decompress_job (sw_job_block w) source
                 source_size dest size) w) as (w' & Hfin & Hjob & _).
  - rewrite sw_doDecompressData_outcome. cbv zeta.
    destruct (sw_job_available w); [|left; reflexivity].
    right. destruct (status_is_ok _); eexists; split; reflexivity.
  - exists w'. auto.
Qed.

(** X18: The destructor of the software codec finalises the job exactly when
    a job block was allocated: never before the first call of the codec,
    and always after one, also after one whose initialisation failed. *)
Theorem software_destructor_finalises_allocated_job
    source source_size dest size w :
  (sw_job w = None -> SoftwareCodecDeflateQpl.destructor w = Ret tt w) /\
  (exists w1 w2,
     final_world (SoftwareCodecDeflateQpl.doDecompressData source source_size dest
                    size w) = Some w1 /\
     SoftwareCodecDeflateQpl.destructor w1 = Ret tt w2 /\
     trace w2 = EvFini qpl_path_software :: trace w1).
Proof.
  split.
  - intros Hnull. unfold SoftwareCodecDeflateQpl.destructor. mstep.
    rewrite Hnull. reflexivity.
  - destruct (software_job_allocated_after source source_size dest size w)
      as (w1 & Hfin & Hjob).
    exists w1. destruct (sw_job w1) as [job|] eqn:Hsw; [|contradiction].
    eexists. split; [exact Hfin|].
    unfold SoftwareCodecDeflateQpl.destructor. mstep. rewrite Hsw. mstep.
    split; reflexivity.
Qed.

End SoftwareJob.

(** ** The destructor of the hardware codec *)

Section HardwareDestructor.
Context {hdr : Header} {acc : Accelerator}.

Lemma release_all_run entries : forall w,
  pool_wf w ->
  (forall id ptr, (id, ptr) ∈ entries -> 1 <= id <= MAX_HW_JOB_NUMBER) ->
  exists w',
    HardwareCodecDeflateQpl.release_all entries w = Ret tt w' /\
    released_ids (trace w') = rev (StdMap.keys entries) ++ released_ids (trace w) /\
    count_events is_check (trace w') = count_events is_check (trace w) /\
    pool_shape w w' /\
    decomp_async_job_map w' = decomp_async_job_map w /\
    (job_pool_ready w = true ->
     forall id ptr, (id, ptr) ∈ entries ->
       hw_job_ptr_locks w' !! Z.to_nat (MAX_HW_JOB_NUMBER - id) = Some false) /\
    (forall j : nat,
       (forall id ptr, (id, ptr) ∈ entries -> Z.to_nat (MAX_HW_JOB_NUMBER - id) <> j) ->
       hw_job_ptr_locks w' !! j = hw_job_ptr_locks w !! j).
Proof.
  pose proof MAX_HW_JOB_NUMBER_range as HN.
  induction entries as [|[id ptr] rest IH]; intros w Hwf Hids.
  - exists w. split; [reflexivity|]. split; [reflexivity|]. split; [reflexivity|].
    split; [apply pool_shape_refl|]. split; [reflexivity|].
    split; [|reflexivity].
    intros _ id ptr Hin. apply elem_of_nil in Hin. contradiction.
  - cbn [HardwareCodecDeflateQpl.release_all fst]. rewrite bind_eq.
    assert (1 <= id <= MAX_HW_JOB_NUMBER) as Hid
      by (apply (Hids id ptr); apply elem_of_cons; auto).
    assert (exists p w1,
              DeflateQplJobHWPool.releaseJob id w = Ret p w1 /\
              released_ids (trace w1) = id :: released_ids (trace w) /\
              count_events is_check (trace w1) = count_events is_check (trace w) /\
              pool_shape w w1 /\
              decomp_async_job_map w1 = decomp_async_job_map w /\
              hw_job_ptr_locks w1
              = (if job_pool_ready w
                 then <[Z.to_nat (MAX_HW_JOB_NUMBER - id) := false]>
                        (hw_job_ptr_locks w)
                 else hw_job_ptr_locks w))
      as (p & w1 & Hrun & Hrel & Hchk & Hshape & Hm & Hl).
    { destruct (job_pool_ready w) eqn:Hready.
      - rewrite (releaseJob_ready id w Hwf Hready Hid).
        eexists. eexists. split; [reflexivity|]. unfold pool_shape. msimpl.
        rewrite length_insert. repeat split.
      - rewrite (releaseJob_not_ready id w Hready).
        eexists. eexists. split; [reflexivity|]. unfold pool_shape. msimpl.
        repeat split. }
    rewrite Hrun.
    assert (pool_wf w1) as Hwf1 by (apply (pool_wf_shape w); assumption).
    destruct (IH w1 Hwf1) as (w' & Hrun' & Hrel' & Hchk' & Hshape' & Hm' & Hfreed
                              & Hothers).
    { intros id' ptr' Hin. apply (Hids id' ptr'). apply elem_of_cons. auto. }
    exists w'. split; [exact Hrun'|].
    split.
    { rewrite Hrel', Hrel. cbn [StdMap.keys map fst rev].
      rewrite <- app_assoc. reflexivity. }
    split; [congruence|].
    split; [apply (pool_shape_trans w w1); assumption|].
    split; [congruence|].
    assert (job_pool_ready w1 = job_pool_ready w) as Hr1
      by (destruct Hshape as (_ & -> & _); reflexivity).
    split.
    + intros Hready id' ptr' Hin. apply elem_of_cons in Hin.
      destruct Hin as [Heq|Hin]; [|apply (Hfreed ltac:(congruence) id' ptr' Hin)].
      injection Heq as -> ->.
      destruct (decide (Exists (fun e : Z * nat =>
                                  Z.to_nat (MAX_HW_JOB_NUMBER - fst e)
                                  = Z.to_nat (MAX_HW_JOB_NUMBER - id)) rest))
        as [Hex|Hnex].
      * apply Exists_exists in Hex. destruct Hex as ([id2 ptr2] & Hin2 & Heq2).
        cbn [fst] in Heq2. rewrite <- Heq2.
        apply (Hfreed ltac:(congruence) id2 ptr2 Hin2).
      * rewrite Hothers.
        -- rewrite Hl, Hready. apply list_lookup_insert_eq.
           destruct Hwf as (Hlen & _). lia.
        -- intros id2 ptr2 Hin2 Heq2. apply Hnex. apply Exists_exists.
           exists (id2, ptr2). auto.
    + intros j Hj. rewrite Hothers.
      * rewrite Hl. destruct (job_pool_ready w); [|reflexivity].
        apply list_lookup_insert_ne. apply (Hj id ptr). apply elem_of_cons. auto.
      * intros id2 ptr2 Hin2. apply (Hj id2 ptr2). apply elem_of_cons. auto.
Qed.

(** X19: The destructor of the hardware codec, in a release build, gives back
    the slots of the jobs still in flight without waiting for them: it
    calls [releaseJob] once for each entry, in the order of the keys, polls
    no job, and leaves the map empty; on a ready pool the locks of these
    slots are free afterwards and the other locks are untouched. *)
Theorem hw_destructor_releases_jobs_in_flight w :
  pool_wf w -> in_flight_held w ->
  exists w',
    HardwareCodecDeflateQpl.destructor true w = Ret tt w' /\
    decomp_async_job_map w' = [] /\
    released_ids (trace w')
    = rev (StdMap.keys (decomp_async_job_map w)) ++ released_ids (trace w) /\
    count_events is_check (trace w') = count_events is_check (trace w) /\
    (job_pool_ready w = true ->
     forall id ptr, (id, ptr) ∈ decomp_async_job_map w ->
       hw_job_ptr_locks w' !! Z.to_nat (MAX_HW_JOB_NUMBER - id) = Some false) /\
    (forall j : nat,
       (forall id ptr, (id, ptr) ∈ decomp_async_job_map w ->
          Z.to_nat (MAX_HW_JOB_NUMBER - id) <> j) ->
       hw_job_ptr_locks w' !! j = hw_job_ptr_locks w !! j).
Proof.
  intros Hwf (_ & Hheld). unfold HardwareCodecDeflateQpl.destructor. mstep.
  destruct (decomp_async_job_map w) as [|e m] eqn:Hm.
  - exists w. split; [reflexivity|]. rewrite Hm.
    split; [reflexivity|]. split; [reflexivity|]. split; [reflexivity|].
    split; [|reflexivity].
    intros _ id ptr Hin. apply elem_of_nil in Hin. contradiction.
  - mstep.
    destruct (release_all_run (e :: m)
                (set_trace (EvWarning msg_unreleased_job :: trace w) w))
      as (w' & Hrun & Hrel & Hchk & _ & _ & Hfreed & Hothers).
    + apply (pool_wf_shape w); [unfold pool_shape; msimpl; repeat split|exact Hwf].
    + intros id ptr Hin. apply (Hheld id ptr Hin).
    + rewrite Hrun. msimpl. eexists. split; [reflexivity|]. msimpl.
      split; [reflexivity|]. split; [exact Hrel|]. split; [exact Hchk|].
      split; [exact Hfreed|exact Hothers].
Qed.

End HardwareDestructor.

(** ** The size bound *)

Lemma getMaxCompressedDataSize_sum (n : Z) :
  getMaxCompressedDataSize n
  = (n + n / 4096 + n / 16384 + n / 33554432 + 13) mod 4294967296.
Proof.
  unfold getMaxCompressedDataSize, to_uint32.
  rewrite !Z.shiftr_div_pow2 by lia. reflexivity.
Qed.

(** X20: Below the input length 4293656836 the sum fits 32 bits:
    [getMaxCompressedDataSize] is the sum itself, it leaves room for at
    least 13 bytes more than the input, and it grows with the input. *)
Theorem getMaxCompressedDataSize_bounds_input (m n : Z) :
  0 <= m <= n -> n < 4293656836 ->
  getMaxCompressedDataSize n = n + n / 4096 + n / 16384 + n / 33554432 + 13 /\
  n + 13 <= getMaxCompressedDataSize n <= 4294967295 /\
  getMaxCompressedDataSize m <= getMaxCompressedDataSize n.
Proof.
  intros Hm Hn. rewrite !getMaxCompressedDataSize_sum.
  rewrite (Z.mod_small (n + _ + _ + _ + _))
    by (Z.to_euclidean_division_equations; lia).
  rewrite (Z.mod_small (m + _ + _ + _ + _))
    by (Z.to_euclidean_division_equations; lia).
  split; [reflexivity|]. split; [Z.to_euclidean_division_equations; lia|].
  pose proof (Z.div_le_mono m n 4096 ltac:(lia) ltac:(lia)).
  pose proof (Z.div_le_mono m n 16384 ltac:(lia) ltac:(lia)).
  pose proof (Z.div_le_mono m n 33554432 ltac:(lia) ltac:(lia)).
  lia.
Qed.

(** X21: From the input length 4293656836 on the 32-bit sum wraps around:
    [getMaxCompressedDataSize] is the sum less [2 ^ 32], at most 1310857
    and smaller than the input. *)
Theorem getMaxCompressedDataSize_wraps (n : Z) :
  4293656836 <= n < 2 ^ 32 ->
  getMaxCompressedDataSize n
  = n + n / 4096 + n / 16384 + n / 33554432 + 13 - 2 ^ 32 /\
  getMaxCompressedDataSize n <= 1310857 /\
  getMaxCompressedDataSize n < n.
Proof.
  change (2 ^ 32) with 4294967296. intros Hn.
  rewrite getMaxCompressedDataSize_sum.
  assert ((n + n / 4096 + n / 16384 + n / 33554432 + 13) mod 4294967296
          = n + n / 4096 + n / 16384 + n / 33554432 + 13 - 4294967296) as ->.
  { symmetry. apply (Z.mod_unique _ _ 1); Z.to_euclidean_division_equations; lia. }
  split; [reflexivity|]. Z.to_euclidean_division_equations. lia.
Qed.

Lemma getMaxCompressedDataSize_bounds_input_witness :
  getMaxCompressedDataSize 1048576 = 1048576 + 256 + 64 + 0 + 13 /\
  1048576 + 13 <= getMaxCompressedDataSize 1048576 <= 4294967295 /\
  getMaxCompressedDataSize 4096 <= getMaxCompressedDataSize 1048576.
Proof.
  apply (getMaxCompressedDataSize_bounds_input 4096 1048576); lia.
Defined.

Lemma getMaxCompressedDataSize_wraps_witness :
  getMaxCompressedDataSize 4293656836 = 0 /\
  getMaxCompressedDataSize 4293656836 <= 1310857 /\
  getMaxCompressedDataSize 4293656836 < 4293656836.
Proof.
  apply (getMaxCompressedDataSize_wraps 4293656836). lia.
Defined.

(** ** The properties on the example worlds *)

Lemma copy_accelerator_init_ok (k : nat) :
  status_is_ok (@qpl_init_status copy_accelerator qpl_path_hardware k) = true.
Proof. reflexivity. Qed.

Lemma constructor_makes_pool_ready_witness :
  exists w',
    @DeflateQplJobHWPool.constructor default_header copy_accelerator
      (@DeflateQplJobHWPool.statics_zero default_header unready_world) = Ret tt w' /\
    job_pool_ready w' = true /\
    (forall k, (k < 1024)%nat ->
       hw_job_ptr_pool w' !! k = Some (Some k) /\
       hw_job_ptr_locks w' !! k = Some false) /\
    count_events (is_init qpl_path_hardware) (trace w') = (0 + 1024)%nat /\
    decomp_async_job_map w' = [].
Proof.
  apply (@constructor_makes_pool_ready default_header copy_accelerator
           unready_world).
  intros k _. apply copy_accelerator_init_ok.
Defined.

Lemma constructor_stops_at_first_failure_witness :
  exists w',
    @DeflateQplJobHWPool.constructor default_header failing_init_accelerator
      (@DeflateQplJobHWPool.statics_zero default_header unready_world) = Ret tt w' /\
    job_pool_ready w' = false /\
    (forall k, (k < 3)%nat -> hw_job_ptr_pool w' !! k = Some (Some k)) /\
    (forall k, (3 <= k < 1024)%nat -> hw_job_ptr_pool w' !! k = Some None) /\
    (forall k, (k < 1024)%nat -> hw_job_ptr_locks w' !! k = Some false) /\
    count_events (is_init qpl_path_hardware) (trace w') = (0 + 3 + 1)%nat /\
    count_events (is_fini qpl_path_hardware) (trace w') = 0%nat.
Proof.
  apply (@constructor_stops_at_first_failure default_header
           failing_init_accelerator unready_world 3).
  - cbn. lia.
  - reflexivity.
  - intros k Hk. destruct k as [|[|[|k]]]; [reflexivity..|lia].
Defined.



Lemma pool_destructor_spins_on_held_slot_witness :
  @DeflateQplJobHWPool.destructor default_header in_flight_world
  = OutOfFuel.
Proof.
  apply (@pool_destructor_spins_on_held_slot default_header in_flight_world 1021
           1021); reflexivity.
Defined.

Example acquireJob_round_robin :
  match @DeflateQplJobHWPool.acquireJob default_header round_robin_accelerator 0
          ready_world with
  | Ret (p1, id1) w1 =>
      p1 = Some 0%nat /\ id1 = 1024 /\
      match @DeflateQplJobHWPool.acquireJob default_header round_robin_accelerator
              0 w1 with
      | Ret (p2, id2) w2 => p2 = Some 1%nat /\ id2 = 1023
      | _ => False
      end
  | _ => False
  end.
Proof. vm_compute. auto. Qed.

Lemma acquireJob_twice_distinct_witness :
  exists w1 w2,
    @DeflateQplJobHWPool.acquireJob default_header round_robin_accelerator 0
      ready_world = Ret (Some 0%nat, 1024) w1 /\
    @DeflateQplJobHWPool.acquireJob default_header round_robin_accelerator 0 w1
    = Ret (Some 1%nat, 1023) w2 /\
    0%nat <> 1%nat /\ 1024 <> 1023 /\
    hw_job_ptr_locks w2 !! 0%nat = Some true /\
    hw_job_ptr_locks w2 !! 1%nat = Some true /\
    hw_job_ptr_locks ready_world !! 0%nat = Some false /\
    hw_job_ptr_locks ready_world !! 1%nat = Some false.
Proof.
  pose proof acquireJob_round_robin as Hrun.
  destruct (@DeflateQplJobHWPool.acquireJob default_header round_robin_accelerator 0
              ready_world) as [[p1 id1] w1| | |] eqn:Hacq1; try contradiction.
  destruct Hrun as (-> & -> & Hrun).
  destruct (@DeflateQplJobHWPool.acquireJob default_header round_robin_accelerator 0
              w1) as [[p2 id2] w2| | |] eqn:Hacq2; try contradiction.
  destruct Hrun as (-> & ->).
  exists w1, w2. split; [reflexivity|]. split; [exact Hacq2|].
  exact (@acquireJob_twice_distinct default_header round_robin_accelerator 0 0
           ready_world 0%nat 1024 w1 1%nat 1023 w2 ready_world_wf Hacq1 Hacq2).
Defined.

Lemma releaseJob_rejects_foreign_id_witness :
  @DeflateQplJobHWPool.releaseJob default_header 0 ready_world = Undefined /\
  @DeflateQplJobHWPool.releaseJob default_header 1025 ready_world = Undefined.
Proof.
  split.
  - apply (@releaseJob_rejects_foreign_id default_header 0 ready_world); [unfold is_uint32; lia|reflexivity|cbn; lia].
  - apply (@releaseJob_rejects_foreign_id default_header 1025 ready_world); [unfold is_uint32; lia|reflexivity|cbn; lia].
Defined.

Lemma releaseJob_twice_witness :
  exists w1 w2,
    @DeflateQplJobHWPool.releaseJob default_header 3 in_flight_world
    = Ret (Some 1021%nat) w1 /\
    @DeflateQplJobHWPool.releaseJob default_header 3 w1 = Ret (Some 1021%nat) w2 /\
    hw_job_ptr_locks w1
    = <[1021%nat := false]> (hw_job_ptr_locks in_flight_world) /\
    hw_job_ptr_locks w2 = hw_job_ptr_locks w1 /\
    released_ids (trace w2) = [3; 3].
Proof.
  apply (@releaseJob_twice default_header 3 in_flight_world).
  - exact in_flight_world_wf.
  - reflexivity.
  - cbn. lia.
Defined.

Lemma doCompressData_on_hardware_witness :
  exists w',
    @HardwareCodecDeflateQpl.doCompressData default_header copy_accelerator 0 3 1
      (getMaxCompressedDataSize 3) ready_world = Ret 3 w' /\
    @CompressionCodecDeflateQpl.doCompressData default_header copy_accelerator
      0 3 1 ready_world = Ret 3 w' /\
    mem w' !! 1%nat = Some [Byte.x41; Byte.x42; Byte.x43] /\
    hw_job_ptr_locks w' = hw_job_ptr_locks ready_world /\
    decomp_async_job_map w' = [] /\
    sw_job w' = None.
Proof.
  pose proof acquireJob_ready as Hrun.
  destruct (@DeflateQplJobHWPool.acquireJob default_header copy_accelerator 0
              ready_world) as [[p id] w1| | |] eqn:Hacq; try contradiction.
  destruct Hrun as (-> & ->).
  destruct (@doCompressData_on_hardware default_header copy_accelerator 0 3 1
              ready_world 0%nat 1024 w1 zero_job ready_world_wf eq_refl Hacq
              eq_refl eq_refl ltac:(vm_compute; split; reflexivity))
    as (w' & Hhw & Hdispatch & Hmem & Hlocks & Hmap & Hsw).
  exists w'. split; [exact Hhw|]. split; [exact Hdispatch|].
  split; [rewrite Hmem; reflexivity|]. auto.
Defined.

Example acquireJob_exhausted_copy :
  match @DeflateQplJobHWPool.acquireJob default_header copy_accelerator 0
          exhausted_world with
  | Ret (p, id) w' => p = None /\ id = 0
  | _ => False
  end.
Proof. vm_compute. auto. Qed.

Lemma doCompressData_falls_back_without_slot_witness :
  exists w1,
    @DeflateQplJobHWPool.acquireJob default_header copy_accelerator 0
      exhausted_world = Ret (None, 0) w1 /\
    @CompressionCodecDeflateQpl.doCompressData default_header copy_accelerator
      0 3 1 exhausted_world
    = @SoftwareCodecDeflateQpl.doCompressData copy_accelerator 0 3 1
        (getMaxCompressedDataSize 3)
        (set_trace (EvWarning msg_compress_acquire_failed :: trace w1) w1).
Proof.
  pose proof acquireJob_exhausted_copy as Hrun.
  destruct (@DeflateQplJobHWPool.acquireJob default_header copy_accelerator 0
              exhausted_world) as [[p id] w1| | |] eqn:Hacq; try contradiction.
  destruct Hrun as (-> & ->).
  exists w1. split; [reflexivity|].
  exact (@doCompressData_falls_back_without_slot default_header copy_accelerator
           0 3 1 exhausted_world 0 w1 exhausted_world_wf eq_refl Hacq).
Defined.

Lemma doDecompressData_falls_back_without_slot_witness :
  exists w1,
    @DeflateQplJobHWPool.acquireJob default_header copy_accelerator 0
      exhausted_world = Ret (None, 0) w1 /\
    @CompressionCodecDeflateQpl.doDecompressData default_header copy_accelerator
      0 0 3 1 3 exhausted_world
    = @SoftwareCodecDeflateQpl.doDecompressData copy_accelerator 0 3 1 3
        (set_trace (EvWarning msg_decompress_acquire_failed :: trace w1) w1) /\
    decomp_async_job_map w1 = [] /\
    hw_job_ptr_locks w1 = hw_job_ptr_locks exhausted_world.
Proof.
  pose proof acquireJob_exhausted_copy as Hrun.
  destruct (@DeflateQplJobHWPool.acquireJob default_header copy_accelerator 0
              exhausted_world) as [[p id] w1| | |] eqn:Hacq; try contradiction.
  destruct Hrun as (-> & ->).
  exists w1. split; [reflexivity|].
  apply (@doDecompressData_falls_back_without_slot default_header copy_accelerator
           0 0 3 1 3 exhausted_world 0 w1 exhausted_world_wf eq_refl);
    [discriminate|exact Hacq].
Defined.

Lemma asynchronous_world_wf : @pool_wf default_header asynchronous_world.
Proof. apply pool_wf_default; reflexivity. Qed.

Example acquireJob_asynchronous :
  match @DeflateQplJobHWPool.acquireJob default_header copy_accelerator 0
          asynchronous_world with
  | Ret (p, id) w' => p = Some 0%nat /\ id = 1024
  | _ => False
  end.
Proof. vm_compute. auto. Qed.

Lemma doDecompressData_asynchronous_leaves_job_in_flight_witness :
  exists w1 w',
    @DeflateQplJobHWPool.acquireJob default_header copy_accelerator 0
      asynchronous_world = Ret (Some 0%nat, 1024) w1 /\
    @HardwareCodecDeflateQpl.doDecompressDataAsynchronous default_header
      copy_accelerator 0 3 1 3 asynchronous_world = Ret 1024 w' /\
    @CompressionCodecDeflateQpl.doDecompressData default_header copy_accelerator
      0 0 3 1 3 asynchronous_world = Ret tt w' /\
    decomp_async_job_map w' = [(1024, 0%nat)] /\
    hw_job_ptr_locks w' !! 0%nat = Some true /\
    trace w' = EvSubmit 0 :: trace w1 /\
    decompress_mode w' = Asynchronous.
Proof.
  pose proof acquireJob_asynchronous as Hrun.
  destruct (@DeflateQplJobHWPool.acquireJob default_header copy_accelerator 0
              asynchronous_world) as [[p id] w1| | |] eqn:Hacq; try contradiction.
  destruct Hrun as (-> & ->).
  exists w1. 
  destruct (@doDecompressData_asynchronous_leaves_job_in_flight default_header
              copy_accelerator 0 0 3 1 3 asynchronous_world 0%nat 1024 w1 zero_job
              asynchronous_world_wf eq_refl eq_refl Hacq eq_refl eq_refl)
    as (w' & H).
  exists w'. split; [reflexivity|exact H].
Defined.

Lemma flush_without_jobs_sets_mode_witness :
  @CompressionCodecDeflateQpl.flushAsynchronousDecompressRequests default_header
    copy_accelerator 0 asynchronous_world
  = Ret tt (set_decompress_mode Synchronous asynchronous_world).
Proof.
  apply (@flush_without_jobs_sets_mode default_header copy_accelerator 0
           asynchronous_world).
  left. reflexivity.
Defined.

Lemma in_flight_world_accounted : @slots_accounted default_header in_flight_world.
Proof.
  intros j Hj.
  destruct (decide (j = 1023%nat)) as [->|H1].
  { exists 1, 1023%nat. split; [|reflexivity]. apply elem_of_cons. auto. }
  destruct (decide (j = 1021%nat)) as [->|H3].
  { exists 3, 1021%nat. split; [|reflexivity].
    apply elem_of_cons. right. apply elem_of_cons. auto. }
  exfalso. cbn [hw_job_ptr_locks in_flight_world set_hw_jobs_buffer
                set_hw_job_ptr_locks] in Hj.
  rewrite !list_lookup_insert_ne in Hj by congruence.
  apply lookup_replicate_1 in Hj. destruct Hj as [Hj _]. discriminate.
Qed.

Lemma in_flight_world_invariant : @codec_invariant default_header in_flight_world.
Proof.
  split; [exact in_flight_world_wf|].
  split; [exact in_flight_world_held|exact in_flight_world_accounted].
Qed.

Example doDecompressData_in_flight :
  match @run_operation default_header copy_accelerator
          (op_doDecompressData 30 0 3 1 3) in_flight_world with
  | Ret _ w' =>
      decomp_async_job_map w' = [] /\ hw_job_ptr_locks w' = replicate 1024 false
  | _ => False
  end.
Proof. vm_compute. auto. Qed.

Lemma dispatch_operations_leak_no_slot_witness :
  exists w',
    @run_operation default_header copy_accelerator
      (op_doDecompressData 30 0 3 1 3) in_flight_world = Ret tt w' /\
    @codec_invariant default_header w'.
Proof.
  pose proof (@dispatch_operations_leak_no_slot default_header copy_accelerator
                (op_doDecompressData 30 0 3 1 3) in_flight_world eq_refl
                in_flight_world_invariant) as Hkept.
  pose proof doDecompressData_in_flight as Hrun.
  destruct (@run_operation default_header copy_accelerator
              (op_doDecompressData 30 0 3 1 3) in_flight_world)
    as [[] w'| | |]; try contradiction.
  exists w'. split; [reflexivity|exact Hkept].
Defined.

Lemma flush_frees_every_slot_witness :
  exists fuel0, forall fuel, (fuel0 <= fuel)%nat ->
    exists w',
      @CompressionCodecDeflateQpl.flushAsynchronousDecompressRequests
        default_header copy_accelerator fuel in_flight_world = Ret tt w' /\
      decomp_async_job_map w' = [] /\
      decompress_mode w' = Synchronous /\
      forall j : nat, (j < 1024)%nat -> hw_job_ptr_locks w' !! j = Some false.
Proof.
  apply (@flush_frees_every_slot default_header copy_accelerator in_flight_world).
  - exact in_flight_world_invariant.
  - reflexivity.
  - exact in_flight_world_valid.
  - intros id ptr _. apply copy_accelerator_reports.
Defined.

Lemma software_job_is_initialised_once_witness :
  exists w',
    final_world (@SoftwareCodecDeflateQpl.doDecompressData failing_init_accelerator
                   0 3 1 3 ready_world) = Some w' /\
    sw_job w' <> None /\
    count_events (is_init qpl_path_software) (trace w') = (0 + 1)%nat.
Proof.
  exact (proj2 (@software_job_is_initialised_once failing_init_accelerator 0 3 1 3
                  ready_world)).
Defined.

Lemma failed_software_init_is_not_retried_witness :
  exists w1,
    @SoftwareCodecDeflateQpl.doDecompressData failing_init_accelerator 0 3 1 3
      ready_world = Throw CANNOT_COMPRESS w1 /\
    sw_job w1 = Some zero_job /\
    exists w2,
      @SoftwareCodecDeflateQpl.doDecompressData failing_init_accelerator 0 3 1 3 w1
      = Throw CANNOT_DECOMPRESS w2 /\
      trace w2 = EvExecute qpl_path_software :: trace w1 /\
      count_events (is_init qpl_path_software) (trace w2)
      = count_events (is_init qpl_path_software) (trace w1).
Proof.
  exact (@failed_software_init_is_not_retried failing_init_accelerator 0 3 1 3
           0 3 1 3 ready_world eq_refl eq_refl).
Defined.

Lemma software_destructor_finalises_allocated_job_witness :
  @SoftwareCodecDeflateQpl.destructor ready_world = Ret tt ready_world /\
  exists w1 w2,
    final_world (@SoftwareCodecDeflateQpl.doDecompressData failing_init_accelerator
                   0 3 1 3 ready_world) = Some w1 /\
    @SoftwareCodecDeflateQpl.destructor w1 = Ret tt w2 /\
    trace w2 = EvFini qpl_path_software :: trace w1.
Proof.
  destruct (@software_destructor_finalises_allocated_job failing_init_accelerator
              0 3 1 3 ready_world) as (Hnull & Hafter).
  split; [apply Hnull; reflexivity|exact Hafter].
Defined.

Lemma hw_destructor_releases_jobs_in_flight_witness :
  exists w',
    @HardwareCodecDeflateQpl.destructor default_header true in_flight_world
    = Ret tt w' /\
    decomp_async_job_map w' = [] /\
    released_ids (trace w') = [3; 1] /\
    count_events is_check (trace w') = 0%nat /\
    (job_pool_ready in_flight_world = true ->
     forall id ptr, (id, ptr) ∈ decomp_async_job_map in_flight_world ->
       hw_job_ptr_locks w' !! Z.to_nat (1024 - id) = Some false) /\
    (forall j : nat,
       (forall id ptr, (id, ptr) ∈ decomp_async_job_map in_flight_world ->
          Z.to_nat (1024 - id) <> j) ->
       hw_job_ptr_locks w' !! j = hw_job_ptr_locks in_flight_world !! j).
Proof.
  exact (@hw_destructor_releases_jobs_in_flight default_header in_flight_world
           in_flight_world_wf in_flight_world_held).
Defined.

Lemma dispatch_calls_are_defined_witness :
  (exists w',
     final_world (@CompressionCodecDeflateQpl.doCompressData default_header
                    failing_hw_accelerator 0 3 1 exhausted_world) = Some w') /\
  exists w',
    final_world (@CompressionCodecDeflateQpl.doDecompressData default_header
                   failing_hw_accelerator 0 0 3 1 3 asynchronous_world) = Some w'.
Proof.
  split.
  - exact (proj1 (@dispatch_calls_are_defined default_header failing_hw_accelerator
                    0 0 3 1 3 exhausted_world exhausted_world_wf)).
  - exact (proj2 (@dispatch_calls_are_defined default_header failing_hw_accelerator
                    0 0 3 1 3 asynchronous_world asynchronous_world_wf)
             ltac:(discriminate)).
Defined.
